(** * plasmactl-platform: the state reconciler and the component graph builder

    A shallow embedding of
    - [state_management_components.py]: the version fetchers' parsers, the
      merge of the three observation maps, [StateCreator] and the snapshot
      rotation of [main];
    - [platform_components.py]: [add_resource] and
      [process_resources_dependencies].

    Python values are modelled as the JSON-like data the modules exchange,
    Python dictionaries as association lists in insertion order, and Python
    exceptions as the [Raise] outcome of a small error monad. *)

From Stdlib Require Import List String Ascii ZArith Bool Arith Lia.
From Stdlib Require Import Permutation Sorted.
Import ListNotations.

Local Open Scope string_scope.
Local Open Scope list_scope.
Set Warnings "-register-all".

(* ===================================================================== *)
(** ** Python values *)
(* ===================================================================== *)

Module Py.

(** Hashable scalars used as dictionary keys.  Python identifies [True]
    with [1] and [False] with [0] as keys, so a boolean key is stored as
    its integer. *)
Inductive pykey : Type :=
| KNone
| KInt (z : Z)
| KStr (s : string).

(** The values that travel through the module arguments and the fetchers'
    outputs (floats do not occur in them and are left out). *)
Inductive pyval : Type :=
| PNone
| PBool (b : bool)
| PInt (z : Z)
| PStr (s : string)
| PList (l : list pyval)
| PDict (d : list (pykey * pyval)).

(** A dictionary is the list of its items in insertion order; its keys are
    pairwise distinct. *)
Definition dict : Type := list (pykey * pyval).

Inductive exc : Type :=
| KeyError (k : pykey)
| TypeError
| AttributeError
| IndexError
| ConnectionRefusedError (code message : pyval)
| CalledProcessError
| ValueError.

Inductive result (A : Type) : Type :=
| Ok (a : A)
| Raise (e : exc).
Arguments Ok {A} a.
Arguments Raise {A} e.

Definition bind {A B} (c : result A) (k : A -> result B) : result B :=
  match c with
  | Ok a => k a
  | Raise e => Raise e
  end.

Notation "x <- c ;; k" := (bind c (fun x => k))
  (at level 61, c at next level, right associativity).

Definition pykey_eq_dec (a b : pykey) : {a = b} + {a <> b}.
Proof.
  decide equality; [apply Z.eq_dec | apply string_dec].
Defined.

Definition key_eqb (a b : pykey) : bool :=
  if pykey_eq_dec a b then true else false.

Coercion KStr : string >-> pykey.

(** *** Dictionaries *)

Fixpoint dget {V} (k : pykey) (d : list (pykey * V)) : option V :=
  match d with
  | [] => None
  | (k', v) :: d' => if pykey_eq_dec k k' then Some v else dget k d'
  end.

(** [d[k] = v]: an existing key keeps its place, a new key goes last. *)
Fixpoint dset {V} (k : pykey) (v : V) (d : list (pykey * V)) : list (pykey * V) :=
  match d with
  | [] => [(k, v)]
  | (k', v') :: d' =>
      if pykey_eq_dec k k' then (k', v) :: d' else (k', v') :: dset k v d'
  end.

(** [d.update(e)] *)
Definition dupdate {V} (d e : list (pykey * V)) : list (pykey * V) :=
  fold_left (fun acc kv => dset (fst kv) (snd kv) acc) e d.

Definition dkeys {V} (d : list (pykey * V)) : list pykey := map fst d.

Definition dmem {V} (k : pykey) (d : list (pykey * V)) : bool :=
  existsb (key_eqb k) (dkeys d).

(** *** Hashing, equality, membership, iteration *)

Definition py_hash (v : pyval) : result pykey :=
  match v with
  | PNone => Ok KNone
  | PBool b => Ok (KInt (Z.b2z b))
  | PInt z => Ok (KInt z)
  | PStr s => Ok (KStr s)
  | PList _ | PDict _ => Raise TypeError
  end.

Definition val_of_key (k : pykey) : pyval :=
  match k with
  | KNone => PNone
  | KInt z => PInt z
  | KStr s => PStr s
  end.

(** Python's [==]: booleans compare as integers, lists element by element,
    dictionaries regardless of the order of their items. *)
Fixpoint py_eqb (a b : pyval) {struct a} : bool :=
  match a, b with
  | PNone, PNone => true
  | PBool x, PBool y => Bool.eqb x y
  | PBool x, PInt y => Z.eqb (Z.b2z x) y
  | PInt x, PBool y => Z.eqb x (Z.b2z y)
  | PInt x, PInt y => Z.eqb x y
  | PStr x, PStr y => String.eqb x y
  | PList l, PList m =>
      (fix go (l m : list pyval) {struct l} : bool :=
         match l, m with
         | [], [] => true
         | x :: l', y :: m' => py_eqb x y && go l' m'
         | _, _ => false
         end) l m
  | PDict d, PDict e =>
      Nat.eqb (List.length d) (List.length e) &&
      (fix go (d : list (pykey * pyval)) : bool :=
         match d with
         | [] => true
         | (k, v) :: d' =>
             match dget k e with
             | Some w => py_eqb v w
             | None => false
             end && go d'
         end) d
  | _, _ => false
  end.

(** [sub in s] on strings. *)
Fixpoint str_in (sub s : string) : bool :=
  String.prefix sub s ||
  match s with
  | EmptyString => false
  | String _ s' => str_in sub s'
  end.

(** [x in c] *)
Definition py_contains (x c : pyval) : result bool :=
  match c with
  | PList l => Ok (existsb (py_eqb x) l)
  | PStr s =>
      match x with
      | PStr sub => Ok (str_in sub s)
      | _ => Raise TypeError
      end
  | PDict d => k <- py_hash x ;; Ok (dmem k d)
  | PNone | PBool _ | PInt _ => Raise TypeError
  end.

Fixpoint chars (s : string) : list pyval :=
  match s with
  | EmptyString => []
  | String c s' => PStr (String c EmptyString) :: chars s'
  end.

(** [for x in c] *)
Definition py_iter (c : pyval) : result (list pyval) :=
  match c with
  | PList l => Ok l
  | PDict d => Ok (map val_of_key (dkeys d))
  | PStr s => Ok (chars s)
  | PNone | PBool _ | PInt _ => Raise TypeError
  end.

(** [c[k]] for a string [k] *)
Definition py_getitem (c : pyval) (k : string) : result pyval :=
  match c with
  | PDict d =>
      match dget (KStr k) d with
      | Some v => Ok v
      | None => Raise (KeyError (KStr k))
      end
  | _ => Raise TypeError
  end.

(** *** Strings *)

(** [s.replace(old, new)] for a non-empty [old] (every call of the modules
    passes a non-empty literal): [skip] counts the characters of a matched
    occurrence still to be dropped. *)
Fixpoint replace_from (old new : string) (skip : nat) (s : string) : string :=
  match s with
  | EmptyString => EmptyString
  | String c s' =>
      match skip with
      | S n => replace_from old new n s'
      | O =>
          if String.prefix old s
          then (new ++ replace_from old new (String.length old - 1) s')%string
          else String c (replace_from old new 0 s')
      end
  end.

Definition replace (old new s : string) : string := replace_from old new 0 s.

(** [v.replace(old, new)]: only strings have the method. *)
Definition py_replace (v : pyval) (old new : string) : result string :=
  match v with
  | PStr s => Ok (replace old new s)
  | _ => Raise AttributeError
  end.

(** [s.split(sep)] for a one-character separator. *)
Fixpoint split (sep : ascii) (s : string) : list string :=
  match s with
  | EmptyString => [EmptyString]
  | String c s' =>
      if Ascii.eqb c sep then EmptyString :: split sep s'
      else match split sep s' with
           | h :: t => String c h :: t
           | [] => [String c EmptyString]
           end
  end.

(** [s.split(sep, 1)] *)
Fixpoint split1 (sep : ascii) (s : string) : list string :=
  match s with
  | EmptyString => [EmptyString]
  | String c s' =>
      if Ascii.eqb c sep then [EmptyString; s']
      else match split1 sep s' with
           | h :: t => String c h :: t
           | [] => [String c EmptyString]
           end
  end.

Fixpoint join (sep : string) (l : list string) : string :=
  match l with
  | [] => EmptyString
  | [x] => x
  | x :: l' => (x ++ sep ++ join sep l')%string
  end.

End Py.
Import Py.

(* ===================================================================== *)
(** ** state_management_components.py: StateCreator *)
(* ===================================================================== *)

(** The double quote character, for the password template. *)
Definition dquote : string := String (ascii_of_nat 34) EmptyString.

(** The password template: the machine short name followed by
    [_service_plain_password|default(...)] between double braces, the
    default being the empty string literal. *)
Definition password_template (machine_mrsn : string) : string :=
  ("{{ " ++ machine_mrsn ++ "_service_plain_password|default("
     ++ dquote ++ dquote ++ ") }}")%string.

(** [d.get(k, default)] *)
Definition dget_default (k : pykey) (d : dict) (default : pyval) : pyval :=
  match dget k d with
  | Some v => v
  | None => default
  end.

Definition is_not_None (v : pyval) : bool :=
  match v with
  | PNone => false
  | _ => true
  end.

(** [StateCreator.state_helper(new_version, tag, old_version)]; the caller
    passes [[]] (the empty dictionary) for an omitted [old_version]. *)
Definition state_helper (new_version tag : pyval) (old_version : dict)
  : result dict :=
  k <- py_hash tag ;;
  fresh <- py_contains new_version (dget_default k old_version (PList [])) ;;
  Ok [(k, PDict
            [ (KStr "mrv", dget_default k old_version (PList []));
              (KStr "mrv_cur",
                dget_default (KStr "current_version") old_version
                  (dget_default k old_version PNone));
              (KStr "exists",
                PBool (is_not_None (dget_default k old_version (PList []))));
              (KStr "fresh", PBool fresh);
              (KStr "build", PBool (negb fresh)) ])].

(** The test
    [mrn in list(current_states.keys()) and tag in list(current_states[mrn].keys())]:
    [Ok (Some entry)] when it holds, with [entry = current_states[mrn]];
    [.keys()] fails on an entry that is not a dictionary. *)
Definition observed (current_states : dict) (mrn : pykey) (tag : pyval)
  : result (option dict) :=
  if dmem mrn current_states then
    match dget mrn current_states with
    | Some (PDict entry) =>
        if existsb (fun k => py_eqb tag (val_of_key k)) (dkeys entry)
        then Ok (Some entry) else Ok None
    | Some _ => Raise AttributeError
    | None => Raise (KeyError mrn)
    end
  else Ok None.

(** The component record is mutated in place, so every step returns the
    record as it stands together with the outcome. *)
Definition stepped : Type := (dict * result unit)%type.

(** [if "state" in states[mrn]: states[mrn]["state"].update(state)
     else: states[mrn]["state"] = state] *)
Definition store_state (comp state : dict) : stepped :=
  if dmem (KStr "state") comp then
    match dget (KStr "state") comp with
    | Some (PDict st) => (dset (KStr "state") (PDict (dupdate st state)) comp, Ok tt)
    | _ => (comp, Raise AttributeError)
    end
  else (dset (KStr "state") (PDict state) comp, Ok tt).

(** The body of [for tag in comp["mrt"]]. *)
Definition channel_step (current_states : dict) (mrn : pykey) (mrv : pyval)
    (comp : dict) (tag : pyval) : stepped :=
  match observed current_states mrn tag with
  | Raise e => (comp, Raise e)
  | Ok (Some current_version) =>
      match (m <- py_getitem (PDict comp) "mrsn" ;; py_replace m "-" "_") with
      | Raise e => (comp, Raise e)
      | Ok machine_mrsn =>
          let comp1 :=
            dset (KStr "password") (PStr (password_template machine_mrsn)) comp in
          match state_helper mrv tag current_version with
          | Raise e => (comp1, Raise e)
          | Ok state => store_state comp1 state
          end
      end
  | Ok None =>
      match state_helper mrv tag [] with
      | Raise e => (comp, Raise e)
      | Ok state => store_state comp state
      end
  end.

Fixpoint channels_loop (current_states : dict) (mrn : pykey) (mrv : pyval)
    (comp : dict) (tags : list pyval) : stepped :=
  match tags with
  | [] => (comp, Ok tt)
  | tag :: rest =>
      match channel_step current_states mrn mrv comp tag with
      | (comp', Ok _) => channels_loop current_states mrn mrv comp' rest
      | (comp', Raise e) => (comp', Raise e)
      end
  end.

(** The [try] body for one component: the entry registered in [states]
    (none when [comp["mrv"]] fails, since [states[mrn] = comp] follows it)
    and the exception caught, if any. *)
Definition process_component (current_states : dict) (mrn : pykey)
    (comp : pyval) : option dict * option exc :=
  match comp with
  | PDict c =>
      match dget (KStr "mrv") c with
      | None => (None, Some (KeyError (KStr "mrv")))
      | Some mrv =>
          match (t <- py_getitem comp "mrt" ;; py_iter t) with
          | Raise e => (Some c, Some e)
          | Ok tags =>
              match channels_loop current_states mrn mrv c tags with
              | (c', Ok _) => (Some c', None)
              | (c', Raise e) => (Some c', Some e)
              end
          end
      end
  | _ => (None, Some TypeError)
  end.

Definition printed_of (e : option exc) : list exc :=
  match e with
  | Some x => [x]
  | None => []
  end.

(** [StateCreator.create_state]: the state table and the exceptions printed
    by the [except] clause, in order. *)
Definition create_state_from (merged_data : dict) (components : dict)
    (acc : dict * list exc) : dict * list exc :=
  fold_left
    (fun (acc : dict * list exc) (item : pykey * pyval) =>
       match process_component merged_data (fst item) (snd item) with
       | (Some c, e) => (dset (fst item) (PDict c) (fst acc), snd acc ++ printed_of e)
       | (None, e) => (fst acc, snd acc ++ printed_of e)
       end)
    components acc.

Definition create_state (merged_data : dict) (components : dict)
  : dict * list exc :=
  create_state_from merged_data components ([], []).

(** Reading a reconciled record: [states[mrn]["state"][channel][field]]. *)
Definition state_field (states : dict) (mrn channel : pykey) (field : string)
  : option pyval :=
  match dget mrn states with
  | Some (PDict c) =>
      match dget (KStr "state") c with
      | Some (PDict st) =>
          match dget channel st with
          | Some (PDict r) => dget (KStr field) r
          | _ => None
          end
      | _ => None
      end
  | _ => None
  end.

(** The ids observed for a component and a channel in the merged map, the
    empty list when the component or the channel was not observed. *)
Definition observed_ids (merged_data : dict) (mrn channel : pykey) : pyval :=
  match dget mrn merged_data with
  | Some (PDict entry) => dget_default channel entry (PList [])
  | _ => PList []
  end.

(* ===================================================================== *)
(** ** state_management_components.py: the image fetchers *)
(* ===================================================================== *)

(** *** The tag parser of [fetch_from_registry] *)

(** One round of [for i, cur_bool in enumerate(isCurrentTagPresentList)]:
    [cur] is the tag, [cur_bool] is ["cur" in cur]. *)
Definition registry_tag_step (current_tag_dict : dict) (cur : string)
  : result dict :=
  if str_in "_" cur && negb (str_in "__" cur) then
    let prefix := nth 0 (split "_" cur) EmptyString in
    let suffix := replace "-cur" EmptyString (nth 1 (split "_" cur) EmptyString) in
    d <- (if dmem (KStr suffix) current_tag_dict then
            match dget (KStr suffix) current_tag_dict with
            | Some (PList ids) =>
                Ok (dset (KStr suffix) (PList (ids ++ [PStr prefix])) current_tag_dict)
            | _ => Raise AttributeError
            end
          else Ok (dset (KStr suffix) (PList [PStr prefix]) current_tag_dict)) ;;
    Ok (if str_in "cur" cur
        then dset (KStr "current_version") (PStr prefix) d
        else d)
  else Ok current_tag_dict.

Fixpoint registry_tag_loop (current_tag_dict : dict) (tags : list string)
  : result dict :=
  match tags with
  | [] => Ok current_tag_dict
  | cur :: rest =>
      d <- registry_tag_step current_tag_dict cur ;;
      registry_tag_loop d rest
  end.

(** [current_tag_dict] for the tag list of one repository: nothing is
    recorded unless some tag contains ["cur"]. *)
Definition registry_tags (tags : list string) : result dict :=
  if existsb (str_in "cur") tags then registry_tag_loop [] tags else Ok [].

(** *** The registry protocol *)

(** The JSON bodies the registry answers with. *)
Inductive registry_body : Type :=
| Catalog (repositories : list string)
| TagList (name : string) (tags : option (list string))
| Errors (errors : list (pyval * pyval)).

(** What [is_present(resp, "link")] and [get_last] find in a response: no
    line mentioning a link, the target between angle brackets of the first
    such line, or a line without such a target. *)
Inductive link_header : Type :=
| NoLink
| Next (target : string)
| Unparsable.

(** The outcome of the [curl] subprocess. *)
Inductive command_outcome : Type :=
| TimedOut
| Failed
| Responded (link : link_header) (body : registry_body).

(** How [run_command] ends: [SysExit] is [sys.exit], which no
    [except Exception] clause catches. *)
Inductive ran (A : Type) : Type :=
| Returned (a : A)
| Raised (e : exc)
| SysExit (msg : string).
Arguments Returned {A} a.
Arguments Raised {A} e.
Arguments SysExit {A} msg.

(** [run_command(command, last)] with [last] other than ["normal"]: the
    catalog pages.  An error payload raises on its first error. *)
Definition run_command (outcome : command_outcome) (last : string)
  : ran (registry_body * string * bool) :=
  match outcome with
  | TimedOut => SysExit "Error: Command timed out after 40 seconds."
  | Failed => Raised CalledProcessError
  | Responded link values =>
      match values with
      | Errors ((code, message) :: _) =>
          Raised (ConnectionRefusedError code message)
      | _ =>
          match link with
          | NoLink => Returned (values, last, false)
          | Next target => Returned (values, target, true)
          | Unparsable => Raised AttributeError
          end
      end
  end.

(** [run_command(command, "normal")]: the tag lists; the response is
    returned as it is. *)
Definition run_command_normal (outcome : command_outcome) : ran registry_body :=
  match outcome with
  | TimedOut => SysExit "Error: Command timed out after 40 seconds."
  | Failed => Raised CalledProcessError
  | Responded _ body => Returned body
  end.

(** [get_paths]: the catalog pages are read from the trace of the
    registry's answers; [None] when the trace ends while a page still
    links to a next one.  Every exception is logged and ends the loop with
    the paths gathered so far. *)
Fixpoint get_paths_from (trace : list command_outcome) (last : string)
    (paths : list string) : option (ran (list string)) :=
  match trace with
  | [] => None
  | outcome :: rest =>
      match run_command outcome last with
      | SysExit msg => Some (SysExit msg)
      | Raised _ => Some (Returned paths)
      | Returned (values, last', link_exists) =>
          match values with
          | Catalog repositories =>
              if link_exists
              then get_paths_from rest last' (paths ++ repositories)
              else Some (Returned (paths ++ repositories))
          | _ => Some (Returned paths)
          end
      end
  end.

Definition get_paths (trace : list command_outcome) : option (ran (list string)) :=
  get_paths_from trace EmptyString [].

(** [result["name"].replace("/", "__").replace("-", "_")] *)
Definition resource_name_of (name : string) : string :=
  replace "-" "_" (replace "/" "__" name).


(** The round of [for future in as_completed(futures)] for one answer. *)
Definition aggregate_step (results : dict) (outcome : command_outcome) : ran dict :=
  match run_command_normal outcome with
  | SysExit msg => SysExit msg
  | Raised e => Raised e
  | Returned (TagList name tags) =>
      match registry_tags (match tags with Some l => l | None => [] end) with
      | Raise e => Raised e
      | Ok current_tag_dict =>
          let resource_name := KStr (resource_name_of name) in
          if dmem resource_name results then
            match dget resource_name results with
            | Some (PDict old) =>
                Returned (dset resource_name (PDict (dupdate old current_tag_dict)) results)
            | _ => Raised AttributeError
            end
          else Returned (dset resource_name (PDict current_tag_dict) results)
      end
  | Returned _ => Raised (KeyError (KStr "tags"))
  end.

Fixpoint aggregate (results : dict) (answers : list command_outcome) : ran dict :=
  match answers with
  | [] => Returned results
  | outcome :: rest =>
      match aggregate_step results outcome with
      | Returned results' => aggregate results' rest
      | stop => stop
      end
  end.

(** [fetch_from_registry]: [catalog] is the trace of the catalog pages,
    [tag_lists] gives the answer to the tag-list request of a repository;
    the answers are aggregated in the order of the paths. *)
Definition fetch_from_registry (catalog : list command_outcome)
    (tag_lists : string -> command_outcome) : option (ran dict) :=
  match get_paths catalog with
  | None => None
  | Some (Returned paths) => Some (aggregate [] (map tag_lists paths))
  | Some (Raised e) => Some (Raised e)
  | Some (SysExit msg) => Some (SysExit msg)
  end.

(** *** The local image cache: [process_crictl_output] *)

Definition is_space (c : ascii) : bool :=
  let n := nat_of_ascii c in
  ((9 <=? n)%nat && (n <=? 13)%nat) || ((28 <=? n)%nat && (n <=? 32)%nat).

Fixpoint lstrip (s : string) : string :=
  match s with
  | EmptyString => EmptyString
  | String c s' => if is_space c then lstrip s' else s
  end.

Fixpoint string_rev (s : string) : string :=
  match s with
  | EmptyString => EmptyString
  | String c s' => (string_rev s' ++ String c EmptyString)%string
  end.

Definition strip (s : string) : string :=
  string_rev (lstrip (string_rev (lstrip s))).

(** [line.split()]: the words between runs of white space. *)
Fixpoint words_from (word : string) (s : string) : list string :=
  match s with
  | EmptyString =>
      match word with EmptyString => [] | _ => [word] end
  | String c s' =>
      if is_space c then
        match word with
        | EmptyString => words_from EmptyString s'
        | _ => word :: words_from EmptyString s'
        end
      else words_from (word ++ String c EmptyString)%string s'
  end.

Definition words (s : string) : list string := words_from EmptyString s.

Definition newline : ascii := ascii_of_nat 10.

(** The body of [for line in crictl_output]. *)
Definition crictl_line_step (state_builder_images_uri : string) (result : dict)
    (line : string) : Py.result dict :=
  match words line with
  | image :: tag :: _ =>
      if negb (str_in "cur" tag) then Ok result
      else if str_in "_" tag && negb (str_in "__" tag) then
        match split1 "_" tag with
        | [tag_id; tag_suffix0] =>
            let tag_suffix := replace "-cur" EmptyString tag_suffix0 in
            let mrn :=
              KStr (replace "-" "_"
                      (join "__"
                         (filter (fun part => negb (String.eqb part state_builder_images_uri))
                                 (split "/" image)))) in
            if dmem mrn result then
              match dget mrn result with
              | Some (PDict entry) =>
                  Ok (dset mrn (PDict (dset (KStr tag_suffix) (PList [PStr tag_id]) entry)) result)
              | _ => Raise TypeError
              end
            else Ok (dset mrn (PDict [(KStr tag_suffix, PList [PStr tag_id])]) result)
        | _ => Ok result
        end
      else Ok result
  | _ => Ok result
  end.

Fixpoint crictl_lines (uri : string) (result : dict) (lines : list string)
  : Py.result dict :=
  match lines with
  | [] => Ok result
  | line :: rest =>
      d <- crictl_line_step uri result line ;;
      crictl_lines uri d rest
  end.

(** [process_crictl_output]: [crictl_output.pop()] drops the last line. *)
Definition process_crictl_output (stdout : string)
    (state_builder_images_uri : string) : Py.result dict :=
  crictl_lines state_builder_images_uri []
    (removelast (split newline (strip stdout))).

(** An element of the sequence given to [dict.update]: an iterable of
    exactly two values, the first of them hashable. *)
Definition update_pair (element : pyval) : Py.result (pykey * pyval) :=
  items <- py_iter element ;;
  match items with
  | [k; v] => key <- py_hash k ;; Ok (key, v)
  | _ => Raise ValueError
  end.

Fixpoint update_pairs (d : dict) (elements : list pyval) : Py.result dict :=
  match elements with
  | [] => Ok d
  | element :: rest =>
      kv <- update_pair element ;;
      update_pairs (dset (fst kv) (snd kv) d) rest
  end.

(** [d.update(other)]: [other] is a dictionary, or an iterable of
    key/value pairs. *)
Definition py_update (d : dict) (other : pyval) : Py.result dict :=
  match other with
  | PDict e => Ok (dupdate d e)
  | _ => elements <- py_iter other ;; update_pairs d elements
  end.

(** [ImagesVersionFetcher.fetch_version]: the registry's entries are laid
    over the local ones, channel by channel.  An entry of the local data
    that is not a dictionary has no [update]. *)
Definition images_merge_step (local_images_data : dict) (item : pykey * pyval)
  : Py.result dict :=
  if dmem (fst item) local_images_data then
    match dget (fst item) local_images_data with
    | Some (PDict entry) =>
        merged <- py_update entry (snd item) ;;
        Ok (dset (fst item) (PDict merged) local_images_data)
    | _ => Raise AttributeError
    end
  else Ok (dset (fst item) (snd item) local_images_data).

Fixpoint images_merge (local_images_data : dict) (docker_registry_data : dict)
  : Py.result dict :=
  match docker_registry_data with
  | [] => Ok local_images_data
  | item :: rest =>
      d <- images_merge_step local_images_data item ;;
      images_merge d rest
  end.


(* ===================================================================== *)
(** ** state_management_components.py: main *)
(* ===================================================================== *)

(** [if data is not None: merged_data.update(data)] *)
Definition merge_source (merged_data : dict) (data : option dict) : dict :=
  match data with
  | Some d => dupdate merged_data d
  | None => merged_data
  end.

(** The top-level merge of [main]: host environment, then cluster, then
    images. *)
Definition merge_sources (os_data cluster_data images_data : option dict) : dict :=
  merge_source (merge_source (merge_source [] os_data) cluster_data) images_data.

(** *** The snapshot store *)

(** A file [vars_with_state_<stamp>.json] of the log folder. *)
Record snapshot : Type := {
  stamp : Z;
  ctime : Z;
  content : dict
}.

(** [/tmp/vars_with_state.json], with its change time, and the snapshots of
    the log folder. *)
Record files : Type := {
  current : option (Z * dict);
  retained : list snapshot
}.

Fixpoint insert_by_ctime (f : snapshot) (l : list snapshot) : list snapshot :=
  match l with
  | [] => [f]
  | g :: l' => if (ctime f <? ctime g)%Z then f :: l else g :: insert_by_ctime f l'
  end.

(** [sorted(..., key=os.path.getctime)] *)
Definition sorted_by_ctime (l : list snapshot) : list snapshot :=
  fold_left (fun acc f => insert_by_ctime f acc) l [].

(** [while len(files) >= max_files: os.remove(files.pop(0))], for a
    positive [max_files]. *)
Fixpoint remove_oldest (fs : list snapshot) (max_files : nat) : list snapshot :=
  match fs with
  | [] => []
  | _ :: rest =>
      if (max_files <=? List.length fs)%nat then remove_oldest rest max_files else fs
  end.

Definition manage_files (directory : list snapshot) (max_files : nat)
  : list snapshot :=
  remove_oldest (sorted_by_ctime directory) max_files.

Definition max_files : nat := 4.

(** The rotation of [main]: the current snapshot is moved under the name
    made from its change time (replacing a file of that name; the move
    itself changes the file at [now]), then [manage_files] runs. *)
Definition rotate (now : Z) (fs : files) : files :=
  match current fs with
  | None => fs
  | Some (creation_time, old) =>
      let moved := {| stamp := creation_time; ctime := now; content := old |} in
      {| current := None;
         retained :=
           manage_files
             (moved :: filter (fun f => negb (stamp f =? creation_time)%Z) (retained fs))
             max_files |}
  end.

(** [open(new_file_path, "w")] and [json.dump]. *)
Definition write_current (now : Z) (states : dict) (fs : files) : files :=
  {| current := Some (now, states); retained := retained fs |}.

Definition persist (now : Z) (states : dict) (fs : files) : files :=
  write_current now states (rotate now fs).

(** What a fetcher call gives [main]: its value ([None] for Python's
    [None]) or the exception it raised. *)
Inductive fetched : Type :=
| Fetched (data : option dict)
| FetchRaised (e : exc).


Inductive exit : Type :=
| ExitJson (states : dict)
| FailJson (e : exc).

Definition states_of (merged_data components : dict) : dict :=
  match merged_data with
  | [] => []
  | _ => fst (create_state merged_data components)
  end.

(** The [except] clauses of [main], entered with the data merged so far. *)
Definition main_except (e : exc) (merged_data components : dict) (now : Z)
    (fs : files) : exit * files :=
  match e with
  | CalledProcessError =>
      let states := states_of merged_data components in
      (ExitJson states, write_current now states fs)
  | _ => (FailJson e, fs)
  end.

(** [main], outside check mode, given what the three fetchers return. *)
Definition main (components : dict) (os cluster images : fetched) (now : Z)
    (fs : files) : exit * files :=
  match os with
  | FetchRaised e => main_except e [] components now fs
  | Fetched os_data =>
      let merged1 := merge_source [] os_data in
      match cluster with
      | FetchRaised e => main_except e merged1 components now fs
      | Fetched cluster_data =>
          let merged2 := merge_source merged1 cluster_data in
          match images with
          | FetchRaised e => main_except e merged2 components now fs
          | Fetched images_data =>
              let merged_data := merge_source merged2 images_data in
              let states := states_of merged_data components in
              (ExitJson states, persist now states fs)
          end
      end
  end.

(** [n] successive passes at the given times, each writing [states]. *)
Definition passes (times : list Z) (states : dict) (fs : files) : files :=
  fold_left (fun fs now => persist now states fs) times fs.

Definition no_files : files := {| current := None; retained := [] |}.

(* ===================================================================== *)
(** ** platform_components.py: the component graph builder *)
(* ===================================================================== *)

Module Platform.

(** The values of [kind_singular]; they are the keys of [kind_scheme] and
    of [kind_plural]. *)
Inductive kind : Type :=
| application | service | flow | executor | skill | helper | builder
| library | entity | software | function.

Definition kind_eq_dec (a b : kind) : {a = b} + {a <> b}.
Proof. decide equality. Defined.

Definition kind_singular (plural : string) : option kind :=
  if String.eqb plural "applications" then Some application
  else if String.eqb plural "services" then Some service
  else if String.eqb plural "flows" then Some flow
  else if String.eqb plural "executors" then Some executor
  else if String.eqb plural "skills" then Some skill
  else if String.eqb plural "helpers" then Some helper
  else if String.eqb plural "builders" then Some builder
  else if String.eqb plural "libraries" then Some library
  else if String.eqb plural "entities" then Some entity
  else if String.eqb plural "softwares" then Some software
  else if String.eqb plural "functions" then Some function
  else None.

Definition kind_scheme (k : kind) : string :=
  match k with
  | application => "app"
  | service => "svc"
  | flow => "flow"
  | executor => "executor"
  | skill => "skill"
  | entity => "ent"
  | software => "soft"
  | function => "function"
  | helper => "hp"
  | builder => "build"
  | library => "lib"
  end.

(** The declared metadata, the [plasma] object of [meta/plasma.yaml]: each
    field is present or not. *)
Record plasma : Type := {
  meta_author : option pyval;
  meta_description : option pyval;
  meta_labels : option pyval;
  meta_version : option string;
  meta_scope : option pyval;
  meta_tags : option (list string);
  meta_stage : option pyval
}.

Definition empty_plasma : plasma :=
  {| meta_author := None; meta_description := None; meta_labels := None;
     meta_version := None; meta_scope := None; meta_tags := None;
     meta_stage := None |}.

(** The file [meta/plasma.yaml] of a role. *)
Inductive meta_file : Type :=
| MetaMissing
| MetaWithoutPlasma
| MetaPlasma (p : plasma).

(** [VarsModule.metadata]: the empty dictionary for a missing file or a
    file without the [plasma] object. *)
Definition metadata (m : meta_file) : plasma :=
  match m with
  | MetaMissing => empty_plasma
  | MetaWithoutPlasma => empty_plasma
  | MetaPlasma p => p
  end.

(** The [vars] of a task of a flow: string variables. *)
Definition task : Type := option (list (string * string)).

(** A role as [add_resource] reads it: its name, its path, its metadata
    file, the files of [path/files] (for functions), its tasks (for flows)
    and its direct and included dependencies, in this order. *)
Inductive role : Type :=
| Role (role_name : string) (role_path : string) (meta : meta_file)
       (role_files : list string) (tasks : list task)
       (dependencies : list role).

Definition get_name (r : role) : string :=
  match r with Role n _ _ _ _ _ => n end.

(** The [skill] attribute of a flow: the name of its first skill, then
    the [FlowSkill] dictionary. *)
Inductive flow_skill : Type :=
| SkillName (n : string)
| SkillRecord (n : string) (skill_stage : option pyval).

(** Modelled from the spec: the classes [Resource], [Application],
    [Service], ... that declare the attributes of a component are not part
    of the sources at hand.  Following section 3 of the specification, a
    component carries the attributes below, every attribute [add_resource]
    sets is declared, and a new component has no [requires] and no
    [requiredby] entry. *)
Record resource : Type := {
  mrn : string;
  mrsn : string;
  mrns : string;
  name : string;
  public_uri : string;
  schema : string;
  author : pyval;
  description : pyval;
  password : string;
  path : string;
  labels : option pyval;
  mrv : string;
  version : string;
  mrs : pyval;
  mrk : kind;
  mrl : string;
  mrc : string;
  nodeselector : string;
  mrt : list string;
  state : dict;
  languages : option pyval;
  language : option string;
  requires : list string;
  requiredby : list string;
  mri : dict;
  plural : list (kind * list string);
  singular : list (kind * string);
  stage : option pyval;
  input : option string;
  trigger : option string;
  output : option string;
  flow_skill_of : option flow_skill
}.

Definition with_requiredby (r : resource) (l : list string) : resource :=
  {| mrn := mrn r; mrsn := mrsn r; mrns := mrns r; name := name r;
     public_uri := public_uri r; schema := schema r; author := author r;
     description := description r; password := password r; path := path r;
     labels := labels r; mrv := mrv r; version := version r; mrs := mrs r;
     mrk := mrk r; mrl := mrl r; mrc := mrc r; nodeselector := nodeselector r;
     mrt := mrt r; state := state r; languages := languages r;
     language := language r; requires := requires r; requiredby := l;
     mri := mri r; plural := plural r; singular := singular r;
     stage := stage r; input := input r; trigger := trigger r;
     output := output r; flow_skill_of := flow_skill_of r |}.

(** The state of the [VarsModule] singleton that the builder writes. *)
Record graph : Type := {
  resources : list (pykey * resource);
  resource_namespaces : list string
}.

Definition empty_graph : graph :=
  {| resources := []; resource_namespaces := [] |}.

(** [name.replace('-', '_').replace('.', '__')] *)
Definition normalize_name (n : string) : string :=
  replace "." "__" (replace "-" "_" n).

(** [self.kind_singular[path.split('/')[-3]]] *)
Definition resource_kind_from_role_path (p : string) : result kind :=
  match nth_error (rev (split "/" p)) 2 with
  | None => Raise IndexError
  | Some dir =>
      match kind_singular dir with
      | Some k => Ok k
      | None => Raise (KeyError (KStr dir))
      end
  end.

Definition resource_has_image (k : kind) : bool :=
  match k with
  | entity | flow | function | library | service | skill | software
  | executor => true
  | application | helper | builder => false
  end.

(** [init_state]: every channel starts from the same default record. *)
Definition default_state : pyval :=
  PDict [ (KStr "mrv", PStr EmptyString); (KStr "exists", PBool false);
          (KStr "fresh", PBool false); (KStr "build", PBool true) ].

Definition init_state (tags : list string) : dict :=
  fold_left (fun st tag => dset (KStr tag) default_state st) tags [].

Definition images_by_tags (k : kind) (n v : string) (tags : list string) : dict :=
  if resource_has_image k then
    fold_left
      (fun images tag =>
         dset (KStr tag)
           (PStr ("images.foundation.svc.{{ machine_platform_name }}/"
                    ++ replace "_" "-" (replace "__" "/" n) ++ ":" ++ v ++ "_" ++ tag)%string)
           images)
      tags []
  else [].

Definition require_metadata (field : string) (v : option pyval) : result pyval :=
  match v with
  | Some x => Ok x
  | None => Raise (KeyError (KStr field))
  end.

(** [glob.glob(path + "/files/*")[0].split('/')[-1].split('.')[-1]] and the
    language it stands for. *)
Definition function_language (role_files : list string) : result string :=
  match role_files with
  | [] => Raise IndexError
  | f :: _ =>
      let function_ext :=
        last (split "." (last (split "/" f) EmptyString)) EmptyString in
      Ok (if String.eqb function_ext "go" then "golang"
          else if String.eqb function_ext "scala" then "scala"
          else EmptyString)
  end.

Fixpoint assoc {A} (k : kind) (l : list (kind * A)) : option A :=
  match l with
  | [] => None
  | (k', a) :: l' => if kind_eq_dec k k' then Some a else assoc k l'
  end.

Fixpoint assoc_set {A} (k : kind) (a : A) (l : list (kind * A)) : list (kind * A) :=
  match l with
  | [] => [(k, a)]
  | (k', a') :: l' =>
      if kind_eq_dec k k' then (k', a) :: l' else (k', a') :: assoc_set k a l'
  end.

(** [require_names_by_kind]: the required names grouped by the kind of the
    required component. *)
Fixpoint group_requires (registered : list (pykey * resource))
    (requires_ : list string) (by_kind : list (kind * list string))
  : result (list (kind * list string)) :=
  match requires_ with
  | [] => Ok by_kind
  | require_name :: rest =>
      match dget (KStr require_name) registered with
      | None => Raise (KeyError (KStr require_name))
      | Some require =>
          let names :=
            match assoc (mrk require) by_kind with
            | Some l => l
            | None => []
            end in
          group_requires registered rest
            (assoc_set (mrk require) (names ++ [mrn require]) by_kind)
      end
  end.

Definition firsts (by_kind : list (kind * list string)) : list (kind * string) :=
  flat_map (fun kl => match snd kl with
                      | n :: _ => [(fst kl, n)]
                      | [] => []
                      end) by_kind.

Definition lookup_var (v : list (string * string)) (k : string) : result string :=
  match find (fun kv => String.eqb (fst kv) k) v with
  | Some kv => Ok (snd kv)
  | None => Raise (KeyError (KStr k))
  end.

Definition has_var (v : list (string * string)) (k : string) : bool :=
  existsb (fun kv => String.eqb (fst kv) k) v.

(** The replacements made in [flow_trigger] and [flow_output]. *)
Definition resolve_mrc (n c s : string) : string :=
  if str_in (n ++ ".mrc")%string s
  then replace " " EmptyString (replace (n ++ ".mrc")%string c (replace "}}" EmptyString (replace "{{" EmptyString s)))
  else s.

(** What the tasks of a flow set: [input], [trigger], [output] and
    [skill]. *)
Definition flow_fields : Type :=
  (option string * option string * option string * option flow_skill)%type.

Definition flow_task (registered : list (pykey * resource)) (n p c : string)
    (acc : flow_fields) (t : task) : result flow_fields :=
  match t with
  | None => Ok acc
  | Some v =>
      if has_var v "flow_output" then
        inp <- lookup_var v "flow_input" ;;
        let inp' :=
          if str_in ("{{ " ++ n ++ ".path }}")%string inp
          then replace ("{{ " ++ n ++ ".path }}")%string p inp else inp in
        trg <- lookup_var v "flow_trigger" ;;
        out <- lookup_var v "flow_output" ;;
        match snd acc with
        | None => Raise AttributeError
        | Some (SkillRecord _ _) => Raise TypeError
        | Some (SkillName s) =>
            match dget (KStr s) registered with
            | None => Raise (KeyError (KStr s))
            | Some sk =>
                Ok (Some inp', Some (resolve_mrc n c trg),
                    Some (resolve_mrc n c out),
                    Some (SkillRecord s (stage sk)))
            end
        end
      else Ok acc
  end.

Fixpoint flow_tasks (registered : list (pykey * resource)) (n p c : string)
    (acc : flow_fields) (ts : list task) : result flow_fields :=
  match ts with
  | [] => Ok acc
  | t :: rest =>
      acc' <- flow_task registered n p c acc t ;;
      flow_tasks registered n p c acc' rest
  end.

Definition add_namespace (ns : string) (l : list string) : list string :=
  if existsb (String.eqb ns) l then l else l ++ [ns].

(** [VarsModule.add_resource].  A failure aborts the whole construction
    ([get_vars] turns it into a [RuntimeError]), so the graph is returned
    only on success. *)
Fixpoint add_resource (r : role) (group_path : string) (g : graph) {struct r}
  : result graph :=
  match r with
  | Role resource_name role_path meta role_files tasks dependencies =>
      let resource_normalized_name := normalize_name resource_name in
      if dmem (KStr resource_normalized_name) (resources g) then Ok g
      else
        let md := metadata meta in
        k <- resource_kind_from_role_path role_path ;;
        let mrsn_ := replace "_" "-" (last (split "." resource_name) EmptyString) in
        let mrns_ := hd EmptyString (split "." resource_name) in
        let g1 := {| resources := resources g;
                     resource_namespaces :=
                       add_namespace mrns_ (resource_namespaces g) |} in
        let machine_mrsn := replace "-" "_" mrsn_ in
        let mrn_ := resource_normalized_name in
        author_ <- require_metadata "author" (meta_author md) ;;
        description_ <- require_metadata "description" (meta_description md) ;;
        let version_ :=
          match meta_version md with Some v => v | None => "unknown" end in
        let scope :=
          match meta_scope md with Some s => s | None => PStr "global" end in
        let mrc_ := (replace "/" "." group_path ++ "." ++ mrsn_)%string in
        let tags :=
          match meta_tags md with
          | Some t => PList (map PStr t)
          | None => PDict []
          end in
        let mrt_ :=
          match meta_tags md with Some t => t | None => ["default"] end in
        language_ <-
          (match k with
           | function => l <- function_language role_files ;; Ok (Some l)
           | _ => Ok None
           end) ;;
        let child_path :=
          match k with
          | executor => group_path
          | _ => (group_path ++ "/" ++ mrsn_)%string
          end in
        g2 <-
          (fix add_all (ds : list role) (g : graph) {struct ds} : result graph :=
             match ds with
             | [] => Ok g
             | d :: ds' => g' <- add_resource d child_path g ;; add_all ds' g'
             end) dependencies g1 ;;
        let requires_ := map (fun d => normalize_name (get_name d)) dependencies in
        by_kind <- group_requires (resources g2) requires_ [] ;;
        ff <-
          (match k with
           | flow =>
               flow_tasks (resources g2) mrn_ role_path mrc_
                 (None, None, None,
                  option_map SkillName (assoc skill (firsts by_kind)))
                 tasks
           | _ =>
               Ok (None, None, None,
                   option_map SkillName (assoc skill (firsts by_kind)))
           end) ;;
        let res :=
          {| mrn := mrn_;
             mrsn := mrsn_;
             mrns := mrns_;
             name := resource_normalized_name;
             public_uri :=
               (mrsn_ ++ ".{{ machine_domain_name }}.{{ machine_domain_ext }}")%string;
             schema := (role_path ++ "/files/" ++ machine_mrsn ++ ".proto")%string;
             author := author_;
             description := description_;
             password := password_template machine_mrsn;
             path := role_path;
             labels := meta_labels md;
             mrv := version_;
             version := version_;
             mrs := scope;
             mrk := k;
             mrl := (kind_scheme k ++ "://" ++ group_path ++ "/" ++ mrsn_)%string;
             mrc := mrc_;
             nodeselector :=
               (hd EmptyString (split "/" group_path) ++ ": " ++ dquote
                  ++ "true" ++ dquote)%string;
             mrt := mrt_;
             state := init_state mrt_;
             languages := match k with library => Some tags | _ => None end;
             language := language_;
             requires := requires_;
             requiredby := [];
             mri := images_by_tags k mrn_ version_ mrt_;
             plural := by_kind;
             singular := firsts by_kind;
             stage := meta_stage md;
             input := fst (fst (fst ff));
             trigger := snd (fst (fst ff));
             output := snd (fst ff);
             flow_skill_of := snd ff |} in
        Ok {| resources := dset (KStr resource_normalized_name) res (resources g2);
              resource_namespaces := resource_namespaces g2 |}
  end.

(** A play: its name and its roles. *)
Definition play : Type := (string * list role)%type.

Fixpoint add_roles (play_name : string) (roles : list role) (g : graph)
  : result graph :=
  match roles with
  | [] => Ok g
  | r :: rest => g' <- add_resource r play_name g ;; add_roles play_name rest g'
  end.

(** [VarsModule.build_resources] *)
Fixpoint build_resources (plays : list play) (g : graph) : result graph :=
  match plays with
  | [] => Ok g
  | p :: rest => g' <- add_roles (fst p) (snd p) g ;; build_resources rest g'
  end.

(** [dep_resource.requiredby.append(resource_name)] *)
Definition append_requiredby (rs : list (pykey * resource))
    (resource_name : pykey) (dep_name : string)
  : result (list (pykey * resource)) :=
  match dget (KStr dep_name) rs with
  | None => Raise (KeyError (KStr dep_name))
  | Some dep_resource =>
      Ok (dset (KStr dep_name)
            (with_requiredby dep_resource
               (requiredby dep_resource ++
                  [match resource_name with
                   | KStr s => s
                   | _ => EmptyString
                   end]))
            rs)
  end.

Fixpoint append_all (rs : list (pykey * resource)) (resource_name : pykey)
    (deps : list string) : result (list (pykey * resource)) :=
  match deps with
  | [] => Ok rs
  | dep_name :: rest =>
      rs' <- append_requiredby rs resource_name dep_name ;;
      append_all rs' resource_name rest
  end.

Fixpoint inverse_edges (rs : list (pykey * resource)) (names : list pykey)
  : result (list (pykey * resource)) :=
  match names with
  | [] => Ok rs
  | resource_name :: rest =>
      match dget resource_name rs with
      | None => Raise (KeyError resource_name)
      | Some res =>
          rs' <- append_all rs resource_name (requires res) ;;
          inverse_edges rs' rest
      end
  end.

(** [VarsModule.process_resources_dependencies] *)
Definition process_resources_dependencies (rs : list (pykey * resource))
  : result (list (pykey * resource)) :=
  inverse_edges rs (dkeys rs).

(** [VarsModule.populate], up to the two bookkeeping entries
    [machine_resources] and [machine_resource_namespaces] it adds last. *)
Definition populate (plays : list play) : result (list (pykey * resource)) :=
  g <- build_resources plays empty_graph ;;
  process_resources_dependencies (resources g).

(** The loop [for r in dependencies: self.add_resource(r, ...)] of
    [add_resource], on its own. *)
Definition add_dependencies (child_path : string)
  : list role -> graph -> result graph :=
  fix add_all (ds : list role) (g : graph) {struct ds} : result graph :=
    match ds with
    | [] => Ok g
    | d :: ds' => g' <- add_resource d child_path g ;; add_all ds' g'
    end.

(** [[self.normalize_name(r.get_name()) for r in dependencies]] *)
Definition requires_of (ds : list role) : list string :=
  map (fun d => normalize_name (get_name d)) ds.

(** The name under which a component is registered. *)
Definition key_name (k : pykey) : string :=
  match k with
  | KStr s => s
  | _ => EmptyString
  end.

(** The graph as the first pass leaves it: every component is registered
    under its [mrn], all its dependencies are registered, no inverse edge
    is there yet. *)
Definition well_built (rs : list (pykey * resource)) : Prop :=
  forall k r, dget k rs = Some r ->
    k = KStr (mrn r) /\
    requiredby r = [] /\
    forall d, In d (requires r) -> dmem (KStr d) rs = true.

(** [rs'] is [rs] with inverse edges added: the same components, and each
    [requiredby] list extended with the names [a] such that [added a k]. *)
Definition edges_added (rs rs' : list (pykey * resource))
    (added : string -> pykey -> Prop) : Prop :=
  forall k,
    match dget k rs, dget k rs' with
    | Some r, Some r' =>
        mrn r' = mrn r /\ requires r' = requires r /\
        forall a, In a (requiredby r') <-> In a (requiredby r) \/ added a k
    | None, None => True
    | _, _ => False
    end.

(** Example roles: a service, an application that depends on it, and an
    application whose metadata file is missing. *)
Definition described (v : string) : meta_file :=
  MetaPlasma
    {| meta_author := Some (PStr "platform team");
       meta_description := Some (PStr "a component");
       meta_labels := None; meta_version := Some v; meta_scope := None;
       meta_tags := None; meta_stage := None |}.

Definition role_db : role :=
  Role "data.db" "collections/data/services/roles/db" (described "1") [] [] [].

Definition role_api : role :=
  Role "core.api-gw" "collections/core/applications/roles/api-gw"
    (described "2") [] [] [role_db].

Definition role_ui : role :=
  Role "core.ui" "collections/core/applications/roles/ui" MetaMissing [] [] [].

Definition example_plays : list play := [("platform", [role_api; role_db])].

(** The graph of [example_plays] after the first pass. *)
Definition example_built : graph :=
  Eval vm_compute in
    match build_resources example_plays empty_graph with
    | Ok g => g
    | Raise _ => empty_graph
    end.

End Platform.

(* ===================================================================== *)
(** ** Notions used to state the properties *)
(* ===================================================================== *)

(** [states[mrn]["state"][channel]] read from one component record. *)
Definition state_at (channel : pykey) (comp : dict) : option pyval :=
  match dget (KStr "state") comp with
  | Some (PDict st) => dget channel st
  | _ => None
  end.

(** The merged observation map has the component key and, under it, the
    channel. *)
Definition channel_observed (merged_data : dict) (mrn : pykey) (tag : pyval)
  : bool :=
  match dget mrn merged_data, py_hash tag with
  | Some (PDict entry), Ok k => dmem k entry
  | _, _ => false
  end.

(** The channels a component record declares: what [for tag in comp["mrt"]]
    runs over. *)
Definition declared (comp : dict) : result (list pyval) :=
  t <- py_getitem (PDict comp) "mrt" ;; py_iter t.

(** The entry of the state table for a component: the record registered by
    its processing, if any. *)
Definition entry_of (merged_data : dict) (mrn : pykey) (comp : pyval)
  : option pyval :=
  option_map PDict (fst (process_component merged_data mrn comp)).

(** The exception raised while a component is processed, if any. *)
Definition raised_by (merged_data : dict) (mrn : pykey) (comp : pyval)
  : option exc :=
  snd (process_component merged_data mrn comp).

(** Example data: a service that declares version 7 on the default
    channel. *)
Definition svc_a : pyval :=
  PDict [ (KStr "mrn", PStr "svc_a"); (KStr "mrsn", PStr "svc-a");
          (KStr "mrv", PStr "7"); (KStr "mrt", PList [PStr "default"]) ].

Definition graph_a : dict := [(KStr "svc_a", svc_a)].

(** Observations that do not mention [svc_a]. *)
Definition other_observed : dict :=
  [(KStr "other", PDict [(KStr "default", PList [PStr "1"])])].

(** Observations of [svc_a] on the default channel. *)
Definition svc_a_observed : dict :=
  [(KStr "svc_a", PDict [(KStr "default", PList [PStr "6"; PStr "7"])])].

(** A malformed observation of [svc_a]: a list where a dictionary of
    channels is expected. *)
Definition svc_a_malformed : dict :=
  [(KStr "svc_a", PList [PStr "7"])].

(** The record of a channel is reconciled with the merged observations:
    it carries the observed ids and the three flags computed from them. *)
Definition reconciled (merged_data : dict) (mrn : pykey) (mrv : pyval)
    (channel : pykey) (comp : dict) : Prop :=
  exists record fresh,
    state_at channel comp = Some (PDict record) /\
    dget (KStr "mrv") record = Some (observed_ids merged_data mrn channel) /\
    dget (KStr "exists") record
      = Some (PBool (is_not_None (observed_ids merged_data mrn channel))) /\
    py_contains mrv (observed_ids merged_data mrn channel) = Ok fresh /\
    dget (KStr "fresh") record = Some (PBool fresh) /\
    dget (KStr "build") record = Some (PBool (negb fresh)).

(** [svc_a] after reconciliation with [svc_a_observed]. *)
Definition svc_a_reconciled : dict :=
  Eval vm_compute in
    match fst (process_component svc_a_observed (KStr "svc_a") svc_a) with
    | Some out => out
    | None => []
    end.

(** The entry a source holds for a key; a source that returned [None]
    holds nothing. *)
Definition source_entry (data : option dict) (k : pykey) : option pyval :=
  match data with
  | Some d => dget k d
  | None => None
  end.

Definition well_keyed (data : option dict) : Prop :=
  match data with
  | Some d => NoDup (dkeys d)
  | None => True
  end.

(** Component [X] seen on the default channel by the host environment and
    on the canary channel by the cluster. *)
Definition os_x : dict := [(KStr "X", PDict [(KStr "default", PList [PStr "v1"])])].
Definition cluster_x : dict := [(KStr "X", PDict [(KStr "canary", PList [PStr "v2"])])].

(** A catalog page that links to a next page. *)
Definition linked_page (p : string * list string) : command_outcome :=
  Responded (Next (fst p)) (Catalog (snd p)).



Definition example_tags : list string :=
  ["abc123_default-cur"; "def456_default"; "xyz789_canary-cur"].


(** The times of six successive passes. *)
Definition six_passes : list Z := [1; 2; 3; 4; 5; 6]%Z.

(** *** The tag encoding, as the registry parser reads it *)

(** A tag is taken when it has an underscore and no doubled underscore. *)
Definition accepted (tag : string) : bool :=
  str_in "_" tag && negb (str_in "__" tag).

(** The build id of a tag: what precedes its first underscore. *)
Definition tag_id (tag : string) : string :=
  nth 0 (split "_" tag) EmptyString.

(** The channel of a tag: its second piece between underscores, without
    the marker. *)
Definition tag_channel (tag : string) : string :=
  replace "-cur" EmptyString (nth 1 (split "_" tag) EmptyString).

(** The build ids of a channel, in the order of the tags. *)
Definition ids_of (channel : string) (tags : list string) : list string :=
  map tag_id
    (filter (fun t => accepted t && String.eqb (tag_channel t) channel) tags).

(** The build id of the last accepted tag that contains ["cur"]. *)
Fixpoint last_marked (tags : list string) : option string :=
  match tags with
  | [] => None
  | t :: rest =>
      match last_marked rest with
      | Some p => Some p
      | None => if accepted t && str_in "cur" t then Some (tag_id t) else None
      end
  end.

(** What the parsed dictionary holds under a key. *)
Definition expected_entry (tags : list string) (key : string) : option pyval :=
  if existsb (str_in "cur") tags then
    if String.eqb key "current_version"
    then option_map PStr (last_marked tags)
    else match ids_of key tags with
         | [] => None
         | ids => Some (PList (map PStr ids))
         end
  else None.

(** The reading of a parsed dictionary per channel, as [state_helper]
    makes it: the ids of the channel and the current version. *)
Definition channel_ids (d : dict) (channel : string) : option pyval :=
  dget (KStr channel) d.

Definition channel_current (d : dict) (channel : string) : pyval :=
  dget_default (KStr "current_version") d (dget_default (KStr channel) d PNone).

(** Three lines of the local image lister, one per tag of the example. *)
Definition example_crictl : string :=
  ("images.local/platform/api abc123_default-cur 0123456789abc 10MB"
     ++ String newline
     "images.local/platform/api def456_default 0123456789abd 10MB"
     ++ String newline
     "images.local/platform/api xyz789_canary-cur 0123456789abe 10MB")%string.

Fixpoint mem_char (c : ascii) (s : string) : bool :=
  match s with
  | EmptyString => false
  | String a s' => Ascii.eqb a c || mem_char c s'
  end.

(** The values under the channel keys are lists. *)
Definition channels_are_lists (d : dict) : Prop :=
  forall s, s <> "current_version" ->
    match dget (KStr s) d with
    | Some (PList _) | None => True
    | Some _ => False
    end.

Definition ids_at (d : dict) (channel : string) : list pyval :=
  match dget (KStr channel) d with
  | Some (PList l) => l
  | _ => []
  end.

(** The [state] of a component record is a dictionary, if there is one. *)
Definition state_is_dictionary (comp : dict) : Prop :=
  match dget (KStr "state") comp with
  | None | Some (PDict _) => True
  | Some _ => False
  end.

(** The observation of a component, if any, is a dictionary that holds
    lists under the given channels. *)
Definition entry_holds_lists (cs : dict) (mrn : pykey) (tags : list string) : Prop :=
  match dget mrn cs with
  | None => True
  | Some (PDict entry) =>
      forall tag, In tag tags ->
        match dget (KStr tag) entry with
        | None | Some (PList _) => True
        | Some _ => False
        end
  | Some _ => False
  end.

(** A component record and its observation in the shape the graph builder
    and the fetchers give them: a version, channels that are strings, a
    short name that is a string, a [state] dictionary if any, and observed
    values that are lists. *)
Definition well_shaped (merged_data : dict) (mrn : pykey) (comp : dict) : Prop :=
  (exists mrv, dget (KStr "mrv") comp = Some mrv) /\
  (exists tags, dget (KStr "mrt") comp = Some (PList (map PStr tags)) /\
     entry_holds_lists merged_data mrn tags) /\
  (exists mrsn, dget (KStr "mrsn") comp = Some (PStr mrsn)) /\
  state_is_dictionary comp.

(** *** The tag encoding, as the parser of the local image cache reads it *)

(** What precedes the first occurrence of a character, and what follows
    it. *)
Fixpoint before_first (c : ascii) (s : string) : string :=
  match s with
  | EmptyString => EmptyString
  | String a s' =>
      if Ascii.eqb a c then EmptyString else String a (before_first c s')
  end.

Fixpoint after_first (c : ascii) (s : string) : string :=
  match s with
  | EmptyString => EmptyString
  | String a s' => if Ascii.eqb a c then s' else after_first c s'
  end.

(** The name under which an image is recorded: the pieces of its path
    other than the registry, joined by doubled underscores, every dash
    turned into an underscore. *)
Definition local_name (uri image : string) : string :=
  replace "-" "_"
    (join "__"
       (filter (fun part => negb (String.eqb part uri)) (split "/" image))).

(** The reading of a line of the listing: the name of the image, the
    channel and the build id.  A line is read when it has two columns at
    least and its tag, the second column, contains ["cur"] and is
    accepted; the build id is what precedes the first underscore of the
    tag, the channel what follows it, without the marker. *)
Definition local_reading (uri line : string)
  : option (string * string * string) :=
  match words line with
  | image :: tag :: _ =>
      if str_in "cur" tag && accepted tag
      then Some (local_name uri image,
                 replace "-cur" EmptyString (after_first "_" tag),
                 before_first "_" tag)
      else None
  | _ => None
  end.

(** The lines that are read: all the lines of the stripped listing but
    the last one. *)
Definition lines_read (stdout : string) : list string :=
  firstn (List.length (split newline (strip stdout)) - 1)
    (split newline (strip stdout)).

(** The build id of the last line, among the given ones, that is read for
    the image and the channel. *)
Fixpoint local_id (uri : string) (lines : list string)
    (image channel : string) : option string :=
  match lines with
  | [] => None
  | line :: rest =>
      match local_id uri rest image channel with
      | Some id => Some id
      | None =>
          match local_reading uri line with
          | Some (m, c, id) =>
              if String.eqb m image && String.eqb c channel
              then Some id else None
          | None => None
          end
      end
  end.

(** What a parsed listing holds for an image and a channel. *)
Definition local_entry (d : dict) (image channel : string) : option pyval :=
  match dget (KStr image) d with
  | Some (PDict e) => dget (KStr channel) e
  | _ => None
  end.

(** A service on two channels, and an observation of it whose canary
    channel holds a number where a list of ids is expected: the default
    channel is processed, then the canary channel fails. *)
Definition svc_c : pyval :=
  PDict [ (KStr "mrn", PStr "svc_c"); (KStr "mrsn", PStr "svc-c");
          (KStr "mrv", PStr "7");
          (KStr "mrt", PList [PStr "default"; PStr "canary"]) ].

Definition graph_c : dict := [(KStr "svc_c", svc_c)].

Definition svc_c_observed : dict :=
  [(KStr "svc_c",
    PDict [ (KStr "default", PList [PStr "6"; PStr "7"]);
            (KStr "canary", PInt 5) ])].
(* ===================================================================== *)
(** ** state_management_components.py: the host-environment fetcher *)
(* ===================================================================== *)

(** [str.lower()] on ASCII text. *)
Definition lower_char (c : ascii) : ascii :=
  let n := nat_of_ascii c in
  if (65 <=? n)%nat && (n <=? 90)%nat then ascii_of_nat (n + 32) else c.

Fixpoint lower (s : string) : string :=
  match s with
  | EmptyString => EmptyString
  | String c s' => String (lower_char c) (lower s')
  end.

(** The body of [for line in lines] of [get_env_vars_with_mrv]; [None]
    stands for the [ValueError] of [key, value = line.strip().split("=")]
    when the line does not split in two. *)
Definition env_line (default_tag : string) (data : dict) (line : string)
  : option dict :=
  match split "=" (strip line) with
  | [key; value] =>
      Some (dset (KStr (lower (replace "_MRV" EmptyString key)))
              (PDict [(KStr default_tag, PList [PStr value])]) data)
  | _ => None
  end.

Fixpoint env_lines (default_tag : string) (data : dict) (lines : list string)
  : option dict :=
  match lines with
  | [] => Some data
  | line :: rest =>
      match env_line default_tag data line with
      | Some data' => env_lines default_tag data' rest
      | None => None
      end
  end.

(** [OSVersionFetcher.get_env_vars_with_mrv], given the text [result] that
    [env] prints. *)
Definition get_env_vars_with_mrv (result : string) (default_tag : string)
  : option dict :=
  env_lines default_tag []
    (filter (str_in "MRV") (split newline result)).

(* ===================================================================== *)
(** ** machine_filters.py: the filters that read the graph and the state *)
(* ===================================================================== *)

(** The truth value of a Python value. *)
Definition py_truthy (v : pyval) : bool :=
  match v with
  | PNone => false
  | PBool b => b
  | PInt z => negb (Z.eqb z 0)
  | PStr s => negb (String.eqb s EmptyString)
  | PList l => match l with [] => false | _ => true end
  | PDict d => match d with [] => false | _ => true end
  end.

(** [seq[i]] for an integer index, counted from the end when negative. *)
Definition seq_index {A} (l : list A) (z : Z) : option A :=
  let n := Z.of_nat (List.length l) in
  let i := if (z <? 0)%Z then (z + n)%Z else z in
  if (i <? 0)%Z || (n <=? i)%Z then None else nth_error l (Z.to_nat i).

(** [c[k]] *)
Definition py_subscript (c k : pyval) : result pyval :=
  match c with
  | PDict d =>
      key <- py_hash k ;;
      match dget key d with
      | Some v => Ok v
      | None => Raise (KeyError key)
      end
  | PList l =>
      match k with
      | PInt z =>
          match seq_index l z with Some v => Ok v | None => Raise IndexError end
      | PBool b =>
          match seq_index l (Z.b2z b) with
          | Some v => Ok v
          | None => Raise IndexError
          end
      | _ => Raise TypeError
      end
  | PStr s =>
      match k with
      | PInt z =>
          match seq_index (chars s) z with
          | Some v => Ok v
          | None => Raise IndexError
          end
      | PBool b =>
          match seq_index (chars s) (Z.b2z b) with
          | Some v => Ok v
          | None => Raise IndexError
          end
      | _ => Raise TypeError
      end
  | PNone | PBool _ | PInt _ => Raise TypeError
  end.

(** [machine_state(resource, tag)], as [machine_exists], [machine_build]
    and [machine_built] call it: without [current_version], it reads
    [resource['state'][tag]] and gives [None] when there is none. *)
Definition machine_state (resource : dict) (tag : pyval) : result pyval :=
  if negb (dmem (KStr "state") resource) then Ok PNone
  else
    st <- py_getitem (PDict resource) "state" ;;
    present <- py_contains tag st ;;
    if negb present then Ok PNone else py_subscript st tag.

(** [machine_exists(resource, tag)] *)
Definition machine_exists (resource : dict) (tag : pyval) : result pyval :=
  state <- machine_state resource tag ;;
  present <- py_contains (PStr "exists") state ;;
  if present then py_subscript state (PStr "exists") else Ok PNone.

(** [machine_build(resource, tag)] *)
Definition machine_build (resource : dict) (tag : pyval) : result pyval :=
  state <- machine_state resource tag ;;
  present <- py_contains (PStr "build") state ;;
  if present then py_subscript state (PStr "build") else Ok PNone.

(** [machine_built(resource, tag, deployment)] *)
Definition machine_built (resource : dict) (tag deployment : pyval)
  : result pyval :=
  if py_eqb deployment (PStr "current") then
    s1 <- machine_state resource tag ;;
    build <- py_subscript s1 (PStr "build") ;;
    if py_truthy build then Ok (PBool false)
    else
      s2 <- machine_state resource tag ;;
      fresh <- py_subscript s2 (PStr "fresh") ;;
      Ok (PBool (negb (py_truthy fresh)))
  else if negb (is_not_None deployment) || py_eqb deployment (PStr "any") then
    s <- machine_state resource tag ;;
    build <- py_subscript s (PStr "build") ;;
    Ok (PBool (negb (py_truthy build)))
  else Ok PNone.

(** [unique(items)]: [u] is the list built so far. *)
Fixpoint unique_from (u items : list pyval) : list pyval :=
  match items with
  | [] => u
  | item :: rest =>
      if existsb (py_eqb item) u then unique_from u rest
      else unique_from (u ++ [item]) rest
  end.

Definition unique (items : list pyval) : list pyval := unique_from [] items.

(** [machine_image_uri(mri)]: [':'.join(mri.split(':')[0:-1])] *)
Definition machine_image_uri (mri : string) : string :=
  join ":" (removelast (split ":" mri)).

(** [machine_image_tag(mri)]: [mri.split(':')[-1]] *)
Definition machine_image_tag (mri : string) : string :=
  last (split ":" mri) EmptyString.

(** [machine_image_path(mri)]:
    ['/'.join(mri.split('/')[1:]).split(':')[:1][0]] *)
Definition machine_image_path (mri : string) : string :=
  hd EmptyString (split ":" (join "/" (tl (split "/" mri)))).

(** [machine_machine_name(resource)]: [resource['mrsn'].replace('-', '')] *)
Definition machine_machine_name (resource : dict) : result string :=
  m <- py_getitem (PDict resource) "mrsn" ;; py_replace m "-" EmptyString.

(* ===================================================================== *)
(** ** platform_components.py: the included roles of a task file *)
(* ===================================================================== *)

(** [regObj.match(line)] for the pattern [^\s*include_role:.*]. *)
Definition is_include_role (line : string) : bool :=
  String.prefix "include_role:" (lstrip line).

(** The loop of [findIncludes] over the lines of a file: [found] tells
    whether the line before was an [include_role] line. *)
Fixpoint findIncludes_from (found : bool) (res : list string)
    (lines : list string) : list string :=
  match lines with
  | [] => res
  | line :: rest =>
      let res' :=
        if found then
          let name := strip (replace "name:" EmptyString line) in
          if existsb (String.eqb name) res then res else res ++ [name]
        else res in
      findIncludes_from (is_include_role line) res' rest
  end.

Definition findIncludes (lines : list string) : list string :=
  findIncludes_from false [] lines.

(** The name read on the line that follows an [include_role] line. *)
Definition included_name (line : string) : string :=
  strip (replace "name:" EmptyString line).

(** The image reference [images_by_tags] composes for a channel. *)
Definition image_reference (n v tag : string) : string :=
  ("images.foundation.svc.{{ machine_platform_name }}/"
     ++ replace "_" "-" (replace "__" "/" n) ++ ":" ++ v ++ "_" ++ tag)%string.

(** A task file that includes two roles, one of them twice. *)
Definition example_task_lines : list string :=
  [ "- name: deploy the gateway";
    "  include_role:";
    "    name: core.api-gw";
    "- include_role:";
    "    name: data.db";
    "- include_role:";
    "    name: core.api-gw" ].

(* ===================================================================== *)
(** ** Further notions used to state properties *)
(* ===================================================================== *)

(** A source that reports nothing: [None] or the empty dictionary. *)
Definition reports_nothing (data : option dict) : Prop :=
  data = None \/ data = Some [].

(** The value [state_helper] records as [mrv_cur] for a channel: with an
    observation of the channel, its [current_version] entry or else the
    observed value; without one, [None]. *)
Definition observed_current (merged_data : dict) (mrn channel : pykey) : pyval :=
  match dget mrn merged_data with
  | Some (PDict entry) =>
      if dmem channel entry
      then dget_default (KStr "current_version") entry
             (dget_default channel entry PNone)
      else PNone
  | _ => PNone
  end.

(** No element equals, in Python's sense, an element before it. *)
Fixpoint first_occurrences (l : list pyval) : Prop :=
  match l with
  | [] => True
  | x :: rest =>
      (forall y, In y rest -> py_eqb y x = false) /\ first_occurrences rest
  end.

(** Every channel of every image holds exactly one build id. *)
Definition one_id_per_channel (d : dict) : Prop :=
  forall image entry, dget image d = Some entry ->
    exists e, entry = PDict e /\
      forall channel v, dget channel e = Some v ->
        exists id, v = PList [PStr id].

(** Every entry is a dictionary. *)
Definition entries_are_dictionaries (d : dict) : Prop :=
  forall k v, dget k d = Some v -> exists e, v = PDict e.

(** The answer of the registry to a tag-list request. *)
Definition tag_list_answer (a : string * option (list string)) : command_outcome :=
  Responded NoLink (TagList (fst a) (snd a)).

Definition tags_or_none (t : option (list string)) : list string :=
  match t with
  | Some l => l
  | None => []
  end.

(** The files kept are at least as recent as the files removed. *)
Definition older_or_equal (removed kept : list snapshot) : Prop :=
  forall f g, In f removed -> In g kept -> (ctime f <= ctime g)%Z.

(** Example data. *)
Definition example_env : string :=
  ("HOME=/root" ++ String newline "SVC_A_MRV=7" ++ String newline
     "PATH=/usr/bin:/bin" ++ String newline "DATA_DB_MRV=1.2")%string.

Definition two_repositories : list (string * option (list string)) :=
  [ ("platform/api", Some example_tags); ("data/db-main", None) ].

Definition local_images : dict :=
  [ (KStr "platform__api",
      PDict [ (KStr "default", PList [PStr "old"]);
              (KStr "edge", PList [PStr "e1"]) ]) ].

Definition registry_images : dict :=
  [ (KStr "platform__api", PDict [(KStr "default", PList [PStr "abc123"])]);
    (KStr "data__db", PDict [(KStr "default", PList [PStr "xyz"])]) ].

Definition some_snapshots : list snapshot :=
  [ {| stamp := 5; ctime := 6; content := [] |};
    {| stamp := 1; ctime := 2; content := [] |};
    {| stamp := 3; ctime := 4; content := [] |};
    {| stamp := 7; ctime := 8; content := [] |};
    {| stamp := 2; ctime := 3; content := [] |} ]%Z.

(** A component that already carries the record of a channel it no longer
    declares. *)
Definition svc_b : dict :=
  [ (KStr "mrn", PStr "svc_b"); (KStr "mrsn", PStr "svc-b");
    (KStr "mrv", PStr "2"); (KStr "mrt", PList [PStr "default"]);
    (KStr "state",
      PDict [(KStr "canary",
               PDict [ (KStr "mrv", PStr ""); (KStr "exists", PBool false);
                       (KStr "fresh", PBool false); (KStr "build", PBool true) ])]) ].

(** Every entry is the given channel alone, with a one-element list. *)
Definition single_channel (tag : string) (d : dict) : Prop :=
  forall k v, dget k d = Some v ->
    exists value, v = PDict [(KStr tag, PList [PStr value])].


(** A component gets an entry in the state table. *)
Definition is_registered (merged_data : dict) (item : pykey * pyval) : bool :=
  match entry_of merged_data (fst item) (snd item) with
  | Some _ => true
  | None => false
  end.

(** The record of a channel carries the current version read from the
    merged observations. *)
Definition current_recorded (merged_data : dict) (mrn channel : pykey)
    (comp : dict) : Prop :=
  exists record,
    state_at channel comp = Some (PDict record) /\
    dget (KStr "mrv_cur") record
    = Some (observed_current merged_data mrn channel).

(** Observations of [svc_a] by the registry: two builds, one marked
    current. *)
Definition svc_a_in_registry : dict :=
  [(KStr "svc_a",
    PDict [ (KStr "default", PList [PStr "6"; PStr "7"]);
            (KStr "current_version", PStr "6") ])].

(** A graph with a component that lacks its version. *)
Definition graph_with_gap : dict :=
  [ (KStr "broken", PDict [(KStr "mrt", PList [PStr "default"])]);
    (KStr "svc_a", svc_a) ].

(** A resource holds no record for a channel: it has no [state], or its
    [state] is a dictionary without the channel. *)
Definition no_record (channel : pykey) (resource : dict) : Prop :=
  dget (KStr "state") resource = None \/
  exists st, dget (KStr "state") resource = Some (PDict st) /\
             dget channel st = None.

(** Some element of the list equals the value, in Python's sense. *)
Definition py_in (x : pyval) (l : list pyval) : Prop :=
  existsb (py_eqb x) l = true.

(* ===================================================================== *)
(** ** machine_filters.py: the lookups through the graph *)
(* ===================================================================== *)

(** The value of [mrk]: the name of the kind, a value of
    [kind_singular]. *)
Definition kind_name (k : Platform.kind) : string :=
  match k with
  | Platform.application => "application"
  | Platform.service => "service"
  | Platform.flow => "flow"
  | Platform.executor => "executor"
  | Platform.skill => "skill"
  | Platform.helper => "helper"
  | Platform.builder => "builder"
  | Platform.library => "library"
  | Platform.entity => "entity"
  | Platform.software => "software"
  | Platform.function => "function"
  end.

(** The variables of a host, as far as the lookups read them: the
    components of the graph under their names. *)
Definition host_variables : Type := list (pykey * Platform.resource).

(** [hostvars[list(hostvars)[0]]] *)
Definition first_host (hostvars : list (string * host_variables))
  : result host_variables :=
  match hostvars with
  | [] => Raise IndexError
  | (_, variables) :: _ => Ok variables
  end.

(** The loop of [machine_requires_lookup] and [machine_requiredby_lookup]
    over the names; [resources] is the list built so far. *)
Fixpoint lookup_from (hostvars : list (string * host_variables))
    (kind : string) (names : list string)
    (resources : list Platform.resource) : result (list Platform.resource) :=
  match names with
  | [] => Ok resources
  | dependency_name :: rest =>
      variables <- first_host hostvars ;;
      match dget (KStr (replace "-" "_" dependency_name)) variables with
      | None => Raise (KeyError (KStr (replace "-" "_" dependency_name)))
      | Some dependency_resource =>
          lookup_from hostvars kind rest
            (if String.eqb (kind_name (Platform.mrk dependency_resource)) kind
             then resources ++ [dependency_resource]
             else resources)
      end
  end.

(** [machine_requires_lookup(resource, hostvars, kind)] *)
Definition machine_requires_lookup (resource : Platform.resource)
    (hostvars : list (string * host_variables)) (kind : string)
  : result (list Platform.resource) :=
  lookup_from hostvars kind (Platform.requires resource) [].

(** [machine_requiredby_lookup(resource, hostvars, kind)] *)
Definition machine_requiredby_lookup (resource : Platform.resource)
    (hostvars : list (string * host_variables)) (kind : string)
  : result (list Platform.resource) :=
  lookup_from hostvars kind (Platform.requiredby resource) [].

(** [machine_requires_one(resource, hostvars, kind)]: the first resource
    found, [None] when there is none. *)
Definition machine_requires_one (resource : Platform.resource)
    (hostvars : list (string * host_variables)) (kind : string)
  : result (option Platform.resource) :=
  resources <- machine_requires_lookup resource hostvars kind ;;
  Ok (match resources with
      | first :: _ => Some first
      | [] => None
      end).

(** The components of the graph registered under the names, in the order
    of the names. *)
Definition resolved (g : host_variables) (names : list string)
  : list Platform.resource :=
  flat_map (fun d => match dget (KStr d) g with
                     | Some x => [x]
                     | None => []
                     end) names.

Definition of_kind (kind : string) (r : Platform.resource) : bool :=
  String.eqb (kind_name (Platform.mrk r)) kind.

(** Neither the name of a component nor a name it requires holds a dash. *)
Definition names_clean (rs : host_variables) : Prop :=
  forall k r, dget k rs = Some r ->
    mem_char "-" (Platform.mrn r) = false /\
    forall d, In d (Platform.requires r) -> mem_char "-" d = false.

(** What a call of [add_resource] keeps of the names. *)
Definition keeps_names_clean (r : Platform.role) : Prop :=
  forall gp g g',
    Platform.add_resource r gp g = Ok g' ->
    names_clean (Platform.resources g) -> names_clean (Platform.resources g').

(** The finished graph of the example plays. *)
Definition example_graph : host_variables :=
  Eval vm_compute in
    match Platform.populate Platform.example_plays with
    | Ok g => g
    | Raise _ => []
    end.

(** The gateway of the example graph: it requires the database. *)
Definition example_gateway : option Platform.resource :=
  Eval vm_compute in dget (KStr "core__api_gw") example_graph.

(* ===================================================================== *)
(** ** machine_filters.py: merging dictionaries, recording a version *)
(* ===================================================================== *)

(** The value [merge_dicts] gives a key that only one side holds: a list
    loses its repetitions. *)
Definition merge_single (value : pyval) : pyval :=
  match value with
  | PList items => PList (unique items)
  | _ => value
  end.

(** The value [merge_dicts] gives a key of [right]; [merge] is
    [merge_dicts] itself, for a value that is a dictionary. *)
Definition merge_value (merge : pyval -> pyval -> result pyval)
    (left : dict) (key : pykey) (value : pyval) : result pyval :=
  match dget key left with
  | Some left_value =>
      match value with
      | PDict _ => merge left_value value
      | PList items =>
          match left_value with
          | PList left_items => Ok (PList (unique (items ++ left_items)))
          | _ => Raise TypeError
          end
      | _ => Ok value
      end
  | None => Ok (merge_single value)
  end.

(** The loop [for key, value in dicts.items()] of [merge_dicts]; [values]
    holds, for the keys of [right], the value the body computes. *)
Fixpoint merge_loop (values : list (pykey * result pyval))
    (items : list (pykey * pyval)) (dicts : dict) : result dict :=
  match items with
  | [] => Ok dicts
  | (key, value) :: rest =>
      v <- match dget key values with
           | Some computed => computed
           | None => Ok (merge_single value)
           end ;;
      merge_loop values rest (dset key v dicts)
  end.

(** [merge_dicts(left, right)], for [right] a dictionary. *)
Fixpoint merge_dicts (left right : pyval) {struct right} : result pyval :=
  match right with
  | PDict r =>
      match left with
      | PDict l =>
          let dicts := dupdate l r in
          out <- merge_loop
                   (map (fun kv => (fst kv, merge_value merge_dicts l (fst kv) (snd kv))) r)
                   dicts dicts ;;
          Ok (PDict out)
      | _ => Raise TypeError
      end
  | _ => Raise TypeError
  end.

(** The version [machine_state] records from the registered result of a
    task: [None] for a skipped task or an empty or missing [stdout]. *)
Definition recorded_version (current_version : pyval) : result pyval :=
  has_skipped <- py_contains (PStr "skipped") current_version ;;
  skipped <- (if has_skipped
              then s <- py_subscript current_version (PStr "skipped") ;;
                   Ok (py_truthy s)
              else Ok false) ;;
  if skipped then Ok PNone
  else
    has_stdout <- py_contains (PStr "stdout") current_version ;;
    version <- (if has_stdout
                then py_subscript current_version (PStr "stdout")
                else Ok (PStr EmptyString)) ;;
    Ok (if py_eqb version (PStr EmptyString) then PNone else version).

(** The record [machine_state] builds for a version. *)
Definition version_record (version mrv : pyval) : dict :=
  [ (KStr "mrv", version);
    (KStr "exists", PBool (is_not_None version));
    (KStr "fresh", PBool (py_eqb version mrv));
    (KStr "build", PBool (negb (py_eqb version mrv))) ].

(** [machine_state(resource, tag, current_version)]: with a
    [current_version] that is true, the record of the version is merged
    into [resource['state']] and the resource is returned; without, the
    record of the channel is read.  The resource is changed in place: the
    first component is the resource afterwards. *)
Definition machine_state_with (resource : dict) (tag current_version : pyval)
  : dict * result pyval :=
  if py_truthy current_version then
    match recorded_version current_version with
    | Raise e => (resource, Raise e)
    | Ok version =>
        let resource1 :=
          if dmem (KStr "state") resource then resource
          else dset (KStr "state") (PDict []) resource in
        match (mrv <- py_getitem (PDict resource1) "mrv" ;;
               mrv' <- py_getitem (PDict resource1) "mrv" ;;
               k <- py_hash tag ;;
               left <- py_getitem (PDict resource1) "state" ;;
               merge_dicts left
                 (PDict [(k, PDict [ (KStr "mrv", version);
                                     (KStr "exists", PBool (is_not_None version));
                                     (KStr "fresh", PBool (py_eqb version mrv));
                                     (KStr "build", PBool (negb (py_eqb version mrv'))) ])]))
        with
        | Raise e => (resource1, Raise e)
        | Ok merged =>
            let resource2 := dset (KStr "state") merged resource1 in
            (resource2, Ok (PDict resource2))
        end
    end
  else (resource, machine_state resource tag).

(** Neither a list nor a dictionary. *)
Definition is_scalar (v : pyval) : bool :=
  match v with
  | PList _ | PDict _ => false
  | _ => true
  end.

(** The [state] of the resource, if any, is a dictionary, and what it
    holds for the channel, if anything, is a dictionary. *)
Definition state_can_take (channel : pykey) (resource : dict) : Prop :=
  dget (KStr "state") resource = None \/
  exists st, dget (KStr "state") resource = Some (PDict st) /\
    (dget channel st = None \/ exists old, dget channel st = Some (PDict old)).

(** The registered result of a command that printed a version. *)
Definition printed_version (v : string) : pyval :=
  PDict [ (KStr "changed", PBool false); (KStr "rc", PInt 0);
          (KStr "stdout", PStr v) ].

(** The two values cannot be merged: a list on the right against
    anything but a list, a dictionary on the right against anything but a
    dictionary. *)
Definition shapes_conflict (left_value right_value : pyval) : bool :=
  match right_value, left_value with
  | PList _, PList _ => false
  | PList _, _ => true
  | PDict _, PDict _ => false
  | PDict _, _ => true
  | _, _ => false
  end.
(* ===================================================================== *)
(** ** Dictionary lemmas *)
(* ===================================================================== *)

Section DictFacts.
Context {V : Type}.
Implicit Types (d e : list (pykey * V)) (k : pykey) (v : V).

Lemma dget_dset_eq k v d : dget k (dset k v d) = Some v.
Proof.
  induction d as [|[k' v'] d IH]; simpl.
  - destruct (pykey_eq_dec k k); congruence.
  - destruct (pykey_eq_dec k k') as [E|E]; simpl;
      destruct (pykey_eq_dec k k'); congruence.
Qed.

Lemma dget_dset_ne k k' v d : k <> k' -> dget k' (dset k v d) = dget k' d.
Proof.
  intros N. induction d as [|[k0 v0] d IH]; simpl.
  - destruct (pykey_eq_dec k' k); congruence.
  - destruct (pykey_eq_dec k k0) as [E|E]; simpl.
    + subst k0. destruct (pykey_eq_dec k' k); congruence.
    + destruct (pykey_eq_dec k' k0); congruence.
Qed.

Lemma dget_dset k k' v d :
  dget k' (dset k v d) = if pykey_eq_dec k k' then Some v else dget k' d.
Proof.
  destruct (pykey_eq_dec k k') as [E|E].
  - subst. apply dget_dset_eq.
  - now apply dget_dset_ne.
Qed.

Lemma dmem_dget k d :
  dmem k d = match dget k d with Some _ => true | None => false end.
Proof.
  unfold dmem, dkeys, key_eqb.
  induction d as [|[k' v'] d IH]; simpl; [reflexivity|].
  destruct (pykey_eq_dec k k'); simpl; auto.
Qed.

Lemma dget_In k v d : dget k d = Some v -> In (k, v) d.
Proof.
  induction d as [|[k' v'] d IH]; simpl; [discriminate|].
  destruct (pykey_eq_dec k k'); intros H.
  - left. congruence.
  - right. auto.
Qed.

Lemma dget_None_notin k d : dget k d = None -> ~ In k (dkeys d).
Proof.
  induction d as [|[k' v'] d IH]; simpl; [tauto|].
  destruct (pykey_eq_dec k k'); [discriminate|].
  intros H [E|I]; [congruence | now apply IH].
Qed.

Lemma notin_dget_None k d : ~ In k (dkeys d) -> dget k d = None.
Proof.
  induction d as [|[k' v'] d IH]; simpl; [reflexivity|].
  intros N. destruct (pykey_eq_dec k k'); [exfalso; auto|].
  apply IH. tauto.
Qed.

Lemma In_dget k v d : NoDup (dkeys d) -> In (k, v) d -> dget k d = Some v.
Proof.
  induction d as [|[k' v'] d IH]; simpl; [tauto|].
  intros ND [E|I].
  - inversion E; subst. destruct (pykey_eq_dec k k); congruence.
  - inversion ND as [|? ? N ND']; subst.
    destruct (pykey_eq_dec k k') as [E|E].
    + subst k'. exfalso. apply N. change k with (fst (k, v)).
      now apply in_map.
    + auto.
Qed.

Lemma dkeys_dset k v d :
  dkeys (dset k v d) = if dmem k d then dkeys d else dkeys d ++ [k].
Proof.
  rewrite dmem_dget.
  induction d as [|[k' v'] d IH]; simpl; [reflexivity|].
  destruct (pykey_eq_dec k k'); simpl; [reflexivity|].
  rewrite IH. now destruct (dget k d).
Qed.

Lemma NoDup_dset k v d : NoDup (dkeys d) -> NoDup (dkeys (dset k v d)).
Proof.
  intros ND. rewrite dkeys_dset, dmem_dget.
  destruct (dget k d) eqn:G; [assumption|].
  apply dget_None_notin in G.
  apply NoDup_rev in ND. rewrite <- (rev_involutive (dkeys d ++ [k])).
  apply NoDup_rev. rewrite rev_app_distr. simpl. constructor; [|assumption].
  now rewrite <- in_rev.
Qed.

(** [d.update(e)] reads [e] first, then [d]. *)
Lemma dget_dupdate k d e :
  NoDup (dkeys e) ->
  dget k (dupdate d e) =
    match dget k e with Some v => Some v | None => dget k d end.
Proof.
  unfold dupdate. revert d.
  induction e as [|[k' v'] e IH]; intros d ND; simpl; [reflexivity|].
  inversion ND as [|? ? N ND']; subst.
  rewrite IH by assumption.
  destruct (pykey_eq_dec k k') as [E|E].
  - subst k'. rewrite (notin_dget_None _ _ N). apply dget_dset_eq.
  - destruct (dget k e); [reflexivity|]. apply dget_dset_ne. congruence.
Qed.

End DictFacts.

(* ===================================================================== *)
(** ** StateCreator: one channel, one component, the whole table *)
(* ===================================================================== *)

Lemma py_eqb_val_of_key tag k k' :
  py_hash tag = Ok k -> py_eqb tag (val_of_key k') = key_eqb k k'.
Proof.
  unfold key_eqb.
  destruct tag as [|b|z|s|l|d]; intros H; inversion H; subst; clear H;
    destruct k' as [|z'|s'];
    destruct (pykey_eq_dec _ _) as [E|E]; cbn [py_eqb val_of_key];
    try reflexivity; try discriminate E;
    try (inversion E; subst; first [apply Z.eqb_refl | apply String.eqb_refl]);
    try (first [apply Z.eqb_neq | apply String.eqb_neq]; congruence);
    try congruence.
Qed.

Lemma tag_in_keys tag k (entry : dict) :
  py_hash tag = Ok k ->
  existsb (fun k' => py_eqb tag (val_of_key k')) (dkeys entry) = dmem k entry.
Proof.
  intros H. unfold dmem.
  induction (dkeys entry) as [|k' l IH]; simpl; [reflexivity|].
  now rewrite IH, (py_eqb_val_of_key _ _ k' H).
Qed.

Lemma state_helper_hashable mrv tag old st :
  state_helper mrv tag old = Ok st -> exists k, py_hash tag = Ok k.
Proof.
  unfold state_helper. destruct (py_hash tag) as [k|e]; simpl; [eauto|discriminate].
Qed.

(** What [observed] answers for a hashable channel. *)
Lemma observed_channel cs mrn tag k o :
  py_hash tag = Ok k ->
  observed cs mrn tag = Ok o ->
  (o = None /\ channel_observed cs mrn tag = false /\
     (dget mrn cs = None \/ exists e, dget mrn cs = Some (PDict e) /\ dget k e = None))
  \/ (exists e, o = Some e /\ dget mrn cs = Some (PDict e) /\
        dmem k e = true /\ channel_observed cs mrn tag = true).
Proof.
  intros Hk. unfold observed, channel_observed. rewrite Hk, dmem_dget.
  destruct (dget mrn cs) as [v|] eqn:G.
  - destruct v as [| | | | |e]; try discriminate.
    rewrite (tag_in_keys _ _ _ Hk).
    destruct (dmem k e) eqn:M; intros H; inversion H; subst.
    + right. eauto.
    + left. repeat split; trivial. right. exists e. split; trivial.
      rewrite dmem_dget in M. now destruct (dget k e).
  - intros H; inversion H. left. auto.
Qed.

Lemma state_at_dset_other k key v comp :
  key <> KStr "state" -> state_at k (dset key v comp) = state_at k comp.
Proof.
  intros N. unfold state_at. now rewrite dget_dset_ne.
Qed.

Lemma store_state_frame comp state comp' r key :
  store_state comp state = (comp', r) ->
  key <> KStr "state" -> dget key comp' = dget key comp.
Proof.
  unfold store_state. intros H N.
  destruct (dmem (KStr "state") comp).
  - destruct (dget (KStr "state") comp) as [[| | | | |st]|];
      inversion H; subst; trivial.
    apply dget_dset_ne. congruence.
  - inversion H; subst. apply dget_dset_ne. congruence.
Qed.

(** Storing the record of channel [k]: it is there afterwards, and the
    other channels keep what they had. *)
Lemma store_state_channel comp k record comp' :
  store_state comp [(k, record)] = (comp', Ok tt) ->
  state_at k comp' = Some record /\
  forall k', k' <> k -> state_at k' comp' = state_at k' comp.
Proof.
  unfold store_state, state_at. rewrite dmem_dget. intros H.
  destruct (dget (KStr "state") comp) as [v|] eqn:G.
  - destruct v as [| | | | |st]; try discriminate.
    inversion H; subst. rewrite dget_dset_eq. unfold dupdate. simpl. split.
    + apply dget_dset_eq.
    + intros k' N. apply dget_dset_ne. congruence.
  - inversion H; subst. rewrite dget_dset_eq. simpl. split.
    + destruct (pykey_eq_dec k k); congruence.
    + intros k' N. destruct (pykey_eq_dec k' k); congruence.
Qed.

(** A round of the channel loop changes [password] and [state] only. *)
Lemma channel_step_frame cs mrn mrv comp tag comp' r key :
  channel_step cs mrn mrv comp tag = (comp', r) ->
  key <> KStr "state" -> key <> KStr "password" ->
  dget key comp' = dget key comp.
Proof.
  unfold channel_step. intros H N1 N2.
  destruct (observed cs mrn tag) as [[e|]|x].
  - destruct (m <- py_getitem (PDict comp) "mrsn";; py_replace m "-" "_") as [m|x].
    + destruct (state_helper mrv tag e) as [st|x].
      * rewrite (store_state_frame _ _ _ _ _ H N1). apply dget_dset_ne. congruence.
      * inversion H; subst. apply dget_dset_ne. congruence.
    + inversion H; subst; trivial.
  - destruct (state_helper mrv tag []) as [st|x].
    + apply (store_state_frame _ _ _ _ _ H N1).
    + inversion H; subst; trivial.
  - inversion H; subst; trivial.
Qed.

(** The password is left alone when the channel is not observed. *)
Lemma channel_step_password_kept cs mrn mrv comp tag comp' r :
  channel_step cs mrn mrv comp tag = (comp', r) ->
  (forall e, observed cs mrn tag <> Ok (Some e)) ->
  dget (KStr "password") comp' = dget (KStr "password") comp.
Proof.
  unfold channel_step. intros H N.
  destruct (observed cs mrn tag) as [[e|]|x].
  - exfalso. now apply (N e).
  - destruct (state_helper mrv tag []) as [st|x].
    + apply (store_state_frame _ _ _ _ _ H). discriminate.
    + inversion H; subst; trivial.
  - inversion H; subst; trivial.
Qed.

(** The password after a round: the old one, or the template built from
    the short name. *)
Lemma channel_step_password cs mrn mrv comp tag comp' r :
  channel_step cs mrn mrv comp tag = (comp', r) ->
  dget (KStr "password") comp' = dget (KStr "password") comp \/
  exists m, dget (KStr "mrsn") comp = Some (PStr m) /\
    dget (KStr "password") comp'
      = Some (PStr (password_template (replace "-" "_" m))).
Proof.
  unfold channel_step. intros H.
  destruct (observed cs mrn tag) as [[e|]|x].
  - simpl in H. destruct (dget (KStr "mrsn") comp) as [v|] eqn:G; simpl in H.
    + destruct v as [| | |m| |]; simpl in H;
        try (inversion H; subst; left; reflexivity).
      right. exists m. split; trivial.
      destruct (state_helper mrv tag e) as [st|x].
      * rewrite (store_state_frame _ _ _ _ _ H) by discriminate.
        apply dget_dset_eq.
      * inversion H; subst. apply dget_dset_eq.
    + inversion H; subst. now left.
  - left. destruct (state_helper mrv tag []) as [st|x].
    + apply (store_state_frame _ _ _ _ _ H). discriminate.
    + inversion H; subst; trivial.
  - left. inversion H; subst; trivial.
Qed.

(** The password after a round that went through on an observed channel. *)
Lemma channel_step_password_set cs mrn mrv comp tag comp' e :
  channel_step cs mrn mrv comp tag = (comp', Ok tt) ->
  observed cs mrn tag = Ok (Some e) ->
  exists m, dget (KStr "mrsn") comp = Some (PStr m) /\
    dget (KStr "password") comp'
      = Some (PStr (password_template (replace "-" "_" m))).
Proof.
  unfold channel_step. intros H O. rewrite O in H. simpl in H.
  destruct (dget (KStr "mrsn") comp) as [v|] eqn:G; simpl in H;
    [|discriminate].
  destruct v as [| | |m| |]; simpl in H; try discriminate.
  exists m. split; trivial.
  destruct (state_helper mrv tag e) as [st|x]; [|discriminate].
  rewrite (store_state_frame _ _ _ _ _ H) by discriminate.
  apply dget_dset_eq.
Qed.

Lemma state_helper_record mrv tag k old st :
  py_hash tag = Ok k ->
  state_helper mrv tag old = Ok st ->
  exists record fresh,
    st = [(k, PDict record)] /\
    dget (KStr "mrv") record = Some (dget_default k old (PList [])) /\
    dget (KStr "exists") record
      = Some (PBool (is_not_None (dget_default k old (PList [])))) /\
    py_contains mrv (dget_default k old (PList [])) = Ok fresh /\
    dget (KStr "fresh") record = Some (PBool fresh) /\
    dget (KStr "build") record = Some (PBool (negb fresh)).
Proof.
  intros Hk. unfold state_helper. rewrite Hk. simpl.
  destruct (py_contains mrv (dget_default k old (PList []))) as [f|x];
    simpl; [|discriminate].
  intros H. inversion H; subst. eexists. exists f.
  split; [reflexivity|]. repeat split.
Qed.

(** A round that goes through leaves the record of its channel
    reconciled. *)
Lemma channel_step_reconciles cs mrn mrv comp tag comp' k :
  channel_step cs mrn mrv comp tag = (comp', Ok tt) ->
  py_hash tag = Ok k ->
  reconciled cs mrn mrv k comp'.
Proof.
  unfold channel_step. intros H Hk.
  destruct (observed cs mrn tag) as [o|x] eqn:O; [|discriminate].
  destruct (observed_channel _ _ _ _ _ Hk O)
    as [(-> & _ & G) | (e & -> & G & M & _)].
  - destruct (state_helper mrv tag []) as [st|x] eqn:S; [|discriminate].
    destruct (state_helper_record _ _ _ _ _ Hk S)
      as (record & f & -> & R1 & R2 & R3 & R4 & R5).
    apply store_state_channel in H. destruct H as [H _].
    assert (E : observed_ids cs mrn k = PList []).
    { unfold observed_ids. destruct G as [G | (e & G & G')]; rewrite G; trivial.
      unfold dget_default. now rewrite G'. }
    exists record, f. rewrite E. repeat split; assumption.
  - destruct (m <- py_getitem (PDict comp) "mrsn";; py_replace m "-" "_")
      as [m|x]; [|discriminate].
    destruct (state_helper mrv tag e) as [st|x] eqn:S; [|discriminate].
    destruct (state_helper_record _ _ _ _ _ Hk S)
      as (record & f & -> & R1 & R2 & R3 & R4 & R5).
    apply store_state_channel in H. destruct H as [H _].
    assert (E : observed_ids cs mrn k = dget_default k e (PList [])).
    { unfold observed_ids. now rewrite G. }
    exists record, f. rewrite E. repeat split; assumption.
Qed.

Lemma channel_step_hashable cs mrn mrv comp tag comp' :
  channel_step cs mrn mrv comp tag = (comp', Ok tt) ->
  exists k, py_hash tag = Ok k.
Proof.
  unfold channel_step. intros H.
  destruct (observed cs mrn tag) as [[e|]|x]; [| |discriminate].
  - destruct (m <- py_getitem (PDict comp) "mrsn";; py_replace m "-" "_")
      as [m|x]; [|discriminate].
    destruct (state_helper mrv tag e) as [st|x] eqn:S; [|discriminate].
    eapply state_helper_hashable; eassumption.
  - destruct (state_helper mrv tag []) as [st|x] eqn:S; [|discriminate].
    eapply state_helper_hashable; eassumption.
Qed.

(** A round that goes through on channel [k] leaves the other channels'
    records as they were. *)
Lemma channel_step_other_channels cs mrn mrv comp tag comp' k k' :
  channel_step cs mrn mrv comp tag = (comp', Ok tt) ->
  py_hash tag = Ok k -> k' <> k ->
  state_at k' comp' = state_at k' comp.
Proof.
  unfold channel_step. intros H Hk N.
  destruct (observed cs mrn tag) as [[e|]|x]; [| |discriminate].
  - destruct (m <- py_getitem (PDict comp) "mrsn";; py_replace m "-" "_")
      as [m|x]; [|discriminate].
    destruct (state_helper mrv tag e) as [st|x] eqn:S; [|discriminate].
    destruct (state_helper_record _ _ _ _ _ Hk S) as (record & f & -> & _).
    apply store_state_channel in H. destruct H as [_ H].
    rewrite (H _ N). apply state_at_dset_other. discriminate.
  - destruct (state_helper mrv tag []) as [st|x] eqn:S; [|discriminate].
    destruct (state_helper_record _ _ _ _ _ Hk S) as (record & f & -> & _).
    apply store_state_channel in H. destruct H as [_ H]. now apply H.
Qed.

Lemma reconciled_state_at cs mrn mrv k comp comp' :
  state_at k comp' = state_at k comp ->
  reconciled cs mrn mrv k comp -> reconciled cs mrn mrv k comp'.
Proof.
  intros E (record & f & R). exists record, f. now rewrite E.
Qed.

(** *** The channel loop *)

Lemma channels_loop_cons cs mrn mrv comp tag rest comp' :
  channels_loop cs mrn mrv comp (tag :: rest) = (comp', Ok tt) ->
  exists comp1,
    channel_step cs mrn mrv comp tag = (comp1, Ok tt) /\
    channels_loop cs mrn mrv comp1 rest = (comp', Ok tt).
Proof.
  simpl. destruct (channel_step cs mrn mrv comp tag) as [comp1 [[]|x]].
  - eauto.
  - discriminate.
Qed.

Lemma channels_loop_keeps_reconciled cs mrn mrv k tags :
  forall comp comp',
    channels_loop cs mrn mrv comp tags = (comp', Ok tt) ->
    reconciled cs mrn mrv k comp -> reconciled cs mrn mrv k comp'.
Proof.
  induction tags as [|tag rest IH]; intros comp comp' H R.
  - simpl in H. inversion H; subst; assumption.
  - apply channels_loop_cons in H. destruct H as (comp1 & S & L).
    apply (IH _ _ L).
    destruct (channel_step_hashable _ _ _ _ _ _ S) as [k0 Hk0].
    destruct (pykey_eq_dec k k0) as [->|N].
    + eapply channel_step_reconciles; eassumption.
    + eapply reconciled_state_at; [|exact R].
      eapply channel_step_other_channels; eassumption.
Qed.

(** After a loop that went through, every channel it ran over is
    reconciled. *)
Lemma channels_loop_reconciles cs mrn mrv tags :
  forall comp comp' tag k,
    channels_loop cs mrn mrv comp tags = (comp', Ok tt) ->
    In tag tags -> py_hash tag = Ok k ->
    reconciled cs mrn mrv k comp'.
Proof.
  induction tags as [|tag0 rest IH]; intros comp comp' tag k H I Hk.
  - destruct I.
  - apply channels_loop_cons in H. destruct H as (comp1 & S & L).
    destruct I as [->|I].
    + eapply channels_loop_keeps_reconciled; [exact L|].
      eapply channel_step_reconciles; eassumption.
    + eapply IH; eassumption.
Qed.

Lemma channels_loop_hashable cs mrn mrv tags :
  forall comp comp' tag,
    channels_loop cs mrn mrv comp tags = (comp', Ok tt) ->
    In tag tags -> exists k, py_hash tag = Ok k.
Proof.
  induction tags as [|tag0 rest IH]; intros comp comp' tag H I.
  - destruct I.
  - apply channels_loop_cons in H. destruct H as (comp1 & S & L).
    destruct I as [->|I].
    + eapply channel_step_hashable; eassumption.
    + eapply IH; eassumption.
Qed.

Lemma channels_loop_frame cs mrn mrv tags key :
  key <> KStr "state" -> key <> KStr "password" ->
  forall comp comp' r,
    channels_loop cs mrn mrv comp tags = (comp', r) ->
    dget key comp' = dget key comp.
Proof.
  intros N1 N2. induction tags as [|tag rest IH]; intros comp comp' r H.
  - simpl in H. inversion H; subst; reflexivity.
  - simpl in H.
    destruct (channel_step cs mrn mrv comp tag) as [comp1 [[]|x]] eqn:S.
    + rewrite (IH _ _ _ H). eapply channel_step_frame; eassumption.
    + inversion H; subst. eapply channel_step_frame; eassumption.
Qed.

Lemma channels_loop_password_kept cs mrn mrv tags :
  forall comp comp' r,
    channels_loop cs mrn mrv comp tags = (comp', r) ->
    (forall tag e, In tag tags -> observed cs mrn tag <> Ok (Some e)) ->
    dget (KStr "password") comp' = dget (KStr "password") comp.
Proof.
  induction tags as [|tag rest IH]; intros comp comp' r H N.
  - simpl in H. inversion H; subst; reflexivity.
  - simpl in H.
    assert (N0 : forall e, observed cs mrn tag <> Ok (Some e))
      by (intros e; apply N; now left).
    destruct (channel_step cs mrn mrv comp tag) as [comp1 [[]|x]] eqn:S.
    + rewrite (IH _ _ _ H) by (intros t e I; apply N; now right).
      eapply channel_step_password_kept; eassumption.
    + inversion H; subst. eapply channel_step_password_kept; eassumption.
Qed.

(** Once the template is in place, the rest of the loop keeps it. *)
Lemma channels_loop_template_kept cs mrn mrv m tags :
  forall comp comp' r,
    channels_loop cs mrn mrv comp tags = (comp', r) ->
    dget (KStr "mrsn") comp = Some (PStr m) ->
    dget (KStr "password") comp
      = Some (PStr (password_template (replace "-" "_" m))) ->
    dget (KStr "password") comp'
      = Some (PStr (password_template (replace "-" "_" m))).
Proof.
  induction tags as [|tag rest IH]; intros comp comp' r H M P.
  - simpl in H. inversion H; subst; assumption.
  - simpl in H.
    destruct (channel_step cs mrn mrv comp tag) as [comp1 r1] eqn:S.
    assert (M1 : dget (KStr "mrsn") comp1 = Some (PStr m)).
    { rewrite <- M. eapply channel_step_frame; [exact S| |]; discriminate. }
    assert (P1 : dget (KStr "password") comp1
                 = Some (PStr (password_template (replace "-" "_" m)))).
    { destruct (channel_step_password _ _ _ _ _ _ _ S) as [E|(m' & M' & E)].
      - congruence.
      - rewrite E. congruence. }
    destruct r1 as [[]|x].
    + eapply IH; eassumption.
    + inversion H; subst. assumption.
Qed.

Lemma channels_loop_password_set cs mrn mrv tags :
  forall comp comp' tag e,
    channels_loop cs mrn mrv comp tags = (comp', Ok tt) ->
    In tag tags -> observed cs mrn tag = Ok (Some e) ->
    exists m, dget (KStr "mrsn") comp = Some (PStr m) /\
      dget (KStr "password") comp'
        = Some (PStr (password_template (replace "-" "_" m))).
Proof.
  induction tags as [|tag0 rest IH]; intros comp comp' tag e H I O.
  - destruct I.
  - apply channels_loop_cons in H. destruct H as (comp1 & S & L).
    assert (F : dget (KStr "mrsn") comp1 = dget (KStr "mrsn") comp)
      by (eapply channel_step_frame; [exact S| |]; discriminate).
    destruct I as [->|I].
    + destruct (channel_step_password_set _ _ _ _ _ _ _ S O) as (m & M & P).
      exists m. split; trivial.
      eapply channels_loop_template_kept; [exact L| |exact P]. congruence.
    + destruct (IH _ _ _ _ L I O) as (m & M & P).
      exists m. split; [congruence|assumption].
Qed.

(** *** One component *)

Lemma process_component_ok cs mrn comp out :
  process_component cs mrn comp = (Some out, None) ->
  exists c mrv tags,
    comp = PDict c /\ dget (KStr "mrv") c = Some mrv /\
    declared c = Ok tags /\
    channels_loop cs mrn mrv c tags = (out, Ok tt).
Proof.
  unfold process_component, declared.
  destruct comp as [| | | | |c]; try discriminate.
  destruct (dget (KStr "mrv") c) as [mrv|] eqn:V; [|discriminate].
  destruct (t <- py_getitem (PDict c) "mrt";; py_iter t) as [tags|x] eqn:D;
    [|discriminate].
  destruct (channels_loop cs mrn mrv c tags) as [c' [[]|x]] eqn:L;
    [|discriminate].
  intros H. inversion H; subst. exists c, mrv, tags. repeat split; assumption.
Qed.

(** A component is left out of the table exactly when its [mrv] cannot be
    read. *)
Lemma entry_of_None cs mrn comp :
  entry_of cs mrn comp = None <-> exists e, py_getitem comp "mrv" = Raise e.
Proof.
  unfold entry_of, process_component, py_getitem.
  destruct comp as [| | | | |c]; simpl;
    try (split; [intros _; eexists; reflexivity | reflexivity]).
  destruct (dget (KStr "mrv") c) as [mrv|].
  - destruct (t <- _ ;; py_iter t) as [tags|x].
    + destruct (channels_loop cs mrn mrv c tags) as [c' [[]|x]]; simpl;
        (split; [discriminate | intros [e E]; discriminate]).
    + simpl. split; [discriminate | intros [e E]; discriminate].
  - simpl. split; [intros _; eexists; reflexivity | reflexivity].
Qed.

(** *** The whole table *)

Lemma create_state_from_cons cs item comps acc :
  create_state_from cs (item :: comps) acc
  = create_state_from cs comps
      (match process_component cs (fst item) (snd item) with
       | (Some c, e) =>
           (dset (fst item) (PDict c) (fst acc), snd acc ++ printed_of e)
       | (None, e) => (fst acc, snd acc ++ printed_of e)
       end).
Proof. reflexivity. Qed.

Lemma create_state_from_printed cs comps :
  forall acc,
    snd (create_state_from cs comps acc)
    = snd acc ++ flat_map (fun item => printed_of (raised_by cs (fst item) (snd item))) comps.
Proof.
  induction comps as [|[mrn comp] comps IH]; intros acc.
  - simpl. now rewrite app_nil_r.
  - rewrite create_state_from_cons, IH. unfold raised_by. simpl.
    destruct (process_component cs mrn comp) as [[c|] e]; simpl;
      now rewrite <- app_assoc.
Qed.

Lemma create_state_from_other cs comps mrn :
  forall acc,
    ~ In mrn (dkeys comps) ->
    dget mrn (fst (create_state_from cs comps acc)) = dget mrn (fst acc).
Proof.
  induction comps as [|[mrn0 comp0] comps IH]; intros acc N.
  - reflexivity.
  - simpl in N. rewrite create_state_from_cons, IH by tauto. simpl.
    destruct (process_component cs mrn0 comp0) as [[c|] e]; simpl; trivial.
    apply dget_dset_ne. tauto.
Qed.

Lemma create_state_from_entry cs comps mrn comp :
  forall acc,
    NoDup (dkeys comps) -> In (mrn, comp) comps ->
    dget mrn (fst (create_state_from cs comps acc))
    = match entry_of cs mrn comp with
      | Some entry => Some entry
      | None => dget mrn (fst acc)
      end.
Proof.
  induction comps as [|[mrn0 comp0] comps IH]; intros acc ND I.
  - destruct I.
  - inversion ND as [|? ? N ND']; subst. rewrite create_state_from_cons.
    destruct I as [E|I].
    + inversion E; subst.
      rewrite create_state_from_other by assumption.
      unfold entry_of. simpl.
      destruct (process_component cs mrn comp) as [[c|] e]; simpl; trivial.
      apply dget_dset_eq.
    + rewrite (IH _ ND' I).
      destruct (entry_of cs mrn comp); trivial. simpl.
      destruct (process_component cs mrn0 comp0) as [[c|] e]; simpl; trivial.
      apply dget_dset_ne. intros ->. apply N.
      change mrn with (fst (mrn, comp)). now apply in_map.
Qed.

(** The entry of a component in the table is what its own processing
    registered. *)
Lemma create_state_entry cs comps mrn comp :
  NoDup (dkeys comps) -> In (mrn, comp) comps ->
  dget mrn (fst (create_state cs comps)) = entry_of cs mrn comp.
Proof.
  intros ND I. unfold create_state.
  rewrite (create_state_from_entry _ _ _ _ _ ND I). simpl.
  now destruct (entry_of cs mrn comp).
Qed.

Lemma create_state_printed cs comps mrn comp e :
  In (mrn, comp) comps -> raised_by cs mrn comp = Some e ->
  In e (snd (create_state cs comps)).
Proof.
  intros I R. unfold create_state. rewrite create_state_from_printed. simpl.
  apply in_flat_map. exists (mrn, comp). split; trivial.
  simpl. rewrite R. now left.
Qed.

Lemma state_field_entry states mrn c k field :
  dget mrn states = Some (PDict c) ->
  state_field states mrn k field
  = match state_at k c with
    | Some (PDict r) => dget (KStr field) r
    | _ => None
    end.
Proof.
  intros G. unfold state_field, state_at. rewrite G.
  destruct (dget (KStr "state") c) as [[| | | | |st]|]; reflexivity.
Qed.

(** A component processed without error is in the table, and each of its
    declared channels is reconciled. *)
Lemma create_state_reconciles cs comps mrn c mrv tags tag k :
  NoDup (dkeys comps) -> In (mrn, PDict c) comps ->
  raised_by cs mrn (PDict c) = None ->
  dget (KStr "mrv") c = Some mrv -> declared c = Ok tags ->
  In tag tags -> py_hash tag = Ok k ->
  exists out,
    dget mrn (fst (create_state cs comps)) = Some (PDict out) /\
    reconciled cs mrn mrv k out.
Proof.
  intros ND I R V D T Hk.
  rewrite (create_state_entry _ _ _ _ ND I).
  unfold raised_by in R. unfold entry_of.
  destruct (process_component cs mrn (PDict c)) as [o e] eqn:P.
  simpl in R. subst e.
  destruct o as [out|].
  - apply process_component_ok in P.
    destruct P as (c0 & mrv0 & tags0 & E & V0 & D0 & L).
    inversion E; subst c0. exists out. split; [reflexivity|].
    assert (mrv0 = mrv) by congruence. assert (tags0 = tags) by congruence.
    subst. eapply channels_loop_reconciles; eassumption.
  - exfalso. unfold process_component in P. rewrite V in P.
    destruct (t <- _ ;; py_iter t) as [ts|x]; [|discriminate].
    destruct (channels_loop cs mrn mrv c ts) as [c' [[]|x]]; discriminate.
Qed.

Lemma channel_observed_true cs mrn tag :
  channel_observed cs mrn tag = true ->
  exists e, observed cs mrn tag = Ok (Some e).
Proof.
  unfold channel_observed, observed. rewrite dmem_dget.
  destruct (dget mrn cs) as [[| | | | |e]|]; try discriminate.
  destruct (py_hash tag) as [k|x] eqn:Hk; [|discriminate].
  intros M. rewrite (tag_in_keys _ _ _ Hk), M. eauto.
Qed.

Lemma channel_observed_false cs mrn tag k :
  py_hash tag = Ok k ->
  channel_observed cs mrn tag = false ->
  forall e, observed cs mrn tag <> Ok (Some e).
Proof.
  intros Hk F e O.
  destruct (observed_channel _ _ _ _ _ Hk O)
    as [(A & _) | (e' & _ & _ & _ & T)]; congruence.
Qed.

(* ===================================================================== *)
(** ** The state reconciler: the properties *)
(* ===================================================================== *)

(** C1 (the code departs from it).  The claim: the [exists] flag of a
    reconciled record is true if and only if a non-empty list of versions
    was observed, so that a component without any observation gets
    [exists = false, fresh = false, build = true].  What the code does for
    [svc_a], which no source observed: the observed list is empty, and the
    record carries [fresh = false] and [build = true], but
    [exists = true]. *)
Theorem C1_unobserved_channel_marked_existing :
  observed_ids other_observed (KStr "svc_a") (KStr "default") = PList [] /\
  state_field (fst (create_state other_observed graph_a))
    (KStr "svc_a") (KStr "default") "exists" = Some (PBool true) /\
  state_field (fst (create_state other_observed graph_a))
    (KStr "svc_a") (KStr "default") "fresh" = Some (PBool false) /\
  state_field (fst (create_state other_observed graph_a))
    (KStr "svc_a") (KStr "default") "build" = Some (PBool true).
Proof. repeat split. Qed.

(** The [exists] flag in general: it only tells whether the observed value
    is [None], so it is true for every observed list, empty or not. *)
Lemma exists_flag_of_list cs comps mrn c mrv tags tag k ids :
  NoDup (dkeys comps) -> In (mrn, PDict c) comps ->
  raised_by cs mrn (PDict c) = None ->
  dget (KStr "mrv") c = Some mrv -> declared c = Ok tags ->
  In tag tags -> py_hash tag = Ok k ->
  observed_ids cs mrn k = PList ids ->
  state_field (fst (create_state cs comps)) mrn k "exists" = Some (PBool true).
Proof.
  intros ND I R V D T Hk O.
  destruct (create_state_reconciles _ _ _ _ _ _ _ _ ND I R V D T Hk)
    as (out & G & record & f & S & _ & E & _).
  rewrite (state_field_entry _ _ _ _ _ G), S, E, O. reflexivity.
Qed.

(** C2.  For every component processed by the reconciliation pass and every
    channel it declares, the reconciled record has [fresh] true exactly
    when the desired [mrv] is a member of the list of ids observed for the
    channel in the merged map (the empty list when the component or the
    channel was not observed), and [build] is the negation of [fresh]. *)
Theorem C2_fresh_is_membership_build_is_its_negation
    (merged_data components : dict) (mrn : pykey) (comp : dict)
    (mrv : pyval) (tags : list pyval) (tag : pyval) (channel : pykey)
    (ids : list pyval) :
  NoDup (dkeys components) ->
  In (mrn, PDict comp) components ->
  raised_by merged_data mrn (PDict comp) = None ->
  dget (KStr "mrv") comp = Some mrv ->
  declared comp = Ok tags ->
  In tag tags ->
  py_hash tag = Ok channel ->
  observed_ids merged_data mrn channel = PList ids ->
  state_field (fst (create_state merged_data components)) mrn channel "fresh"
    = Some (PBool (existsb (py_eqb mrv) ids)) /\
  state_field (fst (create_state merged_data components)) mrn channel "build"
    = Some (PBool (negb (existsb (py_eqb mrv) ids))).
Proof.
  intros ND I R V D T Hk O.
  destruct (create_state_reconciles _ _ _ _ _ _ _ _ ND I R V D T Hk)
    as (out & G & record & f & S & _ & _ & C & F & B).
  rewrite !(state_field_entry _ _ _ _ _ G), S.
  rewrite O in C. simpl in C. inversion C; subst f. auto.
Qed.

Lemma graph_a_keys : NoDup (dkeys graph_a).
Proof. repeat constructor. simpl. tauto. Defined.

Lemma C2_witness :
  state_field (fst (create_state svc_a_observed graph_a))
    (KStr "svc_a") (KStr "default") "fresh" = Some (PBool true) /\
  state_field (fst (create_state svc_a_observed graph_a))
    (KStr "svc_a") (KStr "default") "build" = Some (PBool false).
Proof.
  exact (C2_fresh_is_membership_build_is_its_negation
           svc_a_observed graph_a (KStr "svc_a")
           [ (KStr "mrn", PStr "svc_a"); (KStr "mrsn", PStr "svc-a");
             (KStr "mrv", PStr "7"); (KStr "mrt", PList [PStr "default"]) ]
           (PStr "7") [PStr "default"] (PStr "default") (KStr "default")
           [PStr "6"; PStr "7"]
           graph_a_keys (or_introl eq_refl) eq_refl eq_refl eq_refl
           (or_introl eq_refl) eq_refl eq_refl).
Defined.

(** *** A component whose processing fails *)

(** A round that fails leaves the [state] as it was. *)
Lemma channel_step_failed_keeps_state cs mrn mrv comp tag comp' e k :
  channel_step cs mrn mrv comp tag = (comp', Raise e) ->
  state_at k comp' = state_at k comp.
Proof.
  unfold channel_step, store_state. intros H.
  destruct (observed cs mrn tag) as [[o|]|x].
  - destruct (m <- py_getitem (PDict comp) "mrsn";; py_replace m "-" "_")
      as [m|x]; [|inversion H; subst; reflexivity].
    destruct (state_helper mrv tag o) as [st|x].
    + destruct (dmem (KStr "state") _); [|discriminate H].
      destruct (dget (KStr "state") _) as [[| | | | |s]|];
        try discriminate H; inversion H; subst;
        apply state_at_dset_other; discriminate.
    + inversion H; subst. apply state_at_dset_other. discriminate.
  - destruct (state_helper mrv tag []) as [st|x];
      [|inversion H; subst; reflexivity].
    destruct (dmem (KStr "state") comp); [|discriminate H].
    destruct (dget (KStr "state") comp) as [[| | | | |s]|];
      try discriminate H; inversion H; subst; reflexivity.
  - inversion H; subst. reflexivity.
Qed.

(** Whether the loop goes through or fails, a channel that is reconciled
    stays so. *)
Lemma channels_loop_keeps_reconciled_always cs mrn mrv k tags :
  forall comp comp' r,
    channels_loop cs mrn mrv comp tags = (comp', r) ->
    reconciled cs mrn mrv k comp -> reconciled cs mrn mrv k comp'.
Proof.
  induction tags as [|tag rest IH]; intros comp comp' r H R.
  - simpl in H. inversion H; subst; assumption.
  - cbn [channels_loop] in H.
    destruct (channel_step cs mrn mrv comp tag) as [comp1 [[]|x]] eqn:S.
    + apply (IH _ _ _ H).
      destruct (channel_step_hashable _ _ _ _ _ _ S) as [k0 Hk0].
      destruct (pykey_eq_dec k k0) as [->|N].
      * eapply channel_step_reconciles; eassumption.
      * eapply reconciled_state_at; [|exact R].
        eapply channel_step_other_channels; eassumption.
    + inversion H; subst. eapply reconciled_state_at; [|exact R].
      eapply channel_step_failed_keeps_state; eassumption.
Qed.

Lemma channels_loop_app cs mrn mrv pre post :
  forall comp comp1,
    channels_loop cs mrn mrv comp pre = (comp1, Ok tt) ->
    channels_loop cs mrn mrv comp (pre ++ post)
    = channels_loop cs mrn mrv comp1 post.
Proof.
  induction pre as [|tag pre IH]; intros comp comp1 H.
  - simpl in H. now inversion H.
  - apply channels_loop_cons in H. destruct H as (c0 & S & L).
    cbn [app channels_loop]. rewrite S. now apply IH.
Qed.

(** A component registered before its processing fails is in the table
    with every channel processed before the failure reconciled. *)
Lemma create_state_keeps_updates cs comps mrn c mrv tags pre post :
  NoDup (dkeys comps) -> In (mrn, PDict c) comps ->
  dget (KStr "mrv") c = Some mrv -> declared c = Ok tags ->
  tags = pre ++ post ->
  snd (channels_loop cs mrn mrv c pre) = Ok tt ->
  exists out,
    dget mrn (fst (create_state cs comps)) = Some (PDict out) /\
    forall tag k, In tag pre -> py_hash tag = Ok k ->
      reconciled cs mrn mrv k out.
Proof.
  intros ND I V D T P.
  destruct (channels_loop cs mrn mrv c pre) as [c1 r1] eqn:L1.
  simpl in P. subst r1.
  rewrite (create_state_entry _ _ _ _ ND I).
  unfold entry_of, process_component. rewrite V.
  unfold declared in D. rewrite D.
  rewrite T, (channels_loop_app _ _ _ _ _ _ _ L1).
  destruct (channels_loop cs mrn mrv c1 post) as [c2 r2] eqn:L2.
  exists c2. split; [now destruct r2 as [[]|x]|].
  intros tag k It Hk.
  eapply channels_loop_keeps_reconciled_always; [exact L2|].
  eapply channels_loop_reconciles; eassumption.
Qed.

(** C8, as the claim states it, fails: the observation of [svc_a] is
    malformed, its processing raises, and [svc_a] is in the table all the
    same. *)
Lemma C8_counterexample :
  ~ (forall merged_data components mrn comp e,
       NoDup (dkeys components) -> In (mrn, comp) components ->
       raised_by merged_data mrn comp = Some e ->
       dget mrn (fst (create_state merged_data components)) = None).
Proof.
  intros H.
  specialize (H svc_a_malformed graph_a (KStr "svc_a") svc_a AttributeError
                graph_a_keys (or_introl eq_refl) eq_refl).
  discriminate H.
Qed.

(** C8 (amended).  For every component whose processing raises an error,
    the error is caught and printed, the pass goes on (every other
    component has the entry its own processing gives), and the component
    is absent from the state table exactly when the error arose while
    reading its [mrv], that is before the component is registered.  An
    error that arises later leaves the component in the table with the
    updates made up to the failure: every channel processed before it is
    reconciled with the observations in the entry of the table. *)
Theorem C8_error_caught_pass_continues
    (merged_data components : dict) (mrn : pykey) (comp : pyval) (e : exc) :
  NoDup (dkeys components) ->
  In (mrn, comp) components ->
  raised_by merged_data mrn comp = Some e ->
  In e (snd (create_state merged_data components)) /\
  (forall mrn' comp', In (mrn', comp') components -> mrn' <> mrn ->
     dget mrn' (fst (create_state merged_data components))
     = entry_of merged_data mrn' comp') /\
  (dget mrn (fst (create_state merged_data components)) = None
   <-> exists e', py_getitem comp "mrv" = Raise e') /\
  (forall c mrv tags pre post,
     comp = PDict c ->
     dget (KStr "mrv") c = Some mrv ->
     declared c = Ok tags ->
     tags = pre ++ post ->
     snd (channels_loop merged_data mrn mrv c pre) = Ok tt ->
     exists out,
       dget mrn (fst (create_state merged_data components)) = Some (PDict out) /\
       forall tag k, In tag pre -> py_hash tag = Ok k ->
         reconciled merged_data mrn mrv k out).
Proof.
  intros ND I R. split; [|split; [|split]].
  - eapply create_state_printed; eassumption.
  - intros mrn' comp' I' _. now apply create_state_entry.
  - rewrite (create_state_entry _ _ _ _ ND I). apply entry_of_None.
  - intros c mrv tags pre post -> V D T P.
    eapply create_state_keeps_updates; eassumption.
Qed.

Lemma graph_c_keys : NoDup (dkeys graph_c).
Proof. repeat constructor; simpl; intuition discriminate. Defined.

Lemma C8_witness :
  In TypeError (snd (create_state svc_c_observed graph_c)) /\
  (forall mrn' comp', In (mrn', comp') graph_c -> mrn' <> KStr "svc_c" ->
     dget mrn' (fst (create_state svc_c_observed graph_c))
     = entry_of svc_c_observed mrn' comp') /\
  (dget (KStr "svc_c") (fst (create_state svc_c_observed graph_c)) = None
   <-> exists e', py_getitem svc_c "mrv" = Raise e') /\
  exists out,
    dget (KStr "svc_c") (fst (create_state svc_c_observed graph_c))
    = Some (PDict out) /\
    forall tag k, In tag [PStr "default"] -> py_hash tag = Ok k ->
      reconciled svc_c_observed (KStr "svc_c") (PStr "7") k out.
Proof.
  destruct (C8_error_caught_pass_continues svc_c_observed graph_c
              (KStr "svc_c") svc_c TypeError
              graph_c_keys (or_introl eq_refl) eq_refl)
    as (A & B & C & D).
  split; [exact A|]. split; [exact B|]. split; [exact C|].
  exact (D [ (KStr "mrn", PStr "svc_c"); (KStr "mrsn", PStr "svc-c");
             (KStr "mrv", PStr "7");
             (KStr "mrt", PList [PStr "default"; PStr "canary"]) ]
           (PStr "7") [PStr "default"; PStr "canary"]
           [PStr "default"] [PStr "canary"]
           eq_refl eq_refl eq_refl eq_refl eq_refl).
Defined.

(** C10.  For a component processed without error, the entry of the state
    table differs from the record of the graph only in [state] and
    [password]: every other field is passed through; the password is
    untouched unless the merged map has the component key with one of the
    declared channels, in which case it is the template built from the
    short name. *)
Theorem C10_only_state_and_password_change
    (merged_data components : dict) (mrn : pykey) (comp out : dict) :
  NoDup (dkeys components) ->
  In (mrn, PDict comp) components ->
  process_component merged_data mrn (PDict comp) = (Some out, None) ->
  dget mrn (fst (create_state merged_data components)) = Some (PDict out) /\
  (forall key, key <> KStr "state" -> key <> KStr "password" ->
     dget key out = dget key comp) /\
  ((forall tags tag, declared comp = Ok tags -> In tag tags ->
      channel_observed merged_data mrn tag = false) ->
   dget (KStr "password") out = dget (KStr "password") comp) /\
  (forall tags tag, declared comp = Ok tags -> In tag tags ->
     channel_observed merged_data mrn tag = true ->
     exists mrsn, dget (KStr "mrsn") comp = Some (PStr mrsn) /\
       dget (KStr "password") out
       = Some (PStr (password_template (replace "-" "_" mrsn)))).
Proof.
  intros ND I P.
  assert (G : dget mrn (fst (create_state merged_data components))
              = Some (PDict out)).
  { rewrite (create_state_entry _ _ _ _ ND I). unfold entry_of. now rewrite P. }
  apply process_component_ok in P.
  destruct P as (c & mrv & tags & E & V & D & L). inversion E; subst c.
  split; [exact G|]. split; [|split].
  - intros key N1 N2. eapply channels_loop_frame; eassumption.
  - intros U. eapply channels_loop_password_kept; [exact L|].
    intros tag e T.
    destruct (channels_loop_hashable _ _ _ _ _ _ _ L T) as [k Hk].
    eapply channel_observed_false; [exact Hk|]. eapply U; eassumption.
  - intros tags' tag D' T O. assert (tags' = tags) by congruence. subst tags'.
    destruct (channel_observed_true _ _ _ O) as [e O'].
    eapply channels_loop_password_set; eassumption.
Qed.

(** *** Well-shaped inputs are processed without error *)

Lemma store_state_goes_through comp state :
  state_is_dictionary comp ->
  exists comp',
    store_state comp state = (comp', Ok tt) /\ state_is_dictionary comp'.
Proof.
  unfold state_is_dictionary, store_state. rewrite dmem_dget.
  destruct (dget (KStr "state") comp) as [[| | | | |st]|]; try contradiction;
    intros _; eexists; (split; [reflexivity|]); now rewrite dget_dset_eq.
Qed.

Lemma state_helper_on_list mrv s old :
  match dget (KStr s) old with
  | None | Some (PList _) => True
  | Some _ => False
  end ->
  exists st, state_helper mrv (PStr s) old = Ok st.
Proof.
  unfold state_helper, dget_default. simpl.
  destruct (dget (KStr s) old) as [[| | | |l|]|]; try contradiction;
    intros _; simpl; eauto.
Qed.

Lemma channel_step_goes_through cs mrn mrv comp s tags m :
  entry_holds_lists cs mrn tags -> In s tags ->
  dget (KStr "mrsn") comp = Some (PStr m) ->
  state_is_dictionary comp ->
  exists comp',
    channel_step cs mrn mrv comp (PStr s) = (comp', Ok tt) /\
    dget (KStr "mrsn") comp' = Some (PStr m) /\
    state_is_dictionary comp'.
Proof.
  intros E I M S.
  assert (O : exists o, observed cs mrn (PStr s) = Ok o /\
                match o with
                | Some e => match dget (KStr s) e with
                            | None | Some (PList _) => True
                            | Some _ => False
                            end
                | None => True
                end).
  { unfold observed, entry_holds_lists in *. rewrite dmem_dget.
    destruct (dget mrn cs) as [[| | | | |e]|]; try contradiction.
    - destruct (existsb _ (dkeys e)); eexists; (split; [reflexivity|]); simpl;
        [apply E; exact I | exact Logic.I].
    - exists None. split; trivial. }
  destruct O as (o & O & L).
  assert (F : forall comp1 st,
            dget (KStr "mrsn") comp1 = Some (PStr m) ->
            state_is_dictionary comp1 ->
            exists comp',
              store_state comp1 st = (comp', Ok tt) /\
              dget (KStr "mrsn") comp' = Some (PStr m) /\
              state_is_dictionary comp').
  { intros comp1 st M1 S1.
    destruct (store_state_goes_through comp1 st S1) as (comp' & H & S').
    exists comp'. split; [exact H|]. split; [|exact S'].
    rewrite <- M1. eapply store_state_frame; [exact H|discriminate]. }
  unfold channel_step. rewrite O. destruct o as [e|].
  - simpl. rewrite M. simpl.
    destruct (state_helper_on_list mrv s e L) as (st & ->).
    apply F.
    + rewrite <- M. apply dget_dset_ne. discriminate.
    + unfold state_is_dictionary. rewrite dget_dset_ne by discriminate. exact S.
  - destruct (state_helper_on_list mrv s [] Logic.I) as (st & ->).
    now apply F.
Qed.

Lemma channels_loop_goes_through cs mrn mrv m all_tags tags :
  entry_holds_lists cs mrn all_tags ->
  (forall s, In s tags -> In s all_tags) ->
  forall comp,
    dget (KStr "mrsn") comp = Some (PStr m) ->
    state_is_dictionary comp ->
    exists comp', channels_loop cs mrn mrv comp (map PStr tags) = (comp', Ok tt).
Proof.
  intros E. induction tags as [|s tags IH]; intros Sub comp M S.
  - exists comp. reflexivity.
  - destruct (channel_step_goes_through cs mrn mrv comp s all_tags m E
                (Sub s (or_introl eq_refl)) M S) as (comp1 & H & M1 & S1).
    destruct (IH (fun x I => Sub x (or_intror I)) comp1 M1 S1) as (comp' & L).
    exists comp'. simpl. rewrite H. exact L.
Qed.

(** A well-shaped component is processed without error. *)
Lemma well_shaped_never_raises cs mrn comp :
  well_shaped cs mrn comp -> raised_by cs mrn (PDict comp) = None.
Proof.
  intros ((mrv & V) & (tags & T & E) & (m & M) & S).
  unfold raised_by, process_component. rewrite V. simpl. rewrite T. simpl.
  destruct (channels_loop_goes_through cs mrn mrv m tags tags E
              (fun s I => I) comp M S) as (comp' & ->).
  reflexivity.
Qed.

Lemma C10_witness :
  dget (KStr "svc_a") (fst (create_state svc_a_observed graph_a))
    = Some (PDict svc_a_reconciled) /\
  (forall key, key <> KStr "state" -> key <> KStr "password" ->
     dget key svc_a_reconciled
     = dget key [ (KStr "mrn", PStr "svc_a"); (KStr "mrsn", PStr "svc-a");
                  (KStr "mrv", PStr "7"); (KStr "mrt", PList [PStr "default"]) ]) /\
  ((forall tags tag,
      declared [ (KStr "mrn", PStr "svc_a"); (KStr "mrsn", PStr "svc-a");
                 (KStr "mrv", PStr "7"); (KStr "mrt", PList [PStr "default"]) ]
        = Ok tags -> In tag tags ->
      channel_observed svc_a_observed (KStr "svc_a") tag = false) ->
   dget (KStr "password") svc_a_reconciled
   = dget (KStr "password")
       [ (KStr "mrn", PStr "svc_a"); (KStr "mrsn", PStr "svc-a");
         (KStr "mrv", PStr "7"); (KStr "mrt", PList [PStr "default"]) ]) /\
  (forall tags tag,
     declared [ (KStr "mrn", PStr "svc_a"); (KStr "mrsn", PStr "svc-a");
                (KStr "mrv", PStr "7"); (KStr "mrt", PList [PStr "default"]) ]
       = Ok tags -> In tag tags ->
     channel_observed svc_a_observed (KStr "svc_a") tag = true ->
     exists mrsn,
       dget (KStr "mrsn")
         [ (KStr "mrn", PStr "svc_a"); (KStr "mrsn", PStr "svc-a");
           (KStr "mrv", PStr "7"); (KStr "mrt", PList [PStr "default"]) ]
       = Some (PStr mrsn) /\
       dget (KStr "password") svc_a_reconciled
       = Some (PStr (password_template (replace "-" "_" mrsn)))).
Proof.
  exact (C10_only_state_and_password_change svc_a_observed graph_a
           (KStr "svc_a") _ svc_a_reconciled
           graph_a_keys (or_introl eq_refl) eq_refl).
Defined.

(* ===================================================================== *)
(** ** The merge of the three sources *)
(* ===================================================================== *)

Lemma merge_source_entry merged data k :
  well_keyed data ->
  dget k (merge_source merged data)
  = match source_entry data k with
    | Some e => Some e
    | None => dget k merged
    end.
Proof.
  destruct data as [d|]; simpl; intros W.
  - now apply dget_dupdate.
  - reflexivity.
Qed.

(** C3.  In the merge of the three fetcher outputs, the entry of a
    component key is, whole, the entry of the last source that reports the
    key in the order host environment, cluster, registry: a later source
    replaces the entry of an earlier one, channels included. *)
Theorem C3_later_source_replaces_entry
    (os_data cluster_data images_data : option dict) (k : pykey) :
  well_keyed os_data -> well_keyed cluster_data -> well_keyed images_data ->
  dget k (merge_sources os_data cluster_data images_data)
  = match source_entry images_data k with
    | Some entry => Some entry
    | None =>
        match source_entry cluster_data k with
        | Some entry => Some entry
        | None => source_entry os_data k
        end
    end.
Proof.
  intros W1 W2 W3. unfold merge_sources.
  rewrite !merge_source_entry by assumption. simpl.
  destruct (source_entry images_data k); trivial.
  destruct (source_entry cluster_data k); trivial.
  now destruct (source_entry os_data k).
Qed.

(** [main] hands [create_state] the merge of the three sources. *)
Lemma main_merges_sources components os_data cluster_data images_data now fs :
  main components (Fetched os_data) (Fetched cluster_data)
    (Fetched images_data) now fs
  = (ExitJson
       (states_of (merge_sources os_data cluster_data images_data) components),
     persist now
       (states_of (merge_sources os_data cluster_data images_data) components)
       fs).
Proof. reflexivity. Qed.

Lemma singleton_keys (k : pykey) (v : pyval) : NoDup (dkeys [(k, v)]).
Proof. repeat constructor. simpl. tauto. Defined.

Lemma C3_witness :
  dget (KStr "X") (merge_sources (Some os_x) (Some cluster_x) (Some []))
  = Some (PDict [(KStr "canary", PList [PStr "v2"])]).
Proof.
  exact (C3_later_source_replaces_entry (Some os_x) (Some cluster_x) (Some [])
           (KStr "X") (singleton_keys _ _) (singleton_keys _ _) (NoDup_nil _)).
Defined.

(* ===================================================================== *)
(** ** The registry fetch and its errors *)
(* ===================================================================== *)






(* ===================================================================== *)
(** ** The snapshot store *)
(* ===================================================================== *)

Lemma remove_oldest_below fs n :
  0 < n -> List.length (remove_oldest fs n) < n.
Proof.
  intros P. induction fs as [|f fs IH]; simpl; [assumption|].
  destruct (n <=? S (List.length fs))%nat eqn:E; [assumption|].
  apply Nat.leb_gt in E. simpl. exact E.
Qed.

(** C7 (the code departs from it).  The claim: after more than four
    passes, exactly four historical snapshots remain, the four most
    recent.  [manage_files] removes the oldest file while there are
    [max_files] or more, so it never leaves four: after six passes three
    snapshots remain, those of the passes 3, 4 and 5. *)
Theorem C7_three_snapshots_retained :
  (forall directory,
     List.length (manage_files directory max_files) < max_files) /\
  map stamp (retained (passes six_passes [] no_files)) = [3; 4; 5]%Z /\
  List.length (retained (passes six_passes [] no_files)) = 3.
Proof.
  split; [|split; reflexivity].
  intros directory. apply remove_oldest_below. unfold max_files. lia.
Qed.

(* ===================================================================== *)
(** ** The tag parser of the registry fetcher *)
(* ===================================================================== *)

Lemma mem_char_append c (a b : string) :
  mem_char c (a ++ b)%string = mem_char c a || mem_char c b.
Proof.
  induction a as [|x a IH]; simpl; [reflexivity|].
  now rewrite IH, orb_assoc.
Qed.

(** No piece of [s.split(sep)] contains the separator. *)
Lemma split_pieces_free sep s :
  forall p, In p (split sep s) -> mem_char sep p = false.
Proof.
  induction s as [|c s IH]; simpl; intros p I.
  - destruct I as [<-|[]]. reflexivity.
  - destruct (Ascii.eqb c sep) eqn:E.
    + destruct I as [<-|I]; [reflexivity | now apply IH].
    + destruct (split sep s) as [|h t] eqn:S.
      * destruct I as [<-|[]]. simpl. now rewrite E.
      * destruct I as [<-|I].
        -- simpl. rewrite E. apply IH. now left.
        -- apply IH. now right.
Qed.

Lemma replace_from_cons old new skip a s :
  replace_from old new skip (String a s)
  = match skip with
    | S n => replace_from old new n s
    | O =>
        if String.prefix old (String a s)
        then (new ++ replace_from old new (String.length old - 1) s)%string
        else String a (replace_from old new 0 s)
    end.
Proof. reflexivity. Qed.

(** Removing occurrences of [old] brings no new character. *)
Lemma replace_from_removes c old s :
  forall skip,
    mem_char c s = false ->
    mem_char c (replace_from old EmptyString skip s) = false.
Proof.
  induction s as [|a s IH]; intros skip H; [reflexivity|].
  simpl in H. apply orb_false_iff in H. destruct H as [H1 H2].
  rewrite replace_from_cons. destruct skip as [|n].
  - destruct (String.prefix old (String a s)).
    + change (mem_char c (replace_from old EmptyString (String.length old - 1) s) = false).
      now apply IH.
    + change (Ascii.eqb a c || mem_char c (replace_from old EmptyString 0 s) = false).
      rewrite H1. now apply IH.
  - now apply IH.
Qed.

Lemma nth_split_free sep s n :
  mem_char sep (nth n (split sep s) EmptyString) = false.
Proof.
  destruct (nth_in_or_default n (split sep s) EmptyString) as [I|E].
  - now apply split_pieces_free with (s := s).
  - now rewrite E.
Qed.

(** The channel of a tag is never the key [current_version]. *)
Lemma tag_channel_not_current tag : tag_channel tag <> "current_version".
Proof.
  intros E.
  assert (H : mem_char "_" (tag_channel tag) = false).
  { unfold tag_channel, replace. apply replace_from_removes.
    apply nth_split_free. }
  rewrite E in H. discriminate H.
Qed.

Lemma KStr_neq (a b : string) : a <> b -> KStr a <> KStr b.
Proof. congruence. Qed.

(** What one round of the tag loop does to the dictionary. *)
Lemma registry_tag_step_spec acc cur :
  channels_are_lists acc ->
  exists d,
    registry_tag_step acc cur = Ok d /\
    channels_are_lists d /\
    (forall channel, channel <> "current_version" ->
       dget (KStr channel) d
       = if accepted cur && String.eqb (tag_channel cur) channel
         then Some (PList (ids_at acc channel ++ [PStr (tag_id cur)]))
         else dget (KStr channel) acc) /\
    dget (KStr "current_version") d
    = if accepted cur && str_in "cur" cur
      then Some (PStr (tag_id cur))
      else dget (KStr "current_version") acc.
Proof.
  intros W. unfold registry_tag_step.
  fold (accepted cur). fold (tag_id cur). fold (tag_channel cur).
  destruct (accepted cur) eqn:A; simpl.
  2:{ exists acc. repeat split; trivial. }
  pose proof (tag_channel_not_current cur) as NC.
  set (ch := tag_channel cur) in *. set (id := tag_id cur).
  assert (S : exists d1,
             (if dmem (KStr ch) acc
              then match dget (KStr ch) acc with
                   | Some (PList ids) =>
                       Ok (dset (KStr ch) (PList (ids ++ [PStr id])) acc)
                   | _ => Raise AttributeError
                   end
              else Ok (dset (KStr ch) (PList [PStr id]) acc)) = Ok d1 /\
             d1 = dset (KStr ch) (PList (ids_at acc ch ++ [PStr id])) acc).
  { rewrite dmem_dget. unfold ids_at. specialize (W ch NC).
    destruct (dget (KStr ch) acc) as [[| | | |l|]|]; try contradiction; eauto. }
  destruct S as (d1 & -> & ->). simpl.
  set (d1 := dset (KStr ch) (PList (ids_at acc ch ++ [PStr id])) acc).
  assert (G1 : forall channel, channel <> "current_version" ->
            dget (KStr channel) d1
            = if String.eqb ch channel
              then Some (PList (ids_at acc channel ++ [PStr id]))
              else dget (KStr channel) acc).
  { intros channel N. unfold d1. rewrite dget_dset.
    destruct (String.eqb ch channel) eqn:E.
    - apply String.eqb_eq in E. subst channel.
      destruct (pykey_eq_dec (KStr ch) (KStr ch)); congruence.
    - apply String.eqb_neq in E.
      destruct (pykey_eq_dec (KStr ch) (KStr channel)); congruence. }
  assert (G2 : dget (KStr "current_version") d1
               = dget (KStr "current_version") acc).
  { unfold d1. apply dget_dset_ne. congruence. }
  assert (W1 : channels_are_lists d1).
  { intros s N. rewrite (G1 s N). destruct (String.eqb ch s); trivial.
    now apply W. }
  destruct (str_in "cur" cur); eexists; (split; [reflexivity|]).
  - split; [|split].
    + intros s N. rewrite dget_dset_ne by (apply KStr_neq; congruence).
      now apply W1.
    + intros channel N.
      rewrite dget_dset_ne by (apply KStr_neq; congruence). now apply G1.
    + apply dget_dset_eq.
  - auto.
Qed.

Lemma ids_at_step acc d cur channel :
  channels_are_lists acc -> channel <> "current_version" ->
  dget (KStr channel) d
  = (if accepted cur && String.eqb (tag_channel cur) channel
     then Some (PList (ids_at acc channel ++ [PStr (tag_id cur)]))
     else dget (KStr channel) acc) ->
  ids_at d channel
  = ids_at acc channel ++
    (if accepted cur && String.eqb (tag_channel cur) channel
     then [PStr (tag_id cur)] else []).
Proof.
  intros W N G. unfold ids_at at 1. rewrite G.
  destruct (accepted cur && String.eqb (tag_channel cur) channel).
  - reflexivity.
  - now rewrite app_nil_r.
Qed.

(** The loop appends, to each channel, the build ids of its tags, and
    leaves the last marked build id under [current_version]. *)
Lemma registry_tag_loop_spec tags :
  forall acc,
    channels_are_lists acc ->
    exists d,
      registry_tag_loop acc tags = Ok d /\
      (forall channel, channel <> "current_version" ->
         dget (KStr channel) d
         = match ids_of channel tags with
           | [] => dget (KStr channel) acc
           | ids => Some (PList (ids_at acc channel ++ map PStr ids))
           end) /\
      dget (KStr "current_version") d
      = match last_marked tags with
        | Some p => Some (PStr p)
        | None => dget (KStr "current_version") acc
        end.
Proof.
  induction tags as [|cur rest IH]; intros acc W.
  - exists acc. simpl. auto.
  - destruct (registry_tag_step_spec acc cur W) as (d1 & S & W1 & G & C).
    destruct (IH d1 W1) as (d & L & Gd & Cd).
    exists d. split; [simpl; rewrite S; exact L|]. split.
    + intros channel N. rewrite (Gd channel N).
      pose proof (ids_at_step _ _ _ _ W N (G channel N)) as I.
      unfold ids_of in *. simpl.
      rewrite (G channel N), I.
      destruct (accepted cur && String.eqb (tag_channel cur) channel); simpl.
      * destruct (map tag_id _) as [|i ids]; simpl; [reflexivity|].
        now rewrite <- app_assoc.
      * now rewrite app_nil_r.
    + rewrite Cd. simpl. destruct (last_marked rest); trivial.
      rewrite C. now destruct (accepted cur && str_in "cur" cur).
Qed.

Lemma no_channel_yet : channels_are_lists [].
Proof. intros s _. exact I. Qed.

Lemma prefix_char c a s :
  String.prefix (String c EmptyString) (String a s) = Ascii.eqb c a.
Proof.
  simpl. destruct (ascii_dec c a) as [E|N].
  - subst. rewrite Ascii.eqb_refl. now destruct s.
  - symmetry. now apply Ascii.eqb_neq.
Qed.

(** *** The parser of the local image cache *)

Lemma str_in_char c s : str_in (String c EmptyString) s = mem_char c s.
Proof.
  induction s as [|a s IH].
  - reflexivity.
  - cbn [str_in mem_char]. rewrite prefix_char, IH.
    now rewrite (Ascii.eqb_sym c a).
Qed.

Lemma split1_first sep s :
  mem_char sep s = true ->
  split1 sep s = [before_first sep s; after_first sep s].
Proof.
  induction s as [|a s IH]; intros M; [discriminate M|].
  cbn [mem_char] in M. cbn [split1 before_first after_first].
  destruct (Ascii.eqb a sep); [reflexivity|].
  cbn [orb] in M. now rewrite (IH M).
Qed.

(** One round of the loop over the lines, through the reading of the
    line. *)
Lemma crictl_line_step_reading uri result line :
  crictl_line_step uri result line
  = match local_reading uri line with
    | None => Ok result
    | Some (image, channel, id) =>
        if dmem (KStr image) result then
          match dget (KStr image) result with
          | Some (PDict entry) =>
              Ok (dset (KStr image)
                    (PDict (dset (KStr channel) (PList [PStr id]) entry)) result)
          | _ => Raise TypeError
          end
        else Ok (dset (KStr image) (PDict [(KStr channel, PList [PStr id])]) result)
    end.
Proof.
  unfold crictl_line_step, local_reading, accepted.
  destruct (words line) as [|image [|tag l]]; try reflexivity.
  destruct (str_in "cur" tag); cbn [negb andb]; [|reflexivity].
  destruct (str_in "_" tag) eqn:U; cbn [andb]; [|reflexivity].
  destruct (negb (str_in "__" tag)); [|reflexivity].
  rewrite str_in_char in U. rewrite (split1_first _ _ U). reflexivity.
Qed.

Lemma local_entry_dset_other d image image' entry channel :
  image' <> image ->
  local_entry (dset (KStr image) entry d) image' channel
  = local_entry d image' channel.
Proof.
  intros N. unfold local_entry. rewrite dget_dset_ne; [reflexivity|].
  congruence.
Qed.

(** A line that is read sets the list of its image and channel to its
    build id alone, and leaves every other image and channel as it is. *)
Lemma crictl_line_step_entries uri result line :
  one_id_per_channel result ->
  exists result',
    crictl_line_step uri result line = Ok result' /\
    one_id_per_channel result' /\
    forall image channel,
      local_entry result' image channel
      = match local_reading uri line with
        | Some (m, c, id) =>
            if String.eqb m image && String.eqb c channel
            then Some (PList [PStr id])
            else local_entry result image channel
        | None => local_entry result image channel
        end.
Proof.
  intros W. rewrite crictl_line_step_reading.
  destruct (local_reading uri line) as [[[m c] id]|].
  2:{ exists result. auto. }
  rewrite dmem_dget.
  destruct (dget (KStr m) result) as [v|] eqn:G.
  - destruct (W _ _ G) as (e & -> & C).
    eexists. split; [reflexivity|]. split.
    + intros image' entry G'. rewrite dget_dset in G'.
      destruct (pykey_eq_dec (KStr m) image').
      * inversion G'; subst. eexists. split; [reflexivity|].
        intros ch v Gc. rewrite dget_dset in Gc.
        destruct (pykey_eq_dec _ ch); [inversion Gc; eauto | eapply C; eassumption].
      * eapply W; eassumption.
    + intros image channel.
      destruct (String.eqb m image) eqn:Em; cbn [andb].
      * apply String.eqb_eq in Em. subst image.
        unfold local_entry. rewrite dget_dset_eq, G.
        destruct (String.eqb c channel) eqn:Ec.
        -- apply String.eqb_eq in Ec. subst channel. apply dget_dset_eq.
        -- apply String.eqb_neq in Ec. apply dget_dset_ne. congruence.
      * apply String.eqb_neq in Em. apply local_entry_dset_other. congruence.
  - eexists. split; [reflexivity|]. split.
    + intros image' entry G'. rewrite dget_dset in G'.
      destruct (pykey_eq_dec (KStr m) image').
      * inversion G'; subst. eexists. split; [reflexivity|].
        intros ch v Gc. cbn [dget] in Gc.
        destruct (pykey_eq_dec ch _); [inversion Gc; eauto | discriminate].
      * eapply W; eassumption.
    + intros image channel.
      destruct (String.eqb m image) eqn:Em; cbn [andb].
      * apply String.eqb_eq in Em. subst image.
        unfold local_entry. rewrite dget_dset_eq, G. cbn [dget].
        destruct (String.eqb c channel) eqn:Ec.
        -- apply String.eqb_eq in Ec. subst channel.
           now destruct (pykey_eq_dec (KStr c) (KStr c)).
        -- apply String.eqb_neq in Ec.
           destruct (pykey_eq_dec (KStr channel) (KStr c)); congruence.
      * apply String.eqb_neq in Em. apply local_entry_dset_other. congruence.
Qed.

(** The loop leaves, for every image and channel, the build id of the
    last line read for them. *)
Lemma crictl_lines_entries uri lines :
  forall result,
    one_id_per_channel result ->
    exists result',
      crictl_lines uri result lines = Ok result' /\
      one_id_per_channel result' /\
      forall image channel,
        local_entry result' image channel
        = match local_id uri lines image channel with
          | Some id => Some (PList [PStr id])
          | None => local_entry result image channel
          end.
Proof.
  induction lines as [|line rest IH]; intros result W.
  - exists result. auto.
  - destruct (crictl_line_step_entries uri result line W) as (r1 & S & W1 & E1).
    destruct (IH r1 W1) as (r' & L & W' & E').
    exists r'. split; [cbn [crictl_lines]; rewrite S; exact L|].
    split; [exact W'|].
    intros image channel. rewrite E'. cbn [local_id].
    destruct (local_id uri rest image channel); [reflexivity|].
    rewrite E1.
    destruct (local_reading uri line) as [[[m c] id]|]; [|reflexivity].
    now destruct (String.eqb m image && String.eqb c channel).
Qed.

Lemma no_image_yet : one_id_per_channel [].
Proof. intros image entry G. discriminate G. Qed.

Lemma process_crictl_output_entries stdout uri :
  exists result,
    process_crictl_output stdout uri = Ok result /\
    one_id_per_channel result /\
    forall image channel,
      local_entry result image channel
      = option_map (fun id => PList [PStr id])
          (local_id uri (lines_read stdout) image channel).
Proof.
  unfold process_crictl_output, lines_read.
  rewrite removelast_firstn_len, <- Nat.sub_1_r.
  destruct (crictl_lines_entries uri
              (firstn (List.length (split newline (strip stdout)) - 1)
                 (split newline (strip stdout))) [] no_image_yet)
    as (r & L & W & E).
  exists r. split; [exact L|]. split; [exact W|].
  intros image channel. rewrite E.
  now destruct (local_id uri _ image channel).
Qed.

(** C4, as the claim states it, fails on its own example: read per
    channel, the parsed dictionary would have to give [abc123] as the
    current build of the default channel; it holds one current build for
    the whole repository, the last marked one. *)
Lemma C4_counterexample :
  ~ (exists d,
       registry_tags example_tags = Ok d /\
       channel_ids d "default" = Some (PList [PStr "abc123"; PStr "def456"]) /\
       channel_current d "default" = PStr "abc123" /\
       channel_ids d "canary" = Some (PList [PStr "xyz789"]) /\
       channel_current d "canary" = PStr "xyz789").
Proof.
  intros (d & P & _ & C & _).
  vm_compute in P. inversion P; subst d. vm_compute in C. discriminate C.
Qed.

(** C4 (amended).  For every tag list in which some tag contains ["cur"],
    the registry parser takes the tags that have an underscore and no
    doubled underscore, splits them on every underscore, keeps the first
    piece as build id and the second piece without ["-cur"] as channel,
    groups the build ids per channel in the order of the tags, and records
    the build id of the last taken tag containing ["cur"] under the single
    key [current_version] of the repository; it records nothing when no
    tag contains ["cur"].  On the example it yields
    [{default: [abc123, def456], current_version: xyz789, canary: [xyz789]}].
    The parser of the local image cache never fails; it drops the last
    line of the listing, reads the lines whose tag contains ["cur"], an
    underscore and no doubled underscore, splits the tag on its first
    underscore, and holds for every image and channel the one-element
    list of the build id of the last line read for them, and nothing
    else: every value it records is such a list, none is a current
    version. *)
Theorem C4_tags_grouped_one_current_version (tags : list string) :
  (exists d,
     registry_tags tags = Ok d /\
     forall key : string, dget (KStr key) d = expected_entry tags key) /\
  registry_tags example_tags
    = Ok [ (KStr "default", PList [PStr "abc123"; PStr "def456"]);
           (KStr "current_version", PStr "xyz789");
           (KStr "canary", PList [PStr "xyz789"]) ] /\
  (forall stdout uri,
     exists result,
       process_crictl_output stdout uri = Ok result /\
       one_id_per_channel result /\
       forall image channel,
         local_entry result image channel
         = option_map (fun id => PList [PStr id])
             (local_id uri (lines_read stdout) image channel)) /\
  process_crictl_output example_crictl "images.local"
    = Ok [(KStr "platform__api", PDict [(KStr "default", PList [PStr "abc123"])])].
Proof.
  split; [|split; [reflexivity|split; [|reflexivity]]].
  2:{ intros stdout uri. apply process_crictl_output_entries. }
  unfold registry_tags, expected_entry.
  destruct (existsb (str_in "cur") tags).
  - destruct (registry_tag_loop_spec tags [] no_channel_yet) as (d & L & G & C).
    exists d. split; [exact L|]. intros key.
    destruct (String.eqb key "current_version") eqn:E.
    + apply String.eqb_eq in E. subst key. rewrite C.
      now destruct (last_marked tags).
    + apply String.eqb_neq in E. rewrite (G key E).
      now destruct (ids_of key tags).
  - exists []. split; reflexivity.
Qed.

(* ===================================================================== *)
(** ** The component graph builder *)
(* ===================================================================== *)

Module PlatformFacts.
Import Platform.

(** Induction over a role and, through the list, its dependencies. *)
Lemma role_induction (P : role -> Prop) :
  (forall n p m f t ds, Forall P ds -> P (Role n p m f t ds)) ->
  forall r, P r.
Proof.
  intros H. fix IH 1. intros [n p m f t ds]. apply H.
  revert ds. fix IHds 1. intros [|d ds].
  - constructor.
  - constructor; [apply IH | apply IHds].
Qed.

Ltac bind_ok H :=
  match type of H with
  | bind ?c _ = _ =>
      let E := fresh "E" in
      destruct c eqn:E; [cbn [bind] in H | discriminate H]
  end.

Lemma add_resource_inv n p m f t ds gp g g' :
  add_resource (Role n p m f t ds) gp g = Ok g' ->
  (dmem (KStr (normalize_name n)) (resources g) = true /\ g' = g) \/
  (exists cp g1 g2 res by_kind,
     resources g1 = resources g /\
     add_dependencies cp ds g1 = Ok g2 /\
     group_requires (resources g2) (requires_of ds) [] = Ok by_kind /\
     resources g' = dset (KStr (normalize_name n)) res (resources g2) /\
     mrn res = normalize_name n /\
     requires res = requires_of ds /\
     requiredby res = []).
Proof.
  intros H. cbn [add_resource] in H.
  destruct (dmem _ (resources g)) eqn:M.
  { left. inversion H; auto. }
  right.
  destruct (resource_kind_from_role_path p) as [k|e]; [|discriminate H].
  cbn [bind] in H.
  bind_ok H. bind_ok H. bind_ok H.
  match type of H with
  | bind (?loop ds ?g1) _ = _ =>
      destruct (loop ds g1) as [g2|e] eqn:AD; [cbn [bind] in H | discriminate H]
  end.
  destruct (group_requires (resources g2) _ []) as [by_kind|e] eqn:GR;
    [cbn [bind] in H | discriminate H].
  bind_ok H.
  inversion H; subst g'; clear H.
  exists (match k with
          | executor => gp
          | _ => (gp ++ "/" ++ replace "_" "-" (last (split "." n) EmptyString))%string
          end).
  exists {| resources := resources g;
            resource_namespaces :=
              add_namespace (hd EmptyString (split "." n)) (resource_namespaces g) |}.
  exists g2. eexists. exists by_kind.
  split; [|split; [exact AD|]].
  - reflexivity.
  - split; [exact GR|]. repeat split.
Qed.

Lemma dmem_dset_mono {V} (k k' : pykey) (v : V) d :
  dmem k d = true -> dmem k (dset k' v d) = true.
Proof.
  rewrite !dmem_dget, dget_dset.
  destruct (pykey_eq_dec k' k); trivial.
Qed.

Lemma group_requires_registered rs reqs :
  forall acc by_kind,
    group_requires rs reqs acc = Ok by_kind ->
    forall d, In d reqs -> dmem (KStr d) rs = true.
Proof.
  induction reqs as [|r reqs IH]; intros acc by_kind H d I.
  - destruct I.
  - simpl in H. destruct (dget (KStr r) rs) as [require|] eqn:G; [|discriminate].
    destruct I as [<-|I].
    + now rewrite dmem_dget, G.
    + eapply IH; eassumption.
Qed.

(** What a call of [add_resource] keeps: the graph stays well built and
    no registered name is lost. *)
Definition keeps_well_built (r : role) : Prop :=
  forall gp g g',
    add_resource r gp g = Ok g' ->
    well_built (resources g) ->
    well_built (resources g') /\
    forall k, dmem k (resources g) = true -> dmem k (resources g') = true.

Lemma add_dependencies_well_built cp ds :
  Forall keeps_well_built ds ->
  forall g g',
    add_dependencies cp ds g = Ok g' ->
    well_built (resources g) ->
    well_built (resources g') /\
    forall k, dmem k (resources g) = true -> dmem k (resources g') = true.
Proof.
  induction 1 as [|d ds Hd _ IH]; intros g g' H W.
  - inversion H; subst. auto.
  - change (bind (add_resource d cp g) (add_dependencies cp ds) = Ok g') in H.
    destruct (add_resource d cp g) as [g1|e] eqn:A; [|discriminate H].
    destruct (Hd _ _ _ A W) as [W1 M1].
    destruct (IH _ _ H W1) as [W2 M2]. auto.
Qed.

Lemma well_built_register rs n res :
  well_built rs ->
  mrn res = n -> requiredby res = [] ->
  (forall d, In d (requires res) -> dmem (KStr d) rs = true) ->
  well_built (dset (KStr n) res rs).
Proof.
  intros W N E D k r G. rewrite dget_dset in G.
  destruct (pykey_eq_dec (KStr n) k) as [<-|K].
  - inversion G; subst r. repeat split; [congruence | assumption |].
    intros d I. apply dmem_dset_mono. now apply D.
  - destruct (W k r G) as (A & B & C). repeat split; trivial.
    intros d I. apply dmem_dset_mono. now apply C.
Qed.

Lemma add_resource_well_built r : keeps_well_built r.
Proof.
  induction r as [n p m f t ds IH] using role_induction.
  intros gp g g' H W.
  apply add_resource_inv in H.
  destruct H as [[_ ->] | (cp & g1 & g2 & res & bk & E1 & AD & GR & E' & N & R & B)].
  - auto.
  - rewrite <- E1 in W.
    destruct (add_dependencies_well_built _ _ IH _ _ AD W) as [W2 M2].
    rewrite E'. split.
    + apply well_built_register; trivial.
      intros d I. rewrite R in I.
      eapply group_requires_registered; eassumption.
    + intros k M. apply dmem_dset_mono. apply M2. now rewrite E1.
Qed.

Lemma add_roles_well_built play_name roles :
  forall g g',
    add_roles play_name roles g = Ok g' ->
    well_built (resources g) -> well_built (resources g').
Proof.
  induction roles as [|r roles IH]; intros g g' H W; simpl in H.
  - inversion H; subst. assumption.
  - destruct (add_resource r play_name g) as [g1|e] eqn:A; [|discriminate H].
    eapply IH; [exact H|]. now apply (add_resource_well_built r _ _ _ A).
Qed.

(** The first pass leaves a well-built graph. *)
Lemma build_resources_well_built plays :
  forall g g',
    build_resources plays g = Ok g' ->
    well_built (resources g) -> well_built (resources g').
Proof.
  induction plays as [|pl plays IH]; intros g g' H W; simpl in H.
  - inversion H; subst. assumption.
  - destruct (add_roles (fst pl) (snd pl) g) as [g1|e] eqn:A; [|discriminate H].
    eapply IH; [exact H|]. eapply add_roles_well_built; eassumption.
Qed.

Lemma empty_graph_well_built : well_built (resources empty_graph).
Proof. intros k r G. discriminate G. Qed.

(** *** The second pass *)

Lemma edges_added_refl rs : edges_added rs rs (fun _ _ => False).
Proof.
  intros k. destruct (dget k rs); trivial. repeat split; tauto.
Qed.

Lemma edges_added_trans rs rs1 rs2 (P Q PQ : string -> pykey -> Prop) :
  edges_added rs rs1 P -> edges_added rs1 rs2 Q ->
  (forall a k, PQ a k <-> P a k \/ Q a k) ->
  edges_added rs rs2 PQ.
Proof.
  intros H1 H2 E k. specialize (H1 k). specialize (H2 k).
  destruct (dget k rs) as [r|], (dget k rs1) as [r1|], (dget k rs2) as [r2|];
    try tauto.
  destruct H1 as (A1 & B1 & C1), H2 as (A2 & B2 & C2).
  repeat split; try congruence.
  - intros I. apply C2 in I. rewrite C1 in I. rewrite E. tauto.
  - intros I. apply C2. rewrite C1. rewrite E in I. tauto.
Qed.

Lemma edges_added_domain rs rs' P k :
  edges_added rs rs' P -> dmem k rs' = dmem k rs.
Proof.
  intros H. specialize (H k). rewrite !dmem_dget.
  destruct (dget k rs), (dget k rs'); tauto.
Qed.

Lemma append_requiredby_spec rs resource_name dep_name :
  dmem (KStr dep_name) rs = true ->
  exists rs',
    append_requiredby rs resource_name dep_name = Ok rs' /\
    edges_added rs rs'
      (fun a k => a = key_name resource_name /\ k = KStr dep_name).
Proof.
  rewrite dmem_dget. unfold append_requiredby.
  destruct (dget (KStr dep_name) rs) as [dep|] eqn:G; [|discriminate].
  intros _. eexists. split; [reflexivity|].
  intros k. rewrite dget_dset.
  destruct (pykey_eq_dec (KStr dep_name) k) as [<-|N].
  - rewrite G. simpl. repeat split; trivial.
    + intros I. apply in_app_or in I. destruct I as [I|[<-|[]]]; auto.
    + intros [I|[-> _]]; apply in_or_app; simpl; auto.
  - destruct (dget k rs); trivial. repeat split; try tauto.
    intros [I|[_ E]]; [assumption | congruence].
Qed.

Lemma append_all_spec resource_name deps :
  forall rs,
    (forall d, In d deps -> dmem (KStr d) rs = true) ->
    exists rs',
      append_all rs resource_name deps = Ok rs' /\
      edges_added rs rs'
        (fun a k => a = key_name resource_name /\
                    exists d, In d deps /\ k = KStr d).
Proof.
  induction deps as [|dep deps IH]; intros rs D.
  - exists rs. split; [reflexivity|].
    eapply edges_added_trans;
      [apply edges_added_refl | apply edges_added_refl |].
    intros a k. split; [|tauto]. intros (_ & d & [] & _).
  - destruct (append_requiredby_spec rs resource_name dep) as (rs1 & A & E1).
    { apply D. now left. }
    destruct (IH rs1) as (rs' & L & E2).
    { intros d I. rewrite (edges_added_domain _ _ _ _ E1). apply D. now right. }
    exists rs'. split; [simpl; rewrite A; exact L|].
    eapply edges_added_trans; [exact E1 | exact E2 |].
    intros a k. split.
    + intros (N & d & [<-|I] & K); [left; auto | right; eauto].
    + intros [(N & K) | (N & d & I & K)]; split; trivial.
      * exists dep. split; [now left | assumption].
      * exists d. split; [now right | assumption].
Qed.

Lemma inverse_edges_spec rs0 names :
  (forall k r, dget k rs0 = Some r ->
     forall d, In d (requires r) -> dmem (KStr d) rs0 = true) ->
  (forall key, In key names -> dmem key rs0 = true) ->
  forall rs P,
    edges_added rs0 rs P ->
    exists rs',
      inverse_edges rs names = Ok rs' /\
      edges_added rs rs'
        (fun a k => exists key r,
           In key names /\ dget key rs0 = Some r /\ a = key_name key /\
           exists d, In d (requires r) /\ k = KStr d).
Proof.
  intros D. induction names as [|name names IH]; intros N rs P E.
  - exists rs. split; [reflexivity|].
    eapply edges_added_trans;
      [apply edges_added_refl | apply edges_added_refl |].
    intros a k. split; [|tauto]. intros (key & r & [] & _).
  - assert (M : dmem name rs0 = true) by (apply N; now left).
    rewrite dmem_dget in M. pose proof (E name) as En.
    destruct (dget name rs0) as [r0|] eqn:G0; [|discriminate].
    destruct (dget name rs) as [r|] eqn:G; [|contradiction].
    destruct En as (_ & R & _).
    destruct (append_all_spec name (requires r) rs) as (rs1 & A & E1).
    { intros d I. rewrite (edges_added_domain _ _ _ _ E).
      apply (D _ _ G0). now rewrite <- R. }
    destruct (IH (fun key I => N key (or_intror I)) rs1
                 (fun a k => P a k \/
                    (a = key_name name /\ exists d, In d (requires r) /\ k = KStr d)))
      as (rs' & L & E2).
    { eapply edges_added_trans; [exact E | exact E1 |]. tauto. }
    exists rs'. split; [simpl; rewrite G; simpl; rewrite A; exact L|].
    eapply edges_added_trans; [exact E1 | exact E2 |].
    intros a k. split.
    + intros (key & r1 & [<-|I] & G1 & Na & d & Id & K).
      * left. split; trivial. exists d. split; [|assumption].
        rewrite R. congruence.
      * right. exists key, r1. split; [exact I|]. split; [exact G1|].
        split; [exact Na|]. exists d. auto.
    + intros [(Na & d & Id & K) | (key & r1 & I & G1 & Na & d & Id & K)].
      * exists name, r0. split; [now left|]. split; trivial. split; trivial.
        exists d. split; [|assumption]. now rewrite <- R.
      * exists key, r1. split; [now right|]. split; [exact G1|].
        split; [exact Na|]. exists d. auto.
Qed.

Lemma In_dkeys_dmem_inv {V} (k : pykey) (d : list (pykey * V)) :
  dget k d <> None -> In k (dkeys d).
Proof.
  induction d as [|[k' v] d IH]; simpl; [congruence|].
  destruct (pykey_eq_dec k k'); [auto | intros H; right; auto].
Qed.

Lemma In_dkeys_dmem {V} (k : pykey) (d : list (pykey * V)) :
  In k (dkeys d) -> dmem k d = true.
Proof.
  intros I. rewrite dmem_dget.
  destruct (dget k d) eqn:G; trivial.
  exfalso. now apply (dget_None_notin _ _ G).
Qed.

(** On a well-built graph the second pass goes through, and adds to each
    [requiredby] list exactly the names of the components that require
    it. *)
Lemma process_resources_dependencies_spec rs :
  well_built rs ->
  exists g,
    process_resources_dependencies rs = Ok g /\
    edges_added rs g
      (fun a k => exists key r,
         dget key rs = Some r /\ a = key_name key /\
         exists d, In d (requires r) /\ k = KStr d).
Proof.
  intros W. unfold process_resources_dependencies.
  destruct (inverse_edges_spec rs (dkeys rs)) with (rs := rs) (P := fun (_ : string) (_ : pykey) => False)
    as (g & H & E).
  - intros k r G. apply (W k r G).
  - intros key. apply In_dkeys_dmem.
  - apply edges_added_refl.
  - exists g. split; [exact H|].
    eapply edges_added_trans; [apply edges_added_refl | exact E |].
    intros a k. split.
    + intros (key & r & G & Na & D). right. exists key, r.
      split; [|auto]. apply In_dkeys_dmem_inv. congruence.
    + intros [[]|(key & r & _ & G & Na & D)]. exists key, r. auto.
Qed.

(* ===================================================================== *)
(** ** The component graph builder: the properties *)
(* ===================================================================== *)

(** Whatever the role, a missing metadata file stops [add_resource] at the
    lookup of the author, as soon as the role is new and its kind is
    known. *)
Lemma missing_metadata_raises n p f t ds gp g k :
  dmem (KStr (normalize_name n)) (resources g) = false ->
  resource_kind_from_role_path p = Ok k ->
  add_resource (Role n p MetaMissing f t ds) gp g
  = Raise (KeyError (KStr "author")).
Proof.
  intros M K. cbn [add_resource]. rewrite M, K. reflexivity.
Qed.

(** C6 (the code departs from it).  The claim: a component whose metadata
    file is missing is still created, with its kind and identifiers, no
    author, no description and the version ["unknown"].  What the code
    does: [metadata] returns the empty dictionary and [add_resource] then
    reads [metadata['author']] from it, which raises [KeyError]; the
    construction of the graph stops there. *)
Theorem C6_missing_metadata_aborts_construction :
  metadata MetaMissing = empty_plasma /\
  add_resource role_ui "platform" empty_graph
    = Raise (KeyError (KStr "author")) /\
  populate [("platform", [role_ui])] = Raise (KeyError (KStr "author")).
Proof. repeat split. Qed.

(** C9.  When the first pass has built the graph, the second pass goes
    through and, for all components [A] and [B] of the resulting graph,
    [B.mrn] is in [A.requires] if and only if [A.mrn] is in
    [B.requiredby]. *)
Theorem C9_requires_iff_requiredby (plays : list play) (built : graph) :
  build_resources plays empty_graph = Ok built ->
  exists g,
    populate plays = Ok g /\
    forall a b A B,
      dget a g = Some A -> dget b g = Some B ->
      (In (mrn B) (requires A) <-> In (mrn A) (requiredby B)).
Proof.
  intros H.
  assert (W : well_built (resources built)).
  { eapply build_resources_well_built;
      [exact H | apply empty_graph_well_built]. }
  destruct (process_resources_dependencies_spec _ W) as (g & P & E).
  exists g. split.
  { unfold populate. rewrite H. exact P. }
  intros a b A B GA GB.
  pose proof (E a) as Ea. pose proof (E b) as Eb. rewrite GA in Ea. rewrite GB in Eb.
  destruct (dget a (resources built)) as [A0|] eqn:GA0; [|contradiction].
  destruct (dget b (resources built)) as [B0|] eqn:GB0; [|contradiction].
  destruct Ea as (NA & RA & _). destruct Eb as (NB & _ & CB).
  destruct (W _ _ GA0) as (KA & _ & _).
  destruct (W _ _ GB0) as (KB & EB & _).
  rewrite RA, NA, NB. split.
  - intros I. apply CB. right. exists a, A0.
    split; [exact GA0|]. split; [now rewrite KA|].
    exists (mrn B0). auto.
  - intros I. apply CB in I. rewrite EB in I.
    destruct I as [[]|(key & r & G & Na & d & Id & K)].
    destruct (W _ _ G) as (Kr & _ & _).
    assert (key = a).
    { rewrite Kr, KA. f_equal. rewrite Kr in Na. simpl in Na. congruence. }
    subst key. assert (r = A0) by congruence. subst r.
    assert (d = mrn B0) by congruence. now subst d.
Qed.

Lemma C9_witness :
  exists g,
    populate example_plays = Ok g /\
    forall a b A B,
      dget a g = Some A -> dget b g = Some B ->
      (In (mrn B) (requires A) <-> In (mrn A) (requiredby B)).
Proof.
  exact (C9_requires_iff_requiredby example_plays example_built eq_refl).
Defined.

End PlatformFacts.

(* ===================================================================== *)
(** ** Strings: replacing a character, splitting and joining *)
(* ===================================================================== *)

(** Replacing a one-character [old]: each occurrence gives way to [new]. *)
Lemma replace_char_cons c new a s :
  replace (String c EmptyString) new (String a s)
  = if Ascii.eqb c a
    then (new ++ replace (String c EmptyString) new s)%string
    else String a (replace (String c EmptyString) new s).
Proof.
  unfold replace. rewrite replace_from_cons, prefix_char. reflexivity.
Qed.

Lemma replace_char_removes c new s :
  mem_char c new = false ->
  mem_char c (replace (String c EmptyString) new s) = false.
Proof.
  intros N. induction s as [|a s IH]; [reflexivity|].
  rewrite replace_char_cons. destruct (Ascii.eqb c a) eqn:E.
  - now rewrite mem_char_append, N, IH.
  - simpl. rewrite IH. rewrite Ascii.eqb_sym, E. reflexivity.
Qed.

Lemma replace_char_brings_nothing x c new s :
  mem_char x new = false -> mem_char x s = false ->
  mem_char x (replace (String c EmptyString) new s) = false.
Proof.
  intros N. induction s as [|a s IH]; intros H; [reflexivity|].
  simpl in H. apply orb_false_iff in H. destruct H as [H1 H2].
  rewrite replace_char_cons. destruct (Ascii.eqb c a).
  - rewrite mem_char_append, N. now apply IH.
  - simpl. rewrite H1. now apply IH.
Qed.

Lemma replace_char_absent c new s :
  mem_char c s = false -> replace (String c EmptyString) new s = s.
Proof.
  induction s as [|a s IH]; intros H; [reflexivity|].
  simpl in H. apply orb_false_iff in H. destruct H as [H1 H2].
  rewrite replace_char_cons, Ascii.eqb_sym, H1. now rewrite IH.
Qed.

Lemma split_nonempty sep s : split sep s <> [].
Proof.
  destruct s as [|c s]; simpl; [discriminate|].
  destruct (Ascii.eqb c sep); [discriminate|].
  destruct (split sep s); discriminate.
Qed.

Lemma split_absent sep s : mem_char sep s = false -> split sep s = [s].
Proof.
  induction s as [|c s IH]; intros H; [reflexivity|].
  simpl in H. apply orb_false_iff in H. destruct H as [H1 H2].
  simpl. rewrite H1, (IH H2). reflexivity.
Qed.

(** Splitting a text made of two parts around a separator. *)
Lemma split_app sep a b :
  split sep (a ++ String sep b)%string = split sep a ++ split sep b.
Proof.
  induction a as [|c a IH]; simpl.
  - now rewrite Ascii.eqb_refl.
  - rewrite IH. destruct (Ascii.eqb c sep); [reflexivity|].
    destruct (split sep a) as [|h t] eqn:S.
    + now apply split_nonempty in S.
    + reflexivity.
Qed.

(** Joining the pieces of a split gives the text back. *)
Lemma join_split sep s : join (String sep EmptyString) (split sep s) = s.
Proof.
  induction s as [|c s IH]; [reflexivity|].
  simpl. destruct (Ascii.eqb c sep) eqn:E.
  - apply Ascii.eqb_eq in E. subst c.
    destruct (split sep s) as [|h t] eqn:S.
    + now apply split_nonempty in S.
    + change (join (String sep EmptyString) (EmptyString :: h :: t))
        with (String sep (join (String sep EmptyString) (h :: t))).
      now rewrite IH.
  - destruct (split sep s) as [|h t] eqn:S.
    + now apply split_nonempty in S.
    + destruct t as [|h' t'].
      * simpl in *. now rewrite IH.
      * change (join (String sep EmptyString) (String c h :: h' :: t'))
          with (String c (join (String sep EmptyString) (h :: h' :: t'))).
        now rewrite IH.
Qed.

Lemma string_app_assoc (a b c : string) :
  ((a ++ b) ++ c)%string = (a ++ b ++ c)%string.
Proof.
  induction a as [|x a IH]; simpl; [reflexivity|]. now rewrite IH.
Qed.

(* ===================================================================== *)
(** ** The component graph: names, uniqueness, memoisation, closure *)
(* ===================================================================== *)

Module GraphFacts.
Import Platform.

(** X1.  A normalized name holds neither a dash nor a dot, and
    normalizing it again changes nothing. *)
Theorem normalize_name_clean_and_idempotent (n : string) :
  mem_char "-" (normalize_name n) = false /\
  mem_char "." (normalize_name n) = false /\
  normalize_name (normalize_name n) = normalize_name n.
Proof.
  assert (D : mem_char "-" (normalize_name n) = false).
  { unfold normalize_name. apply replace_char_brings_nothing; [reflexivity|].
    now apply replace_char_removes. }
  assert (P : mem_char "." (normalize_name n) = false).
  { unfold normalize_name. now apply replace_char_removes. }
  repeat split; trivial.
  unfold normalize_name at 1.
  rewrite (replace_char_absent "-" _ _ D). now apply replace_char_absent.
Qed.

Lemma add_resource_registered r gp g :
  dmem (KStr (normalize_name (get_name r))) (resources g) = true ->
  add_resource r gp g = Ok g.
Proof.
  destruct r as [n p m f t ds]. simpl get_name. intros M.
  cbn [add_resource]. now rewrite M.
Qed.

Lemma add_resource_registers r gp g g' :
  add_resource r gp g = Ok g' ->
  dmem (KStr (normalize_name (get_name r))) (resources g') = true.
Proof.
  destruct r as [n p m f t ds]. simpl get_name. intros H.
  apply PlatformFacts.add_resource_inv in H.
  destruct H as [[M ->] | (cp & g1 & g2 & res & bk & _ & _ & _ & E & _)].
  - exact M.
  - rewrite E, dmem_dget. now rewrite dget_dset_eq.
Qed.

(** The keys of the graph stay pairwise distinct. *)
Lemma add_resource_distinct r :
  forall gp g g',
    add_resource r gp g = Ok g' ->
    NoDup (dkeys (resources g)) -> NoDup (dkeys (resources g')).
Proof.
  induction r as [n p m f t ds IH] using PlatformFacts.role_induction.
  intros gp g g' H ND.
  apply PlatformFacts.add_resource_inv in H.
  destruct H as [[_ ->] | (cp & g1 & g2 & res & bk & E1 & AD & _ & E & _)];
    [assumption|].
  rewrite E. apply NoDup_dset. rewrite <- E1 in ND.
  clear E E1. revert g1 g2 AD ND.
  induction IH as [|d ds Hd _ IHds]; intros g1 g2 AD ND.
  - inversion AD; subst. assumption.
  - change (bind (add_resource d cp g1) (add_dependencies cp ds) = Ok g2) in AD.
    destruct (add_resource d cp g1) as [g3|e] eqn:A; [|discriminate AD].
    eapply IHds; [exact AD|]. eapply Hd; eassumption.
Qed.

(** What holds of the graph after each step of the first pass. *)
Lemma add_roles_invariants play_name roles :
  forall g g',
    add_roles play_name roles g = Ok g' ->
    well_built (resources g) -> NoDup (dkeys (resources g)) ->
    well_built (resources g') /\ NoDup (dkeys (resources g')) /\
    (forall k, dmem k (resources g) = true -> dmem k (resources g') = true) /\
    (forall r, In r roles ->
       dmem (KStr (normalize_name (get_name r))) (resources g') = true).
Proof.
  induction roles as [|r roles IH]; intros g g' H W ND; simpl in H.
  - inversion H; subst. split; [|split; [|split]]; trivial. intros r [].
  - destruct (add_resource r play_name g) as [g1|e] eqn:A; [|discriminate H].
    destruct (PlatformFacts.add_resource_well_built r _ _ _ A W) as [W1 M1].
    pose proof (add_resource_distinct r _ _ _ A ND) as ND1.
    destruct (IH _ _ H W1 ND1) as (W' & ND' & M' & R').
    split; [|split; [|split]]; trivial.
    + intros k M. apply M', M1, M.
    + intros r0 [<-|I]; [|now apply R'].
      apply M'. eapply add_resource_registers; eassumption.
Qed.

Lemma build_resources_invariants plays :
  forall g g',
    build_resources plays g = Ok g' ->
    well_built (resources g) -> NoDup (dkeys (resources g)) ->
    well_built (resources g') /\ NoDup (dkeys (resources g')) /\
    (forall k, dmem k (resources g) = true -> dmem k (resources g') = true) /\
    (forall pl r, In pl plays -> In r (snd pl) ->
       dmem (KStr (normalize_name (get_name r))) (resources g') = true).
Proof.
  induction plays as [|pl plays IH]; intros g g' H W ND; simpl in H.
  - inversion H; subst. split; [|split; [|split]]; trivial. intros pl r [].
  - destruct (add_roles (fst pl) (snd pl) g) as [g1|e] eqn:A; [|discriminate H].
    destruct (add_roles_invariants _ _ _ _ A W ND) as (W1 & ND1 & M1 & R1).
    destruct (IH _ _ H W1 ND1) as (W' & ND' & M' & R').
    split; [|split; [|split]]; trivial.
    + intros k M. apply M', M1, M.
    + intros pl0 r [<-|I] Ir; [|eapply R'; eassumption].
      apply M'. now apply R1.
Qed.

Lemma add_roles_registered play_name roles g :
  (forall r, In r roles ->
     dmem (KStr (normalize_name (get_name r))) (resources g) = true) ->
  add_roles play_name roles g = Ok g.
Proof.
  induction roles as [|r roles IH]; intros R; simpl; [reflexivity|].
  rewrite add_resource_registered by (apply R; now left). simpl.
  apply IH. intros r0 I. apply R. now right.
Qed.

(** X2.  The builder memoizes by name: once the graph is built, building
    again from the same plays adds nothing and changes nothing. *)
Theorem build_resources_again_changes_nothing (plays : list play) (g : graph) :
  build_resources plays empty_graph = Ok g ->
  build_resources plays g = Ok g.
Proof.
  intros H.
  destruct (build_resources_invariants _ _ _ H
              PlatformFacts.empty_graph_well_built (NoDup_nil _))
    as (_ & _ & _ & R).
  clear H. induction plays as [|pl plays IH]; simpl; [reflexivity|].
  rewrite add_roles_registered.
  - simpl. apply IH. intros pl0 r I. apply R. now right.
  - intros r I. apply (R pl r); [now left | assumption].
Qed.

Lemma build_resources_again_witness :
  build_resources example_plays example_built = Ok example_built.
Proof.
  exact (build_resources_again_changes_nothing example_plays example_built
           eq_refl).
Defined.

Lemma edges_added_keys rs rs' P :
  edges_added rs rs' P ->
  forall k, dmem k rs' = dmem k rs.
Proof.
  intros E k. eapply PlatformFacts.edges_added_domain. exact E.
Qed.

Lemma dkeys_dset_present {V} (k : pykey) (v : V) d :
  dmem k d = true -> dkeys (dset k v d) = dkeys d.
Proof.
  intros M. now rewrite dkeys_dset, M.
Qed.

Lemma append_all_keys name deps :
  forall rs rs',
    append_all rs name deps = Ok rs' -> dkeys rs' = dkeys rs.
Proof.
  induction deps as [|d deps IH]; intros rs rs' H; simpl in H.
  - now inversion H.
  - unfold append_requiredby in H.
    destruct (dget (KStr d) rs) as [dep|] eqn:G; [|discriminate H].
    simpl in H. rewrite (IH _ _ H). apply dkeys_dset_present.
    now rewrite dmem_dget, G.
Qed.

Lemma inverse_edges_keys names :
  forall rs rs',
    inverse_edges rs names = Ok rs' -> dkeys rs' = dkeys rs.
Proof.
  induction names as [|n names IH]; intros rs rs' H; simpl in H.
  - now inversion H.
  - destruct (dget n rs) as [res|]; [|discriminate H].
    destruct (append_all rs n (requires res)) as [rs1|e] eqn:A;
      [|discriminate H].
    simpl in H. rewrite (IH _ _ H). eapply append_all_keys; eassumption.
Qed.

(** The finished graph, as [populate] returns it. *)
Lemma populate_inv plays g :
  populate plays = Ok g ->
  exists built,
    build_resources plays empty_graph = Ok built /\
    well_built (resources built) /\
    NoDup (dkeys (resources built)) /\
    dkeys g = dkeys (resources built) /\
    edges_added (resources built) g
      (fun a k => exists key r,
         dget key (resources built) = Some r /\ a = key_name key /\
         exists d, In d (requires r) /\ k = KStr d).
Proof.
  unfold populate. intros H.
  destruct (build_resources plays empty_graph) as [built|e] eqn:B;
    [|discriminate H].
  simpl in H.
  destruct (build_resources_invariants _ _ _ B
              PlatformFacts.empty_graph_well_built (NoDup_nil _))
    as (W & ND & _ & _).
  destruct (PlatformFacts.process_resources_dependencies_spec _ W)
    as (g0 & P & E).
  assert (g0 = g) by congruence. subst g0.
  exists built. split; [reflexivity|]. split; [exact W|]. split; [exact ND|].
  split; [|exact E]. eapply inverse_edges_keys. exact H.
Qed.

(** X3.  In the finished graph every component is registered under its
    own [mrn], and no two entries share an [mrn]. *)
Theorem populate_mrn_unique (plays : list play) (g : list (pykey * resource)) :
  populate plays = Ok g ->
  NoDup (dkeys g) /\
  (forall k r, In (k, r) g -> k = KStr (mrn r)) /\
  (forall k1 r1 k2 r2,
     In (k1, r1) g -> In (k2, r2) g -> mrn r1 = mrn r2 ->
     k1 = k2 /\ r1 = r2).
Proof.
  intros H. destruct (populate_inv _ _ H) as (built & _ & W & ND & K & E).
  assert (NDg : NoDup (dkeys g)) by now rewrite K.
  assert (Key : forall k r, In (k, r) g -> k = KStr (mrn r)).
  { intros k r I. apply (In_dget _ _ _ NDg) in I.
    pose proof (E k) as Ek. rewrite I in Ek.
    destruct (dget k (resources built)) as [r0|] eqn:G0; [|contradiction].
    destruct Ek as (N & _). rewrite N. apply (W _ _ G0). }
  split; [exact NDg|]. split; [exact Key|].
  intros k1 r1 k2 r2 I1 I2 M.
  assert (k1 = k2) by (rewrite (Key _ _ I1), (Key _ _ I2); congruence).
  subst k2. split; [reflexivity|].
  apply (In_dget _ _ _ NDg) in I1, I2. congruence.
Qed.

Lemma populate_mrn_unique_witness :
  exists g,
    populate example_plays = Ok g /\
    NoDup (dkeys g) /\
    (forall k r, In (k, r) g -> k = KStr (mrn r)) /\
    (forall k1 r1 k2 r2,
       In (k1, r1) g -> In (k2, r2) g -> mrn r1 = mrn r2 ->
       k1 = k2 /\ r1 = r2).
Proof.
  eexists. split; [reflexivity|].
  exact (populate_mrn_unique example_plays _ eq_refl).
Defined.

(** X4.  The finished graph is closed: every name a component requires,
    and every name it is required by, is the key of a component of the
    graph. *)
Theorem populate_graph_closed (plays : list play) (g : list (pykey * resource)) :
  populate plays = Ok g ->
  forall k r, dget k g = Some r ->
    (forall d, In d (requires r) -> dmem (KStr d) g = true) /\
    (forall a, In a (requiredby r) -> dmem (KStr a) g = true).
Proof.
  intros H k r G. destruct (populate_inv _ _ H) as (built & _ & W & ND & K & E).
  pose proof (E k) as Ek. rewrite G in Ek.
  destruct (dget k (resources built)) as [r0|] eqn:G0; [|contradiction].
  destruct Ek as (_ & R & C). destruct (W _ _ G0) as (_ & B0 & D0).
  split.
  - intros d I. rewrite (edges_added_keys _ _ _ E). apply D0. now rewrite <- R.
  - intros a I. apply C in I. rewrite B0 in I.
    destruct I as [[]|(key & ra & Ga & -> & _)].
    rewrite (edges_added_keys _ _ _ E).
    assert (Kk : key = KStr (mrn ra)) by apply (W _ _ Ga).
    rewrite Kk. simpl. rewrite <- Kk. now rewrite dmem_dget, Ga.
Qed.

Lemma populate_graph_closed_witness :
  exists g,
    populate example_plays = Ok g /\
    forall k r, dget k g = Some r ->
      (forall d, In d (requires r) -> dmem (KStr d) g = true) /\
      (forall a, In a (requiredby r) -> dmem (KStr a) g = true).
Proof.
  eexists. split; [reflexivity|].
  exact (populate_graph_closed example_plays _ eq_refl).
Defined.

End GraphFacts.

(* ===================================================================== *)
(** ** Image references and included roles *)
(* ===================================================================== *)

Lemma join_app_last sep l x :
  l <> [] ->
  join sep (l ++ [x]) = (join sep l ++ sep ++ x)%string.
Proof.
  induction l as [|a l IH]; intros N; [congruence|].
  destruct l as [|b l].
  - reflexivity.
  - change (join sep ((a :: b :: l) ++ [x]))
      with (a ++ sep ++ join sep ((b :: l) ++ [x]))%string.
    rewrite IH by discriminate.
    change (join sep (a :: b :: l)) with (a ++ sep ++ join sep (b :: l))%string.
    now rewrite !string_app_assoc.
Qed.

Lemma split_single sep s x : split sep s = [x] -> mem_char sep s = false.
Proof.
  intros E. pose proof (join_split sep s) as J. rewrite E in J. simpl in J.
  subst x. apply (split_pieces_free sep s). rewrite E. now left.
Qed.

(** X5.  An image reference that holds a colon is its uri, a colon and
    its tag: [machine_image_uri] and [machine_image_tag] cut it at its last
    colon, so the tag holds none. *)
Theorem image_reference_is_uri_colon_tag (mri : string) :
  mem_char ":" mri = true ->
  (machine_image_uri mri ++ ":" ++ machine_image_tag mri)%string = mri /\
  mem_char ":" (machine_image_tag mri) = false.
Proof.
  intros C. unfold machine_image_uri, machine_image_tag.
  pose proof (split_nonempty ":" mri) as NE.
  pose proof (app_removelast_last EmptyString NE) as D.
  assert (R : removelast (split ":" mri) <> []).
  { intros R. rewrite R in D. simpl in D.
    apply split_single in D. congruence. }
  split.
  - rewrite <- (join_app_last ":" _ _ R), <- D. apply join_split.
  - apply (split_pieces_free ":" mri). rewrite D at 2.
    apply in_or_app. right. now left.
Qed.

Lemma image_reference_is_uri_colon_tag_witness :
  (machine_image_uri "registry/platform/api:7_default" ++ ":"
     ++ machine_image_tag "registry/platform/api:7_default")%string
  = "registry/platform/api:7_default" /\
  mem_char ":" (machine_image_tag "registry/platform/api:7_default") = false.
Proof.
  exact (image_reference_is_uri_colon_tag "registry/platform/api:7_default"
           eq_refl).
Defined.

Lemma uri_and_tag_of_composed a b :
  mem_char ":" b = false ->
  machine_image_uri (a ++ String ":" b) = a /\
  machine_image_tag (a ++ String ":" b) = b.
Proof.
  intros N. unfold machine_image_uri, machine_image_tag.
  rewrite split_app, (split_absent _ _ N). split.
  - rewrite removelast_last. apply join_split.
  - apply last_last.
Qed.

Lemma fold_dset_get (f : string -> pyval) tags t :
  forall acc : dict,
    In t tags \/ dget (KStr t) acc = Some (f t) ->
    dget (KStr t)
      (fold_left (fun images tag => dset (KStr tag) (f tag) images) tags acc)
    = Some (f t).
Proof.
  induction tags as [|tag tags IH]; intros acc H; simpl.
  - destruct H as [[]|H]. exact H.
  - apply IH. destruct H as [[->|I]|H].
    + right. apply dget_dset_eq.
    + now left.
    + right. rewrite dget_dset. destruct (pykey_eq_dec (KStr tag) (KStr t)) as [E|E].
      * now inversion E.
      * exact H.
Qed.

Module ImageFacts.
Import Platform.

(** X6.  For a kind that produces an image, [images_by_tags] gives every
    declared channel its reference, and, when neither the version nor the
    channel holds a colon, the filters read the tag [version_channel] and
    the uri back from it. *)
Theorem images_by_tags_read_back (k : kind) (n v : string)
    (tags : list string) (tag : string) :
  resource_has_image k = true ->
  In tag tags ->
  mem_char ":" v = false -> mem_char ":" tag = false ->
  dget (KStr tag) (images_by_tags k n v tags)
    = Some (PStr (image_reference n v tag)) /\
  machine_image_tag (image_reference n v tag) = (v ++ "_" ++ tag)%string /\
  machine_image_uri (image_reference n v tag)
    = ("images.foundation.svc.{{ machine_platform_name }}/"
         ++ replace "_" "-" (replace "__" "/" n))%string.
Proof.
  intros K I Nv Nt. split.
  - unfold images_by_tags. rewrite K.
    apply (fold_dset_get (fun tag => PStr (image_reference n v tag))).
    now left.
  - assert (N : mem_char ":" (v ++ "_" ++ tag)%string = false).
    { now rewrite !mem_char_append, Nv, Nt. }
    destruct (uri_and_tag_of_composed
                ("images.foundation.svc.{{ machine_platform_name }}/"
                   ++ replace "_" "-" (replace "__" "/" n))%string
                _ N) as [U T].
    rewrite string_app_assoc in U, T.
    split; [exact T | exact U].
Qed.

Lemma images_by_tags_read_back_witness :
  dget (KStr "default") (images_by_tags service "data__db" "7" ["default"])
    = Some (PStr (image_reference "data__db" "7" "default")) /\
  machine_image_tag (image_reference "data__db" "7" "default")
    = ("7" ++ "_" ++ "default")%string /\
  machine_image_uri (image_reference "data__db" "7" "default")
    = ("images.foundation.svc.{{ machine_platform_name }}/"
         ++ replace "_" "-" (replace "__" "/" "data__db"))%string.
Proof.
  exact (images_by_tags_read_back service "data__db" "7" ["default"] "default"
           eq_refl (or_introl eq_refl) eq_refl eq_refl).
Defined.

End ImageFacts.

(** *** [findIncludes] *)

Lemma existsb_eqb_In name (res : list string) :
  existsb (String.eqb name) res = true <-> In name res.
Proof.
  rewrite existsb_exists. split.
  - intros (x & I & E). apply String.eqb_eq in E. now subst.
  - intros I. exists name. split; [exact I | apply String.eqb_refl].
Qed.

Lemma NoDup_snoc (l : list string) x : NoDup l -> ~ In x l -> NoDup (l ++ [x]).
Proof.
  intros ND N. apply NoDup_rev in ND.
  rewrite <- (rev_involutive (l ++ [x])). apply NoDup_rev.
  rewrite rev_app_distr. simpl. constructor; [|exact ND].
  now rewrite <- in_rev.
Qed.

Lemma findIncludes_from_distinct lines :
  forall found res,
    NoDup res -> NoDup (findIncludes_from found res lines).
Proof.
  induction lines as [|line rest IH]; intros found res ND; simpl; [exact ND|].
  apply IH. destruct found; [|exact ND].
  destruct (existsb _ res) eqn:E; [exact ND|].
  apply NoDup_snoc; [exact ND|].
  intros I. apply existsb_eqb_In in I. unfold included_name in *. congruence.
Qed.

Lemma findIncludes_from_spec lines :
  forall found res name,
    In name (findIncludes_from found res lines) <->
    In name res \/
    (found = true /\ exists b rest, lines = b :: rest /\ name = included_name b) \/
    (exists l1 a b l2,
       lines = l1 ++ a :: b :: l2 /\ is_include_role a = true /\
       name = included_name b).
Proof.
  induction lines as [|line rest IH]; intros found res name.
  - simpl. split; [auto|].
    intros [I | [(_ & b & r & E & _) | (l1 & a & b & l2 & E & _)]];
      [exact I | discriminate E |].
    destruct l1; discriminate E.
  - cbn [findIncludes_from]. rewrite IH. clear IH.
    assert (R : forall res',
              res' = (if found
                      then if existsb (String.eqb (included_name line)) res
                           then res else res ++ [included_name line]
                      else res) ->
              (In name res' <->
               In name res \/ (found = true /\ name = included_name line))).
    { intros res' ->. destruct found.
      - destruct (existsb _ res) eqn:E.
        + apply existsb_eqb_In in E. split; [auto|].
          intros [I|[_ ->]]; assumption.
        + rewrite in_app_iff. simpl. split.
          * intros [I|[<-|[]]]; auto.
          * intros [I|[_ ->]]; auto.
      - split; [auto|]. intros [I|[D _]]; [exact I | discriminate D]. }
    rewrite (R _ eq_refl). clear R. split.
    + intros [[I|(F & N)] | [(A & b & r & E & N) | (l1 & a & b & l2 & E & A & N)]].
      * now left.
      * right. left. split; [exact F|]. exists line, rest. auto.
      * right. right. exists [], line, b, r. subst rest. auto.
      * right. right. exists (line :: l1), a, b, l2. subst rest. auto.
    + intros [I | [(F & b & r & E & N) | (l1 & a & b & l2 & E & A & N)]].
      * left. now left.
      * inversion E; subst. left. right. auto.
      * destruct l1 as [|x l1]; inversion E; subst.
        -- right. left. split; [exact A|]. exists b, l2. auto.
        -- right. right. exists l1, a, b, l2. auto.
Qed.

(** X7.  [findIncludes] returns, without repetition, the names read on
    the lines that directly follow an [include_role] line, and only
    those. *)
Theorem findIncludes_names_after_include_role (lines : list string) :
  NoDup (findIncludes lines) /\
  forall name,
    In name (findIncludes lines) <->
    exists l1 a b l2,
      lines = l1 ++ a :: b :: l2 /\ is_include_role a = true /\
      name = included_name b.
Proof.
  split.
  - apply findIncludes_from_distinct. constructor.
  - intros name. unfold findIncludes. rewrite findIncludes_from_spec.
    split; [|auto].
    intros [[] | [(D & _) | H]]; [discriminate D | exact H].
Qed.

(* ===================================================================== *)
(** ** The host-environment fetcher *)
(* ===================================================================== *)

Lemma env_line_fails tag data line :
  env_line tag data line = None <->
  List.length (split "=" (strip line)) <> 2.
Proof.
  unfold env_line.
  destruct (split "=" (strip line)) as [|a [|b [|c l]]]; simpl;
    split; try congruence; try discriminate; intros H; try reflexivity;
    exfalso; apply H; reflexivity.
Qed.

Lemma env_line_single_channel tag data line data' :
  single_channel tag data ->
  env_line tag data line = Some data' ->
  single_channel tag data'.
Proof.
  unfold env_line. intros S H.
  destruct (split "=" (strip line)) as [|a [|b [|c l]]]; try discriminate.
  inversion H; subst. intros k v G. rewrite dget_dset in G.
  destruct (pykey_eq_dec _ k).
  - inversion G. eauto.
  - eapply S; eassumption.
Qed.

Lemma env_lines_spec tag lines :
  forall data,
    single_channel tag data ->
    match env_lines tag data lines with
    | Some d =>
        single_channel tag d /\
        forall line, In line lines ->
          List.length (split "=" (strip line)) = 2
    | None =>
        exists line, In line lines /\
          List.length (split "=" (strip line)) <> 2
    end.
Proof.
  induction lines as [|line rest IH]; intros data S; simpl.
  - split; [exact S | intros line []].
  - destruct (env_line tag data line) as [data'|] eqn:E.
    + specialize (IH data' (env_line_single_channel _ _ _ _ S E)).
      destruct (env_lines tag data' rest) as [d|].
      * destruct IH as [S' L]. split; [exact S'|].
        intros l [<-|I]; [|now apply L].
        destruct (Nat.eq_dec (List.length (split "=" (strip line))) 2) as [e|n];
          [exact e|].
        apply env_line_fails with (tag := tag) (data := data) in n. congruence.
      * destruct IH as (l & I & N). exists l. split; [now right | exact N].
    + exists line. split; [now left|]. eapply env_line_fails. exact E.
Qed.

(** X8.  The host-environment fetcher reads the lines of the environment
    that contain [MRV].  It fails (the unpacking raises) exactly when one
    of them does not split in two around [=]; otherwise every entry it
    returns is a single channel, the default one, holding a one-element
    list. *)
Theorem env_fetch_one_channel_or_unpack_error (result default_tag : string) :
  match get_env_vars_with_mrv result default_tag with
  | Some data =>
      (forall k v, dget k data = Some v ->
         exists value, v = PDict [(KStr default_tag, PList [PStr value])]) /\
      (forall line, In line (split newline result) ->
         str_in "MRV" line = true ->
         List.length (split "=" (strip line)) = 2)
  | None =>
      exists line,
        In line (split newline result) /\ str_in "MRV" line = true /\
        List.length (split "=" (strip line)) <> 2
  end.
Proof.
  unfold get_env_vars_with_mrv.
  pose proof (env_lines_spec default_tag
                (filter (str_in "MRV") (split newline result)) []) as H.
  assert (S : single_channel default_tag []) by (intros k v G; discriminate G).
  specialize (H S).
  destruct (env_lines default_tag [] _) as [d|].
  - destruct H as [S' L]. split; [exact S'|].
    intros line I M. apply L. apply filter_In. auto.
  - destruct H as (line & I & N). apply filter_In in I.
    exists line. tauto.
Qed.

(* ===================================================================== *)
(** ** The registry fetch: pagination, failures, aggregation *)
(* ===================================================================== *)

Lemma get_paths_from_linked pages :
  forall last paths rest,
    exists last',
      get_paths_from (map linked_page pages ++ rest) last paths
      = get_paths_from rest last' (paths ++ List.concat (map snd pages)).
Proof.
  induction pages as [|[target repos] pages IH]; intros last paths rest.
  - exists last. simpl. now rewrite app_nil_r.
  - destruct (IH target (paths ++ repos) rest) as [last' E].
    exists last'.
    cbn [map app get_paths_from linked_page run_command fst snd List.concat].
    rewrite E. now rewrite <- app_assoc.
Qed.

(** X9.  The catalog is read page after page, following the links: the
    repositories of all the linked pages and of the first page without a
    link are returned, in order, and nothing after that page is read. *)
Theorem get_paths_follows_links_to_the_last_page
    (pages : list (string * list string)) (repositories : list string)
    (rest : list command_outcome) :
  get_paths
    (map linked_page pages ++ Responded NoLink (Catalog repositories) :: rest)
  = Some (Returned (List.concat (map snd pages) ++ repositories)).
Proof.
  unfold get_paths.
  destruct (get_paths_from_linked pages EmptyString []
              (Responded NoLink (Catalog repositories) :: rest)) as [l ->].
  reflexivity.
Qed.

(** X10.  A timeout ends the whole fetch with [sys.exit], in the catalog
    phase as in the tag-list phase; a non-zero exit of [curl] is swallowed
    in the catalog phase (the repositories gathered so far are kept) but
    is raised in the tag-list phase. *)
Theorem registry_failures_by_phase
    (pages : list (string * list string)) (rest : list command_outcome)
    (tag_lists : string -> command_outcome) (results : dict)
    (answers : list command_outcome) :
  fetch_from_registry (map linked_page pages ++ TimedOut :: rest) tag_lists
    = Some (SysExit "Error: Command timed out after 40 seconds.") /\
  get_paths (map linked_page pages ++ Failed :: rest)
    = Some (Returned (List.concat (map snd pages))) /\
  aggregate results (TimedOut :: answers)
    = SysExit "Error: Command timed out after 40 seconds." /\
  aggregate results (Failed :: answers) = Raised CalledProcessError.
Proof.
  repeat split.
  - unfold fetch_from_registry, get_paths.
    destruct (get_paths_from_linked pages EmptyString [] (TimedOut :: rest))
      as [l ->].
    reflexivity.
  - unfold get_paths.
    destruct (get_paths_from_linked pages EmptyString [] (Failed :: rest))
      as [l ->].
    reflexivity.
Qed.

Lemma registry_tags_total tags : exists d, registry_tags tags = Ok d.
Proof.
  unfold registry_tags. destruct (existsb (str_in "cur") tags); [|eauto].
  destruct (registry_tag_loop_spec tags [] no_channel_yet) as (d & L & _).
  eauto.
Qed.

Lemma aggregate_step_tag_list results a :
  entries_are_dictionaries results ->
  exists d results',
    registry_tags (tags_or_none (snd a)) = Ok d /\
    aggregate_step results (tag_list_answer a) = Returned results' /\
    entries_are_dictionaries results' /\
    (forall k, k <> KStr (resource_name_of (fst a)) ->
       dget k results' = dget k results) /\
    dget (KStr (resource_name_of (fst a))) results'
    = Some (PDict (match dget (KStr (resource_name_of (fst a))) results with
                   | Some (PDict old) => dupdate old d
                   | _ => d
                   end)).
Proof.
  intros W. destruct a as [name tags].
  destruct (registry_tags_total (tags_or_none tags)) as [d P].
  exists d. pose proof P as P'.
  unfold aggregate_step, tag_list_answer. simpl.
  unfold tags_or_none in P'. rewrite P'. rewrite dmem_dget.
  destruct (dget (KStr (resource_name_of name)) results) as [v|] eqn:G.
  - destruct (W _ _ G) as [old ->].
    eexists. split; [exact P|]. split; [reflexivity|]. split; [|split].
    + intros k v G'. rewrite dget_dset in G'.
      destruct (pykey_eq_dec _ k); [inversion G'; eauto | eapply W; eassumption].
    + intros k N. apply dget_dset_ne. congruence.
    + apply dget_dset_eq.
  - eexists. split; [exact P|]. split; [reflexivity|]. split; [|split].
    + intros k v G'. rewrite dget_dset in G'.
      destruct (pykey_eq_dec _ k); [inversion G'; eauto | eapply W; eassumption].
    + intros k N. apply dget_dset_ne. congruence.
    + apply dget_dset_eq.
Qed.

Lemma aggregate_tag_lists answers :
  forall results,
    entries_are_dictionaries results ->
    NoDup (map (fun a => resource_name_of (fst a)) answers) ->
    (forall a, In a answers ->
       dget (KStr (resource_name_of (fst a))) results = None) ->
    exists results',
      aggregate results (map tag_list_answer answers) = Returned results' /\
      entries_are_dictionaries results' /\
      (forall a, In a answers ->
         exists d, registry_tags (tags_or_none (snd a)) = Ok d /\
           dget (KStr (resource_name_of (fst a))) results' = Some (PDict d)) /\
      (forall k, ~ In k (map (fun a => KStr (resource_name_of (fst a))) answers) ->
         dget k results' = dget k results).
Proof.
  induction answers as [|a answers IH]; intros results W ND Fresh.
  - exists results. split; [reflexivity|]. split; [exact W|].
    split; [intros a []|reflexivity].
  - inversion ND as [|? ? N ND']; subst.
    destruct (aggregate_step_tag_list results a W)
      as (d & r1 & P & S & W1 & O & G).
    rewrite (Fresh a (or_introl eq_refl)) in G.
    destruct (IH r1 W1 ND') as (r' & A & W' & E & O').
    { intros b I. rewrite O; [apply Fresh; now right|].
      intros Eq. apply N. inversion Eq as [Eq'].
      apply in_map_iff. exists b. auto. }
    exists r'. split; [simpl; rewrite S; exact A|]. split; [exact W'|]. split.
    + intros b [<-|I]; [|now apply E].
      exists d. split; [exact P|]. rewrite O'; [exact G|].
      intros I. apply N. apply in_map_iff in I. destruct I as (x & Ex & Ix).
      inversion Ex as [Ex']. apply in_map_iff. exists x. auto.
    + intros k Nk. rewrite O'; [apply O|].
      * intros ->. apply Nk. now left.
      * intros I. apply Nk. now right.
Qed.

(** X11.  When the repositories have pairwise distinct resource names, the
    aggregation of their tag lists never fails, and every repository,
    tags or not, gets the entry parsed from its own tag list under its
    resource name. *)
Theorem aggregate_one_entry_per_repository
    (answers : list (string * option (list string))) :
  NoDup (map (fun a => resource_name_of (fst a)) answers) ->
  exists results,
    aggregate [] (map tag_list_answer answers) = Returned results /\
    forall a, In a answers ->
      exists d,
        registry_tags (tags_or_none (snd a)) = Ok d /\
        dget (KStr (resource_name_of (fst a))) results = Some (PDict d).
Proof.
  intros ND.
  destruct (aggregate_tag_lists answers []) as (r & A & _ & E & _); trivial.
  - intros k v G. discriminate G.
  - eauto.
Qed.

Lemma two_repositories_distinct :
  NoDup (map (fun a => resource_name_of (fst a)) two_repositories).
Proof.
  repeat constructor; simpl; intuition discriminate.
Defined.

Lemma aggregate_one_entry_per_repository_witness :
  exists results,
    aggregate [] (map tag_list_answer two_repositories) = Returned results /\
    forall a, In a two_repositories ->
      exists d,
        registry_tags (tags_or_none (snd a)) = Ok d /\
        dget (KStr (resource_name_of (fst a))) results = Some (PDict d).
Proof.
  exact (aggregate_one_entry_per_repository two_repositories
           two_repositories_distinct).
Defined.

(* ===================================================================== *)
(** ** The local image cache and the merge with the registry *)
(* ===================================================================== *)

Lemma local_id_app uri before rest image channel :
  local_id uri (before ++ rest) image channel
  = match local_id uri rest image channel with
    | Some id => Some id
    | None => local_id uri before image channel
    end.
Proof.
  induction before as [|line before IH]; cbn [app local_id].
  - now destruct (local_id uri rest image channel).
  - rewrite IH. now destruct (local_id uri rest image channel).
Qed.

Lemma local_id_none uri lines image channel :
  (forall l id, In l lines -> local_reading uri l <> Some (image, channel, id)) ->
  local_id uri lines image channel = None.
Proof.
  induction lines as [|line rest IH]; intros N; [reflexivity|].
  cbn [local_id]. rewrite IH by (intros l id I; apply N; now right).
  destruct (local_reading uri line) as [[[m c] id]|] eqn:R; [|reflexivity].
  destruct (String.eqb m image) eqn:Em; [|reflexivity].
  destruct (String.eqb c channel) eqn:Ec; [|reflexivity].
  apply String.eqb_eq in Em, Ec. subst.
  exfalso. apply (N line id); [now left | exact R].
Qed.

(** X12.  The parser of the local image listing never fails, and in what
    it returns every channel of every image holds exactly one build id:
    a later line of the same image and channel replaces the earlier
    one, so that the id held is that of the last line read for them. *)
Theorem process_crictl_output_one_id_per_channel (stdout uri : string) :
  exists result,
    process_crictl_output stdout uri = Ok result /\
    one_id_per_channel result /\
    forall before line after image channel id,
      lines_read stdout = before ++ line :: after ->
      local_reading uri line = Some (image, channel, id) ->
      (forall l id', In l after ->
         local_reading uri l <> Some (image, channel, id')) ->
      local_entry result image channel = Some (PList [PStr id]).
Proof.
  destruct (process_crictl_output_entries stdout uri) as (r & P & W & E).
  exists r. split; [exact P|]. split; [exact W|].
  intros before line after image channel id L R N.
  rewrite E, L, local_id_app. cbn [local_id].
  rewrite (local_id_none _ _ _ _ N), R, !String.eqb_refl. reflexivity.
Qed.

(** X13.  The last line of the listing is dropped before the lines are
    read: a listing of a single line, whatever it holds, gives no data. *)
Theorem process_crictl_output_single_line_is_lost (stdout uri : string) :
  mem_char newline (strip stdout) = false ->
  process_crictl_output stdout uri = Ok [].
Proof.
  intros N. unfold process_crictl_output.
  now rewrite (split_absent _ _ N).
Qed.

Lemma process_crictl_output_single_line_is_lost_witness :
  process_crictl_output
    "images.local/platform/api abc123_default-cur 0123456789abc 10MB"
    "images.local" = Ok [].
Proof.
  exact (process_crictl_output_single_line_is_lost
           "images.local/platform/api abc123_default-cur 0123456789abc 10MB"
           "images.local" eq_refl).
Defined.

Lemma images_merge_step_spec local item value :
  entries_are_dictionaries local ->
  snd item = PDict value ->
  exists merged,
    images_merge_step local item = Ok merged /\
    entries_are_dictionaries merged /\
    (forall k, k <> fst item -> dget k merged = dget k local) /\
    dget (fst item) merged
    = match dget (fst item) local with
      | Some (PDict entry) => Some (PDict (dupdate entry value))
      | _ => Some (PDict value)
      end.
Proof.
  intros W S. unfold images_merge_step. rewrite dmem_dget, S.
  destruct (dget (fst item) local) as [v|] eqn:G.
  - destruct (W _ _ G) as [entry ->]. cbn [py_update bind].
    eexists. split; [reflexivity|]. split; [|split].
    + intros k v G'. rewrite dget_dset in G'.
      destruct (pykey_eq_dec (fst item) k);
        [inversion G'; eauto | eapply W; eassumption].
    + intros k N. apply dget_dset_ne. congruence.
    + apply dget_dset_eq.
  - eexists. split; [reflexivity|]. split; [|split].
    + intros k v G'. rewrite dget_dset in G'.
      destruct (pykey_eq_dec (fst item) k);
        [inversion G'; eauto | eapply W; eassumption].
    + intros k N. apply dget_dset_ne. congruence.
    + apply dget_dset_eq.
Qed.

Lemma images_merge_spec registry :
  forall local,
    NoDup (dkeys registry) ->
    entries_are_dictionaries local ->
    (forall k v, In (k, v) registry -> exists e, v = PDict e) ->
    exists merged,
      images_merge local registry = Ok merged /\
      forall image,
        dget image merged
        = match dget image registry, dget image local with
          | Some (PDict rv), Some (PDict lv) => Some (PDict (dupdate lv rv))
          | Some r, _ => Some r
          | None, l => l
          end.
Proof.
  induction registry as [|[k0 v0] rest IH]; intros local ND W R.
  - exists local. split; [reflexivity|]. intros image. reflexivity.
  - inversion ND as [|? ? N ND']; subst.
    destruct (R k0 v0 (or_introl eq_refl)) as [value ->].
    destruct (images_merge_step_spec local (k0, PDict value) value W eq_refl)
      as (l1 & S & W1 & O & G).
    cbn [fst] in O, G.
    destruct (IH l1 ND' W1) as (merged & M & Sp).
    { intros k v I. apply (R k v). now right. }
    exists merged. split; [cbn [images_merge]; rewrite S; exact M|].
    intros image. rewrite Sp. cbn [dget].
    destruct (pykey_eq_dec image k0) as [->|Ne].
    + rewrite (notin_dget_None _ _ N), G.
      destruct (dget k0 local) as [l|] eqn:Gl; [|reflexivity].
      destruct (W _ _ Gl) as [lv ->]. reflexivity.
    + now rewrite (O _ Ne).
Qed.

(** X14.  [fetch_version] lays the registry over the local cache channel by
    channel.  When the entries of both sides are dictionaries, as the two
    fetchers build them, the merge goes through: an image known to both
    keeps the channels only the cache has and takes every channel of the
    registry; an image known to one side only passes through unchanged. *)
Theorem images_merge_channel_by_channel (local registry : dict) :
  NoDup (dkeys registry) ->
  entries_are_dictionaries local ->
  entries_are_dictionaries registry ->
  exists merged,
    images_merge local registry = Ok merged /\
    forall image,
      match dget image registry, dget image local with
      | None, l => dget image merged = l
      | Some r, None => dget image merged = Some r
      | Some r, Some l =>
          exists lv rv,
            l = PDict lv /\ r = PDict rv /\
            dget image merged = Some (PDict (dupdate lv rv)) /\
            (NoDup (dkeys rv) ->
             forall channel,
               dget channel (dupdate lv rv)
               = match dget channel rv with
                 | Some v => Some v
                 | None => dget channel lv
                 end)
      end.
Proof.
  intros ND Wl Wr.
  destruct (images_merge_spec registry local ND Wl) as (merged & M & Sp).
  { intros k v I. apply (Wr k v). now apply In_dget. }
  exists merged. split; [exact M|]. intros image. rewrite Sp.
  destruct (dget image registry) as [r|] eqn:Gr; [|reflexivity].
  destruct (Wr _ _ Gr) as [rv ->].
  destruct (dget image local) as [l|] eqn:Gl; [|reflexivity].
  destruct (Wl _ _ Gl) as [lv ->].
  exists lv, rv. repeat split. intros NDv channel. now apply dget_dupdate.
Qed.

Lemma registry_images_keys : NoDup (dkeys registry_images).
Proof. repeat constructor; simpl; intuition discriminate. Defined.

Lemma local_images_entries : entries_are_dictionaries local_images.
Proof.
  intros k v. unfold local_images. cbn [dget].
  destruct (pykey_eq_dec k _); [|discriminate].
  intros E. inversion E. eauto.
Defined.

Lemma registry_images_entries : entries_are_dictionaries registry_images.
Proof.
  intros k v. unfold registry_images. cbn [dget].
  destruct (pykey_eq_dec k _); [intros E; inversion E; eauto|].
  destruct (pykey_eq_dec k _); [intros E; inversion E; eauto|discriminate].
Defined.

Lemma images_merge_channel_by_channel_witness :
  exists merged,
    images_merge local_images registry_images = Ok merged /\
    forall image,
      match dget image registry_images, dget image local_images with
      | None, l => dget image merged = l
      | Some r, None => dget image merged = Some r
      | Some r, Some l =>
          exists lv rv,
            l = PDict lv /\ r = PDict rv /\
            dget image merged = Some (PDict (dupdate lv rv)) /\
            (NoDup (dkeys rv) ->
             forall channel,
               dget channel (dupdate lv rv)
               = match dget channel rv with
                 | Some v => Some v
                 | None => dget channel lv
                 end)
      end.
Proof.
  exact (images_merge_channel_by_channel local_images registry_images
           registry_images_keys local_images_entries registry_images_entries).
Defined.

(* ===================================================================== *)
(** ** The snapshot store: what [manage_files] removes *)
(* ===================================================================== *)

Lemma insert_by_ctime_perm f l : Permutation (f :: l) (insert_by_ctime f l).
Proof.
  induction l as [|g l IH]; simpl; [reflexivity|].
  destruct (ctime f <? ctime g)%Z; [reflexivity|].
  rewrite perm_swap. now constructor.
Qed.

Lemma insert_by_ctime_sorted f l :
  StronglySorted (fun a b => (ctime a <= ctime b)%Z) l ->
  StronglySorted (fun a b => (ctime a <= ctime b)%Z) (insert_by_ctime f l).
Proof.
  induction 1 as [|g l S IH F]; simpl.
  - repeat constructor.
  - destruct (ctime f <? ctime g)%Z eqn:E.
    + apply Z.ltb_lt in E. constructor; [now constructor|].
      constructor; [lia|].
      eapply Forall_impl; [|exact F]. simpl. intros; lia.
    + apply Z.ltb_ge in E. constructor; [exact IH|].
      eapply Permutation_Forall; [apply insert_by_ctime_perm|].
      constructor; assumption.
Qed.

Lemma sorted_by_ctime_from l :
  forall acc,
    StronglySorted (fun a b => (ctime a <= ctime b)%Z) acc ->
    Permutation (acc ++ l) (fold_left (fun acc f => insert_by_ctime f acc) l acc) /\
    StronglySorted (fun a b => (ctime a <= ctime b)%Z)
      (fold_left (fun acc f => insert_by_ctime f acc) l acc).
Proof.
  induction l as [|f l IH]; intros acc S; simpl.
  - now rewrite app_nil_r.
  - destruct (IH _ (insert_by_ctime_sorted f acc S)) as [P S']. split; [|exact S'].
    etransitivity; [|exact P].
    etransitivity; [symmetry; apply Permutation_middle|].
    apply (Permutation_app_tail l (insert_by_ctime_perm f acc)).
Qed.

Lemma remove_oldest_suffix l n :
  exists removed, l = removed ++ remove_oldest l n.
Proof.
  induction l as [|f l IH]; simpl.
  - now exists [].
  - destruct (n <=? S (List.length l))%nat.
    + destruct IH as [r E]. exists (f :: r). simpl. now rewrite <- E.
    + now exists [].
Qed.

Lemma remove_oldest_length l n :
  0 < n -> List.length (remove_oldest l n) = Nat.min (List.length l) (n - 1).
Proof.
  intros P. induction l as [|f l IH]; [reflexivity|].
  cbn [remove_oldest List.length].
  destruct (n <=? S (List.length l))%nat eqn:E.
  - apply Nat.leb_le in E. rewrite IH. lia.
  - apply Nat.leb_gt in E. cbn [List.length]. lia.
Qed.

Lemma sorted_app_order removed kept :
  StronglySorted (fun a b => (ctime a <= ctime b)%Z) (removed ++ kept) ->
  older_or_equal removed kept.
Proof.
  induction removed as [|r removed IH]; intros S f g If Ig.
  - destruct If.
  - simpl in S. inversion S as [|? ? S' F]; subst. destruct If as [<-|If].
    + rewrite Forall_forall in F. apply F. apply in_or_app. now right.
    + now apply (IH S').
Qed.

(** X15.  [manage_files] removes the oldest files first: the files it
    removes and the files it keeps make up the folder, no removed file is
    more recent than a kept one, and it keeps [max_files - 1] files, or
    all of them when there are fewer. *)
Theorem manage_files_removes_the_oldest (directory : list snapshot) (n : nat) :
  0 < n ->
  exists removed,
    Permutation directory (removed ++ manage_files directory n) /\
    older_or_equal removed (manage_files directory n) /\
    List.length (manage_files directory n)
    = Nat.min (List.length directory) (n - 1).
Proof.
  intros P. unfold manage_files, sorted_by_ctime.
  destruct (sorted_by_ctime_from directory []) as [Perm S]; [constructor|].
  simpl in Perm.
  destruct (remove_oldest_suffix
              (fold_left (fun acc f => insert_by_ctime f acc) directory []) n)
    as [removed E].
  exists removed. split; [|split].
  - now rewrite <- E.
  - apply sorted_app_order. now rewrite <- E.
  - rewrite (remove_oldest_length _ _ P).
    now rewrite <- (Permutation_length Perm).
Qed.

Lemma manage_files_removes_the_oldest_witness :
  exists removed,
    Permutation some_snapshots (removed ++ manage_files some_snapshots max_files) /\
    older_or_equal removed (manage_files some_snapshots max_files) /\
    List.length (manage_files some_snapshots max_files)
    = Nat.min (List.length some_snapshots) (max_files - 1).
Proof.
  apply (manage_files_removes_the_oldest some_snapshots max_files).
  unfold max_files. lia.
Defined.

(* ===================================================================== *)
(** ** The state table: further properties *)
(* ===================================================================== *)

(** X16.  When no source reports anything, [create_state] is not called:
    the state table written and returned is empty, whatever the graph
    holds. *)
Theorem main_without_observation_writes_empty_table
    (components : dict) (os_data cluster_data images_data : option dict)
    (now : Z) (fs : files) :
  reports_nothing os_data -> reports_nothing cluster_data ->
  reports_nothing images_data ->
  main components (Fetched os_data) (Fetched cluster_data)
    (Fetched images_data) now fs
  = (ExitJson [], persist now [] fs).
Proof.
  intros [->| ->] [->| ->] [->| ->]; reflexivity.
Qed.

Lemma main_without_observation_witness :
  main graph_a (Fetched (Some [])) (Fetched None) (Fetched (Some [])) 10 no_files
  = (ExitJson [], persist 10 [] no_files).
Proof.
  exact (main_without_observation_writes_empty_table graph_a (Some []) None
           (Some []) 10 no_files (or_intror eq_refl) (or_introl eq_refl)
           (or_intror eq_refl)).
Defined.

Lemma create_state_from_keys cs comps :
  forall acc,
    NoDup (dkeys comps) ->
    (forall k, In k (dkeys comps) -> dget k (fst acc) = None) ->
    dkeys (fst (create_state_from cs comps acc))
    = dkeys (fst acc) ++ dkeys (filter (is_registered cs) comps).
Proof.
  induction comps as [|[mrn comp] comps IH]; intros acc ND F.
  - simpl. now rewrite app_nil_r.
  - inversion ND as [|? ? N ND']; subst.
    rewrite create_state_from_cons. cbn [filter fst snd].
    assert (R : is_registered cs (mrn, comp)
                = match fst (process_component cs mrn comp) with
                  | Some _ => true
                  | None => false
                  end).
    { unfold is_registered, entry_of. cbn [fst snd].
      now destruct (fst (process_component cs mrn comp)). }
    rewrite R. clear R.
    destruct (process_component cs mrn comp) as [[c|] e]; cbn [fst snd].
    + rewrite IH; trivial.
      * cbn [fst]. rewrite dkeys_dset, dmem_dget.
        match goal with
        | |- context [dget mrn ?a] =>
            assert (Fm : dget mrn a = None) by (apply F; now left); rewrite Fm
        end.
        cbn [dkeys map fst]. now rewrite <- app_assoc.
      * intros k I. cbn [fst]. rewrite dget_dset_ne.
        -- apply F. now right.
        -- intros ->. contradiction.
    + rewrite IH; trivial. intros k I. apply F. now right.
Qed.

(** X17.  The state table lists, in the order of the graph, exactly the
    components whose processing registered them; a key that is only in the
    observations never enters the table. *)
Theorem create_state_keys_follow_the_graph (merged_data components : dict) :
  NoDup (dkeys components) ->
  dkeys (fst (create_state merged_data components))
  = dkeys (filter (is_registered merged_data) components).
Proof.
  intros ND. unfold create_state.
  now rewrite create_state_from_keys.
Qed.

Lemma graph_with_gap_keys : NoDup (dkeys graph_with_gap).
Proof. repeat constructor; simpl; intuition discriminate. Defined.

Lemma create_state_keys_follow_the_graph_witness :
  dkeys (fst (create_state other_observed graph_with_gap))
  = dkeys (filter (is_registered other_observed) graph_with_gap).
Proof.
  exact (create_state_keys_follow_the_graph other_observed graph_with_gap
           graph_with_gap_keys).
Defined.

Lemma channels_loop_other_channels cs mrn mrv k tags :
  (forall tag, In tag tags -> py_hash tag <> Ok k) ->
  forall comp comp',
    channels_loop cs mrn mrv comp tags = (comp', Ok tt) ->
    state_at k comp' = state_at k comp.
Proof.
  induction tags as [|tag rest IH]; intros N comp comp' H.
  - simpl in H. now inversion H.
  - apply channels_loop_cons in H. destruct H as (comp1 & S & L).
    rewrite (IH (fun t I => N t (or_intror I)) _ _ L).
    destruct (channel_step_hashable _ _ _ _ _ _ S) as [k0 Hk0].
    eapply channel_step_other_channels; [exact S | exact Hk0 |].
    intros ->. apply (N tag (or_introl eq_refl)). exact Hk0.
Qed.

(** X18.  Reconciliation updates the [state] of a component, it does not
    replace it: the record of a channel the component does not declare is
    left as it was. *)
Theorem undeclared_channels_keep_their_record
    (merged_data : dict) (mrn : pykey) (comp out : dict)
    (tags : list pyval) (channel : pykey) :
  process_component merged_data mrn (PDict comp) = (Some out, None) ->
  declared comp = Ok tags ->
  (forall tag, In tag tags -> py_hash tag <> Ok channel) ->
  state_at channel out = state_at channel comp.
Proof.
  intros P D N. apply process_component_ok in P.
  destruct P as (c & mrv & tags' & E & _ & D' & L). inversion E; subst c.
  assert (tags' = tags) by congruence. subst tags'.
  eapply channels_loop_other_channels; eassumption.
Qed.

Lemma undeclared_channels_keep_their_record_witness :
  state_at (KStr "canary")
    (match fst (process_component other_observed (KStr "svc_b") (PDict svc_b)) with
     | Some out => out
     | None => []
     end)
  = state_at (KStr "canary") svc_b.
Proof.
  apply (undeclared_channels_keep_their_record other_observed (KStr "svc_b")
           svc_b _ [PStr "default"] (KStr "canary")).
  - reflexivity.
  - reflexivity.
  - intros tag [<-|[]]. discriminate.
Defined.

(** *** The current version *)

Lemma state_helper_current mrv tag k old st :
  py_hash tag = Ok k ->
  state_helper mrv tag old = Ok st ->
  exists record,
    st = [(k, PDict record)] /\
    dget (KStr "mrv_cur") record
    = Some (dget_default (KStr "current_version") old (dget_default k old PNone)).
Proof.
  intros Hk. unfold state_helper. rewrite Hk. simpl.
  destruct (py_contains mrv (dget_default k old (PList []))) as [f|x];
    simpl; [|discriminate].
  intros H. inversion H; subst. eexists. split; reflexivity.
Qed.

Lemma channel_step_current cs mrn mrv comp tag comp' k :
  channel_step cs mrn mrv comp tag = (comp', Ok tt) ->
  py_hash tag = Ok k ->
  current_recorded cs mrn k comp'.
Proof.
  unfold channel_step. intros H Hk.
  destruct (observed cs mrn tag) as [o|x] eqn:O; [|discriminate].
  destruct (observed_channel _ _ _ _ _ Hk O)
    as [(-> & _ & G) | (e & -> & G & M & _)].
  - destruct (state_helper mrv tag []) as [st|x] eqn:S; [|discriminate].
    destruct (state_helper_current _ _ _ _ _ Hk S) as (record & -> & R).
    apply store_state_channel in H. destruct H as [H _].
    exists record. split; [exact H|]. rewrite R.
    unfold observed_current.
    destruct G as [G | (e & G & G')]; rewrite G; [reflexivity|].
    rewrite dmem_dget, G'. reflexivity.
  - destruct (m <- py_getitem (PDict comp) "mrsn";; py_replace m "-" "_")
      as [m|x]; [|discriminate].
    destruct (state_helper mrv tag e) as [st|x] eqn:S; [|discriminate].
    destruct (state_helper_current _ _ _ _ _ Hk S) as (record & -> & R).
    apply store_state_channel in H. destruct H as [H _].
    exists record. split; [exact H|]. rewrite R.
    unfold observed_current. now rewrite G, M.
Qed.

Lemma current_recorded_state_at cs mrn k comp comp' :
  state_at k comp' = state_at k comp ->
  current_recorded cs mrn k comp -> current_recorded cs mrn k comp'.
Proof.
  intros E (record & R). exists record. now rewrite E.
Qed.

Lemma channels_loop_keeps_current cs mrn mrv k tags :
  forall comp comp',
    channels_loop cs mrn mrv comp tags = (comp', Ok tt) ->
    current_recorded cs mrn k comp -> current_recorded cs mrn k comp'.
Proof.
  induction tags as [|tag rest IH]; intros comp comp' H R.
  - simpl in H. inversion H; subst; assumption.
  - apply channels_loop_cons in H. destruct H as (comp1 & S & L).
    apply (IH _ _ L).
    destruct (channel_step_hashable _ _ _ _ _ _ S) as [k0 Hk0].
    destruct (pykey_eq_dec k k0) as [->|N].
    + eapply channel_step_current; eassumption.
    + eapply current_recorded_state_at; [|exact R].
      eapply channel_step_other_channels; eassumption.
Qed.

Lemma channels_loop_current cs mrn mrv tags :
  forall comp comp' tag k,
    channels_loop cs mrn mrv comp tags = (comp', Ok tt) ->
    In tag tags -> py_hash tag = Ok k ->
    current_recorded cs mrn k comp'.
Proof.
  induction tags as [|tag0 rest IH]; intros comp comp' tag k H I Hk.
  - destruct I.
  - apply channels_loop_cons in H. destruct H as (comp1 & S & L).
    destruct I as [->|I].
    + eapply channels_loop_keeps_current; [exact L|].
      eapply channel_step_current; eassumption.
    + eapply IH; eassumption.
Qed.

(** X19.  For a component processed without error, the [mrv_cur] field of
    each declared channel is [None] when the channel is not observed, and
    otherwise the [current_version] entry of the component's observation
    (the same for all its channels) or, when that entry is missing, the
    observed list of the channel itself. *)
Theorem current_version_is_shared_by_the_channels
    (merged_data components : dict) (mrn : pykey) (comp : dict)
    (tags : list pyval) (tag : pyval) (channel : pykey) :
  NoDup (dkeys components) -> In (mrn, PDict comp) components ->
  raised_by merged_data mrn (PDict comp) = None ->
  declared comp = Ok tags -> In tag tags -> py_hash tag = Ok channel ->
  state_field (fst (create_state merged_data components)) mrn channel "mrv_cur"
  = Some (observed_current merged_data mrn channel).
Proof.
  intros ND I R D T Hk.
  pose proof (create_state_entry merged_data _ _ _ ND I) as E.
  unfold raised_by in R. unfold entry_of in E.
  destruct (process_component merged_data mrn (PDict comp)) as [o e] eqn:P.
  simpl in R. subst e.
  destruct o as [out|].
  - simpl in E. rewrite (state_field_entry _ _ _ _ _ E).
    apply process_component_ok in P.
    destruct P as (c0 & mrv0 & tags0 & E0 & _ & D0 & L).
    inversion E0; subst c0. assert (tags0 = tags) by congruence. subst.
    destruct (channels_loop_current _ _ _ _ _ _ _ _ L T Hk) as (record & S & C).
    now rewrite S.
  - exfalso. unfold process_component in P.
    unfold declared in D.
    destruct (dget (KStr "mrv") comp) as [mrv|]; [|discriminate].
    rewrite D in P.
    destruct (channels_loop merged_data mrn mrv comp tags) as [c' [[]|x]];
      discriminate.
Qed.

Lemma current_version_witness :
  state_field (fst (create_state svc_a_in_registry graph_a)) (KStr "svc_a")
    (KStr "default") "mrv_cur"
  = Some (observed_current svc_a_in_registry (KStr "svc_a") (KStr "default")).
Proof.
  apply (current_version_is_shared_by_the_channels svc_a_in_registry graph_a
           (KStr "svc_a")
           [ (KStr "mrn", PStr "svc_a"); (KStr "mrsn", PStr "svc-a");
             (KStr "mrv", PStr "7"); (KStr "mrt", PList [PStr "default"]) ]
           [PStr "default"] (PStr "default") (KStr "default")).
  - exact graph_a_keys.
  - now left.
  - reflexivity.
  - reflexivity.
  - now left.
  - reflexivity.
Defined.

(* ===================================================================== *)
(** ** The filters that read the state *)
(* ===================================================================== *)

Lemma machine_state_reads resource tag k record :
  py_hash tag = Ok k ->
  state_at k resource = Some record ->
  machine_state resource tag = Ok record.
Proof.
  intros Hk. unfold state_at, machine_state, py_getitem.
  rewrite dmem_dget.
  destruct (dget (KStr "state") resource) as [[| | | | |st]|]; try discriminate.
  intros G. cbn [negb bind py_contains py_subscript].
  rewrite Hk. cbn [bind]. rewrite dmem_dget, G. cbn [negb bind]. reflexivity.
Qed.

Lemma machine_state_without_record resource tag k :
  py_hash tag = Ok k ->
  no_record k resource ->
  machine_state resource tag = Ok PNone.
Proof.
  intros Hk [G | (st & G & G')]; unfold machine_state, py_getitem;
    rewrite dmem_dget, G; cbn [negb bind py_contains]; trivial.
  rewrite Hk. cbn [bind]. now rewrite dmem_dget, G'.
Qed.

(** X20.  On a record written by the reconciliation, [machine_build]
    answers that the declared version is not among the observed ids,
    [machine_built] without a deployment (or with ['any']) answers that it
    is, [machine_exists] answers the [exists] flag, and [machine_built]
    with deployment ['current'] answers [False] whatever was observed:
    it asks for [not build and not fresh], and [build] is [not fresh]. *)
Theorem built_for_current_deployment_is_never_true
    (merged_data : dict) (mrn : pykey) (comp out : dict) (mrv : pyval)
    (tags : list pyval) (tag : pyval) (channel : pykey) :
  process_component merged_data mrn (PDict comp) = (Some out, None) ->
  dget (KStr "mrv") comp = Some mrv ->
  declared comp = Ok tags -> In tag tags -> py_hash tag = Ok channel ->
  exists fresh,
    py_contains mrv (observed_ids merged_data mrn channel) = Ok fresh /\
    machine_build out tag = Ok (PBool (negb fresh)) /\
    machine_built out tag PNone = Ok (PBool fresh) /\
    machine_built out tag (PStr "any") = Ok (PBool fresh) /\
    machine_built out tag (PStr "current") = Ok (PBool false) /\
    machine_exists out tag
    = Ok (PBool (is_not_None (observed_ids merged_data mrn channel))).
Proof.
  intros P V D T Hk. apply process_component_ok in P.
  destruct P as (c0 & mrv0 & tags0 & E0 & V0 & D0 & L).
  inversion E0; subst c0.
  assert (mrv0 = mrv) by congruence. assert (tags0 = tags) by congruence.
  subst.
  destruct (channels_loop_reconciles _ _ _ _ _ _ _ _ L T Hk)
    as (record & fresh & S & R1 & R2 & R3 & R4 & R5).
  pose proof (machine_state_reads _ _ _ _ Hk S) as M.
  exists fresh. split; [exact R3|].
  unfold machine_build, machine_built, machine_exists. rewrite M.
  cbn [py_eqb String.eqb Ascii.eqb Bool.eqb is_not_None negb orb bind
       py_contains py_subscript py_hash].
  rewrite !dmem_dget, R2, R4, R5.
  cbn [bind py_truthy]. rewrite Bool.negb_involutive.
  destruct fresh; repeat split; reflexivity.
Qed.

Lemma built_for_current_deployment_witness :
  exists fresh,
    py_contains (PStr "7")
      (observed_ids svc_a_observed (KStr "svc_a") (KStr "default")) = Ok fresh /\
    machine_build svc_a_reconciled (PStr "default") = Ok (PBool (negb fresh)) /\
    machine_built svc_a_reconciled (PStr "default") PNone = Ok (PBool fresh) /\
    machine_built svc_a_reconciled (PStr "default") (PStr "any")
    = Ok (PBool fresh) /\
    machine_built svc_a_reconciled (PStr "default") (PStr "current")
    = Ok (PBool false) /\
    machine_exists svc_a_reconciled (PStr "default")
    = Ok (PBool (is_not_None
                   (observed_ids svc_a_observed (KStr "svc_a") (KStr "default")))).
Proof.
  apply (built_for_current_deployment_is_never_true svc_a_observed
           (KStr "svc_a")
           [ (KStr "mrn", PStr "svc_a"); (KStr "mrsn", PStr "svc-a");
             (KStr "mrv", PStr "7"); (KStr "mrt", PList [PStr "default"]) ]
           svc_a_reconciled (PStr "7") [PStr "default"] (PStr "default")
           (KStr "default")).
  - reflexivity.
  - reflexivity.
  - reflexivity.
  - now left.
  - reflexivity.
Defined.

(** X21.  A resource that holds no record for the channel makes the three
    filters fail: [machine_state] returns [None], and the membership test
    or the subscript on it raises a [TypeError]; the [return None] of
    [machine_exists] and [machine_build] is not reached that way.  With a
    deployment other than ['current'], ['any'] and [None], [machine_built]
    reads nothing and returns [None]. *)
Theorem filters_fail_without_record
    (resource : dict) (tag : pyval) (channel : pykey) :
  py_hash tag = Ok channel ->
  no_record channel resource ->
  machine_exists resource tag = Raise TypeError /\
  machine_build resource tag = Raise TypeError /\
  machine_built resource tag PNone = Raise TypeError /\
  machine_built resource tag (PStr "any") = Raise TypeError /\
  machine_built resource tag (PStr "current") = Raise TypeError /\
  forall other, other <> "current"%string -> other <> "any"%string ->
    machine_built resource tag (PStr other) = Ok PNone.
Proof.
  intros Hk N. pose proof (machine_state_without_record _ _ _ Hk N) as M.
  unfold machine_exists, machine_build, machine_built. rewrite M.
  repeat split.
  intros other N1 N2. cbn [py_eqb is_not_None negb orb].
  apply String.eqb_neq in N1. apply String.eqb_neq in N2.
  now rewrite N1, N2.
Qed.

Lemma filters_fail_without_record_witness :
  machine_exists svc_b (PStr "default") = Raise TypeError /\
  machine_build svc_b (PStr "default") = Raise TypeError /\
  machine_built svc_b (PStr "default") PNone = Raise TypeError /\
  machine_built svc_b (PStr "default") (PStr "any") = Raise TypeError /\
  machine_built svc_b (PStr "default") (PStr "current") = Raise TypeError /\
  forall other, other <> "current"%string -> other <> "any"%string ->
    machine_built svc_b (PStr "default") (PStr other) = Ok PNone.
Proof.
  apply (filters_fail_without_record svc_b (PStr "default") (KStr "default")).
  - reflexivity.
  - right. eexists. split; reflexivity.
Defined.

(** *** [unique] *)

Lemma existsb_app_l {A} (f : A -> bool) l m :
  existsb f l = true -> existsb f (l ++ m) = true.
Proof. intros H. rewrite existsb_app, H. reflexivity. Qed.

Lemma unique_from_prefix items :
  forall u, exists added, unique_from u items = u ++ added.
Proof.
  induction items as [|item rest IH]; intros u; simpl.
  - exists []. now rewrite app_nil_r.
  - destruct (existsb (py_eqb item) u); [apply IH|].
    destruct (IH (u ++ [item])) as [added E]. exists (item :: added).
    now rewrite E, <- app_assoc.
Qed.

Lemma first_occurrences_snoc u x :
  first_occurrences u -> existsb (py_eqb x) u = false ->
  first_occurrences (u ++ [x]).
Proof.
  induction u as [|y u IH]; simpl; intros F E.
  - split; [intros ? []|exact I].
  - apply Bool.orb_false_iff in E. destruct E as [E1 E2].
    destruct F as [F1 F2]. split; [|now apply IH].
    intros z Hz. apply in_app_or in Hz. destruct Hz as [Hz|[<-|[]]]; auto.
Qed.

Lemma unique_from_first_occurrences items :
  forall u, first_occurrences u -> first_occurrences (unique_from u items).
Proof.
  induction items as [|item rest IH]; intros u F; simpl; trivial.
  destruct (existsb (py_eqb item) u) eqn:E; [now apply IH|].
  apply IH. now apply first_occurrences_snoc.
Qed.

Lemma unique_from_In items :
  forall u x, In x (unique_from u items) -> In x u \/ In x items.
Proof.
  induction items as [|item rest IH]; intros u x; simpl; auto.
  destruct (existsb (py_eqb item) u).
  - intros H. destruct (IH _ _ H); auto.
  - intros H. destruct (IH _ _ H) as [H'|H']; auto.
    apply in_app_or in H'. destruct H' as [H'|[<-|[]]]; auto.
Qed.

Lemma unique_from_covers items :
  forall u x, In x items ->
    In x (unique_from u items) \/ py_in x (unique_from u items).
Proof.
  induction items as [|item rest IH]; intros u x; simpl; [intros []|].
  intros [<-|H].
  - destruct (existsb (py_eqb item) u) eqn:E.
    + right. destruct (unique_from_prefix rest u) as [added ->].
      now apply existsb_app_l.
    + left. destruct (unique_from_prefix rest (u ++ [item])) as [added ->].
      apply in_or_app. left. apply in_or_app. right. now left.
  - destruct (existsb (py_eqb item) u); now apply IH.
Qed.

Lemma unique_from_fixed l :
  forall u, first_occurrences (u ++ l) -> unique_from u l = u ++ l.
Proof.
  induction l as [|x l IH]; intros u F; simpl.
  - now rewrite app_nil_r.
  - assert (E : existsb (py_eqb x) u = false).
    { clear IH. induction u as [|y u IHu]; simpl; trivial.
      simpl in F. destruct F as [F1 F2].
      rewrite (F1 x) by (apply in_or_app; right; now left).
      simpl. now apply IHu. }
    rewrite E. replace (u ++ x :: l) with ((u ++ [x]) ++ l) in *
      by now rewrite <- app_assoc.
    now apply IH.
Qed.

(** X22.  [unique] keeps, in order, the first occurrence of each value up
    to Python equality: no element of the result equals an earlier one,
    every element of the result is an element of the argument, every
    element of the argument is in the result or equal to an element of
    it, and applying [unique] again changes nothing. *)
Theorem unique_keeps_first_occurrences (items : list pyval) :
  first_occurrences (unique items) /\
  (forall x, In x (unique items) -> In x items) /\
  (forall x, In x items -> In x (unique items) \/ py_in x (unique items)) /\
  unique (unique items) = unique items.
Proof.
  unfold unique. repeat split.
  - now apply unique_from_first_occurrences.
  - intros x H. destruct (unique_from_In _ _ _ H) as [[]|H']; exact H'.
  - intros x H. now apply unique_from_covers.
  - apply (unique_from_fixed _ []). simpl.
    now apply unique_from_first_occurrences.
Qed.

(* ===================================================================== *)
(** ** The lookups through the finished graph *)
(* ===================================================================== *)

Module LookupFacts.
Import Platform.

Lemma normalize_name_no_dash n : mem_char "-" (normalize_name n) = false.
Proof.
  unfold normalize_name. apply replace_char_brings_nothing; [reflexivity|].
  now apply replace_char_removes.
Qed.

Lemma add_dependencies_names_clean cp ds :
  Forall keeps_names_clean ds ->
  forall g g',
    add_dependencies cp ds g = Ok g' ->
    names_clean (resources g) -> names_clean (resources g').
Proof.
  induction 1 as [|d ds Hd _ IH]; intros g g' H C.
  - inversion H; subst. assumption.
  - change (bind (add_resource d cp g) (add_dependencies cp ds) = Ok g') in H.
    destruct (add_resource d cp g) as [g1|e] eqn:A; [|discriminate H].
    eapply IH; [exact H|]. eapply Hd; eassumption.
Qed.

Lemma add_resource_names_clean r : keeps_names_clean r.
Proof.
  induction r as [n p m f t ds IH] using PlatformFacts.role_induction.
  intros gp g g' H C.
  apply PlatformFacts.add_resource_inv in H.
  destruct H as [[_ ->] | (cp & g1 & g2 & res & bk & E1 & AD & GR & E' & N & R & B)];
    [assumption|].
  rewrite <- E1 in C.
  pose proof (add_dependencies_names_clean _ _ IH _ _ AD C) as C2.
  rewrite E'. intros k r G. rewrite dget_dset in G.
  destruct (pykey_eq_dec (KStr (normalize_name n)) k) as [_|_];
    [|now apply (C2 k)].
  inversion G; subst r. rewrite N, R. split.
  - apply normalize_name_no_dash.
  - intros d I. unfold requires_of in I. apply in_map_iff in I.
    destruct I as (x & <- & _). apply normalize_name_no_dash.
Qed.

Lemma build_resources_names_clean plays :
  forall g g',
    build_resources plays g = Ok g' ->
    names_clean (resources g) -> names_clean (resources g').
Proof.
  induction plays as [|pl plays IH]; intros g g' H C; simpl in H.
  - inversion H; subst. assumption.
  - destruct (add_roles (fst pl) (snd pl) g) as [g1|e] eqn:A; [|discriminate H].
    eapply IH; [exact H|]. clear H IH.
    revert g g1 A C. induction (snd pl) as [|r roles IHr]; intros g g1 A C;
      simpl in A.
    + inversion A; subst. assumption.
    + destruct (add_resource r (fst pl) g) as [g2|e] eqn:A2; [|discriminate A].
      eapply IHr; [exact A|]. eapply add_resource_names_clean; eassumption.
Qed.

(** In the finished graph the names a component requires, and the names
    it is required by, are registered and hold no dash. *)
Lemma populate_names plays g :
  populate plays = Ok g ->
  forall k r, dget k g = Some r ->
    (forall d, In d (requires r) ->
       mem_char "-" d = false /\ dmem (KStr d) g = true) /\
    (forall a, In a (requiredby r) ->
       mem_char "-" a = false /\ dmem (KStr a) g = true).
Proof.
  intros H k r G.
  destruct (GraphFacts.populate_inv _ _ H) as (built & B & W & ND & K & E).
  assert (C : names_clean (resources built)).
  { apply (build_resources_names_clean _ _ _ B). intros ? ? G0. discriminate G0. }
  pose proof (E k) as Ek. rewrite G in Ek.
  destruct (dget k (resources built)) as [r0|] eqn:G0; [|contradiction].
  destruct Ek as (_ & R & Q). destruct (W _ _ G0) as (_ & B0 & D0).
  split.
  - intros d I. rewrite R in I. split.
    + exact (proj2 (C _ _ G0) d I).
    + rewrite (GraphFacts.edges_added_keys _ _ _ E). now apply D0.
  - intros a I. apply Q in I. rewrite B0 in I.
    destruct I as [[]|(key & ra & Ga & -> & _)].
    assert (Kk : key = KStr (mrn ra)) by apply (W _ _ Ga).
    rewrite Kk. simpl. split.
    + rewrite Kk in Ga. exact (proj1 (C _ _ Ga)).
    + rewrite (GraphFacts.edges_added_keys _ _ _ E).
      rewrite <- Kk. now rewrite dmem_dget, Ga.
Qed.

Lemma lookup_from_resolved host g others kind names :
  (forall d, In d names -> mem_char "-" d = false /\ dmem (KStr d) g = true) ->
  forall found,
    lookup_from ((host, g) :: others) kind names found
    = Ok (found ++ filter (of_kind kind) (resolved g names)).
Proof.
  induction names as [|d names IH]; intros N found.
  - simpl. now rewrite app_nil_r.
  - destruct (N d (or_introl eq_refl)) as [D M].
    cbn [lookup_from first_host bind resolved flat_map].
    rewrite (replace_char_absent _ _ _ D).
    rewrite dmem_dget in M.
    destruct (dget (KStr d) g) as [x|]; [|discriminate M].
    rewrite IH by (intros d' I; apply N; now right).
    cbn [app filter]. fold (resolved g names). unfold of_kind at 2.
    destruct (String.eqb (kind_name (mrk x)) kind).
    + now rewrite <- app_assoc.
    + reflexivity.
Qed.

Lemma resolved_length g names :
  (forall d, In d names -> dmem (KStr d) g = true) ->
  List.length (resolved g names) = List.length names.
Proof.
  induction names as [|d names IH]; intros N; [reflexivity|].
  cbn [resolved flat_map]. fold (resolved g names).
  pose proof (N d (or_introl eq_refl)) as M. rewrite dmem_dget in M.
  destruct (dget (KStr d) g); [|discriminate M].
  simpl. f_equal. apply IH. intros d' I. apply N. now right.
Qed.

(** X23.  On the finished graph, given as the variables of the first host,
    the lookups never miss: every name a component requires or is
    required by resolves to a component, and [machine_requires_lookup]
    and [machine_requiredby_lookup] return, in the order of the names,
    the resolved components of the kind asked for; [machine_requires_one]
    returns the first of them, or [None]. *)
Theorem lookups_resolve_on_the_finished_graph
    (plays : list play) (g : host_variables) (host : string)
    (others : list (string * host_variables)) (k : pykey) (r : resource)
    (kind : string) :
  populate plays = Ok g -> dget k g = Some r ->
  machine_requires_lookup r ((host, g) :: others) kind
  = Ok (filter (of_kind kind) (resolved g (requires r))) /\
  machine_requiredby_lookup r ((host, g) :: others) kind
  = Ok (filter (of_kind kind) (resolved g (requiredby r))) /\
  machine_requires_one r ((host, g) :: others) kind
  = Ok (hd_error (filter (of_kind kind) (resolved g (requires r)))) /\
  List.length (resolved g (requires r)) = List.length (requires r) /\
  List.length (resolved g (requiredby r)) = List.length (requiredby r).
Proof.
  intros H G. destruct (populate_names _ _ H _ _ G) as [R Q].
  assert (E1 : machine_requires_lookup r ((host, g) :: others) kind
               = Ok (filter (of_kind kind) (resolved g (requires r)))).
  { unfold machine_requires_lookup. now rewrite lookup_from_resolved. }
  split; [exact E1|]. split; [|split; [|split]].
  - unfold machine_requiredby_lookup. now rewrite lookup_from_resolved.
  - unfold machine_requires_one. rewrite E1. cbn [bind].
    now destruct (filter _ _).
  - apply resolved_length. intros d I. now apply R.
  - apply resolved_length. intros d I. now apply Q.
Qed.

Lemma lookups_resolve_witness :
  match example_gateway with
  | Some r =>
      machine_requires_lookup r [("node1", example_graph)] "service"
      = Ok (filter (of_kind "service") (resolved example_graph (requires r))) /\
      machine_requiredby_lookup r [("node1", example_graph)] "service"
      = Ok (filter (of_kind "service") (resolved example_graph (requiredby r))) /\
      machine_requires_one r [("node1", example_graph)] "service"
      = Ok (hd_error (filter (of_kind "service")
                        (resolved example_graph (requires r)))) /\
      List.length (resolved example_graph (requires r))
      = List.length (requires r) /\
      List.length (resolved example_graph (requiredby r))
      = List.length (requiredby r)
  | None => False
  end.
Proof.
  unfold example_gateway.
  apply (lookups_resolve_on_the_finished_graph example_plays example_graph
           "node1" [] (KStr "core__api_gw") _ "service").
  - reflexivity.
  - reflexivity.
Defined.

End LookupFacts.

(* ===================================================================== *)
(** ** Recording a version and reading it back *)
(* ===================================================================== *)

Lemma merge_dicts_eq l r :
  merge_dicts (PDict l) (PDict r)
  = (out <- merge_loop
              (map (fun kv => (fst kv, merge_value merge_dicts l (fst kv) (snd kv))) r)
              (dupdate l r) (dupdate l r) ;;
     Ok (PDict out)).
Proof. reflexivity. Qed.

Lemma dget_merge_values (f : pykey -> pyval -> result pyval) key r :
  dget key (map (fun kv => (fst kv, f (fst kv) (snd kv))) r)
  = option_map (f key) (dget key r).
Proof.
  induction r as [|[k v] r IH]; [reflexivity|].
  cbn [map dget fst snd]. destruct (pykey_eq_dec key k) as [->|N]; auto.
Qed.

(** The loop goes through when every computed value is there, and then a
    key of [right] that is among the items holds its computed value. *)
Lemma merge_loop_spec values :
  (forall key res, dget key values = Some res -> exists v, res = Ok v) ->
  forall items dicts,
    exists out,
      merge_loop values items dicts = Ok out /\
      forall key v, dget key values = Some (Ok v) ->
        dget key out = if dmem key items then Some v else dget key dicts.
Proof.
  intros A. induction items as [|[key0 value0] rest IH]; intros dicts.
  - exists dicts. split; [reflexivity|]. intros key v _. reflexivity.
  - cbn [merge_loop].
    assert (C : exists v0,
               match dget key0 values with
               | Some computed => computed
               | None => Ok (merge_single value0)
               end = Ok v0 /\
               forall v, dget key0 values = Some (Ok v) -> v0 = v).
    { destruct (dget key0 values) as [res|] eqn:G.
      - destruct (A _ _ G) as [v0 ->]. exists v0. split; trivial.
        intros v E. now inversion E.
      - eexists. split; [reflexivity|]. discriminate. }
    destruct C as (v0 & -> & U). cbn [bind].
    destruct (IH (dset key0 v0 dicts)) as (out & L & S).
    exists out. split; [exact L|]. intros key v G.
    rewrite (S _ _ G). unfold dmem at 2. cbn [dkeys map fst existsb].
    fold (dkeys rest). fold (dmem key rest).
    destruct (dmem key rest); [now rewrite Bool.orb_true_r|].
    rewrite Bool.orb_false_r. unfold key_eqb.
    destruct (pykey_eq_dec key key0) as [->|N].
    + rewrite dget_dset_eq. f_equal. now apply U.
    + now apply dget_dset_ne.
Qed.

Lemma dmem_dupdate_left key (r : dict) :
  forall l : dict, dmem key l = true -> dmem key (dupdate l r) = true.
Proof.
  unfold dupdate. induction r as [|[k v] r IH]; intros l M; [exact M|].
  cbn [fold_left fst snd]. apply IH.
  now apply PlatformFacts.dmem_dset_mono.
Qed.

Lemma dmem_dupdate_right key (r : dict) :
  forall l : dict, dmem key r = true -> dmem key (dupdate l r) = true.
Proof.
  induction r as [|[k v] r IH]; intros l M; [discriminate M|].
  rewrite dmem_dget in M. cbn [dget] in M.
  change (dupdate l ((k, v) :: r)) with (dupdate (dset k v l) r).
  destruct (pykey_eq_dec key k) as [->|N].
  - apply dmem_dupdate_left. now rewrite dmem_dget, dget_dset_eq.
  - apply IH. now rewrite dmem_dget.
Qed.

(** Merging a record of scalars into a dictionary: the fields of the
    record are read back as they are. *)
Lemma merge_dicts_scalars old record :
  (forall field v, dget field record = Some v -> is_scalar v = true) ->
  exists out,
    merge_dicts (PDict old) (PDict record) = Ok (PDict out) /\
    forall field v, dget field record = Some v -> dget field out = Some v.
Proof.
  intros Sc. rewrite merge_dicts_eq.
  assert (V : forall key v, dget key record = Some v ->
                merge_value merge_dicts old key v = Ok v).
  { intros key v G. apply Sc in G. unfold merge_value.
    destruct (dget key old); destruct v; try reflexivity; discriminate G. }
  destruct (merge_loop_spec
              (map (fun kv => (fst kv, merge_value merge_dicts old (fst kv) (snd kv)))
                 record)) with (items := dupdate old record)
                               (dicts := dupdate old record)
    as (out & L & S).
  { intros key res G. rewrite dget_merge_values in G.
    destruct (dget key record) as [v|] eqn:Gr; [|discriminate G].
    simpl in G. inversion G. rewrite (V _ _ Gr). eauto. }
  rewrite L. exists out. split; [reflexivity|].
  intros field v G.
  rewrite (S field v).
  - rewrite dmem_dupdate_right; trivial. now rewrite dmem_dget, G.
  - rewrite dget_merge_values, G. simpl. now rewrite (V _ _ G).
Qed.

(** Merging the record of one channel into a state. *)
Lemma merge_dicts_channel st k record :
  (forall field v, dget field record = Some v -> is_scalar v = true) ->
  (dget k st = None \/ exists old, dget k st = Some (PDict old)) ->
  exists out merged,
    merge_dicts (PDict st) (PDict [(k, PDict record)]) = Ok (PDict out) /\
    dget k out = Some (PDict merged) /\
    forall field v, dget field record = Some v -> dget field merged = Some v.
Proof.
  intros Sc H. rewrite merge_dicts_eq.
  assert (V : exists merged,
             merge_value merge_dicts st k (PDict record) = Ok (PDict merged) /\
             forall field v, dget field record = Some v ->
               dget field merged = Some v).
  { unfold merge_value. destruct H as [-> | (old & ->)].
    - exists record. split; [reflexivity|]. auto.
    - destruct (merge_dicts_scalars old record Sc) as (out & M & F).
      exists out. split; assumption. }
  destruct V as (merged & V & F).
  destruct (merge_loop_spec
              (map (fun kv => (fst kv, merge_value merge_dicts st (fst kv) (snd kv)))
                 [(k, PDict record)])) with (items := dupdate st [(k, PDict record)])
                               (dicts := dupdate st [(k, PDict record)])
    as (out & L & S).
  { intros key res G. cbn [map dget fst snd] in G.
    destruct (pykey_eq_dec key k) as [->|N]; [|discriminate G].
    inversion G. rewrite V. eauto. }
  rewrite L. exists out, merged. split; [reflexivity|]. split; [|exact F].
  rewrite (S k (PDict merged)).
  - rewrite dmem_dupdate_right; trivial.
    rewrite dmem_dget. cbn [dget]. now destruct (pykey_eq_dec k k).
  - cbn [map dget fst snd]. destruct (pykey_eq_dec k k); [|congruence].
    now rewrite V.
Qed.

Lemma version_record_scalars version mrv :
  is_scalar version = true ->
  forall field v, dget field (version_record version mrv) = Some v ->
    is_scalar v = true.
Proof.
  intros Sc field v. unfold version_record. cbn [dget].
  repeat (destruct (pykey_eq_dec field _);
          [intros E; inversion E; subst; trivial|]).
  discriminate.
Qed.

(** X24.  Recording a version and reading it back: when the registered
    result is true and yields a version that is not a list or a
    dictionary, the resource has an [mrv], and its [state], if any, is a
    dictionary that holds nothing or a dictionary for the channel, then
    [machine_state] with the result returns the resource changed in its
    [state] only, and reading the channel afterwards gives a record with
    the version, [exists] true exactly when the version is not [None],
    [fresh] true exactly when the version equals [mrv], and [build] its
    negation. *)
Theorem recorded_version_is_read_back
    (resource : dict) (tag current_version : pyval) (channel : pykey)
    (version mrv : pyval) :
  py_truthy current_version = true ->
  recorded_version current_version = Ok version ->
  is_scalar version = true ->
  py_hash tag = Ok channel ->
  dget (KStr "mrv") resource = Some mrv ->
  state_can_take channel resource ->
  exists resource' record,
    machine_state_with resource tag current_version
    = (resource', Ok (PDict resource')) /\
    (forall key, key <> KStr "state" -> dget key resource' = dget key resource) /\
    machine_state resource' tag = Ok (PDict record) /\
    (forall field v, dget field (version_record version mrv) = Some v ->
       dget field record = Some v) /\
    machine_exists resource' tag = Ok (PBool (is_not_None version)) /\
    machine_build resource' tag = Ok (PBool (negb (py_eqb version mrv))).
Proof.
  intros T R Sc Hk M C.
  unfold machine_state_with. rewrite T, R.
  set (resource1 := if dmem (KStr "state") resource then resource
                    else dset (KStr "state") (PDict []) resource).
  assert (M1 : dget (KStr "mrv") resource1 = Some mrv).
  { unfold resource1. destruct (dmem (KStr "state") resource); trivial.
    rewrite dget_dset_ne by discriminate. exact M. }
  assert (S1 : exists st, dget (KStr "state") resource1 = Some (PDict st) /\
                 (dget channel st = None \/
                  exists old, dget channel st = Some (PDict old))).
  { unfold resource1. rewrite dmem_dget.
    destruct C as [G | (st & G & H)]; rewrite G.
    - exists []. rewrite dget_dset_eq. split; [reflexivity|]. now left.
    - exists st. split; assumption. }
  destruct S1 as (st & S1 & H).
  assert (F1 : forall key, key <> KStr "state" ->
                 dget key resource1 = dget key resource).
  { intros key N. unfold resource1.
    destruct (dmem (KStr "state") resource); trivial.
    apply dget_dset_ne. congruence. }
  unfold py_getitem. rewrite M1, S1, Hk. cbn [bind].
  destruct (merge_dicts_channel st channel (version_record version mrv)
              (version_record_scalars version mrv Sc) H)
    as (out & merged & E & G & F).
  unfold version_record in E. rewrite E.
  exists (dset (KStr "state") (PDict out) resource1), merged.
  assert (St : state_at channel (dset (KStr "state") (PDict out) resource1)
               = Some (PDict merged)).
  { unfold state_at. now rewrite dget_dset_eq. }
  pose proof (machine_state_reads _ _ _ _ Hk St) as Rd.
  split; [reflexivity|]. split; [|split; [exact Rd|split; [exact F|]]].
  - intros key N. rewrite dget_dset_ne by congruence. now apply F1.
  - unfold machine_exists, machine_build. rewrite Rd.
    cbn [bind py_contains py_hash py_subscript].
    rewrite !dmem_dget.
    rewrite (F (KStr "exists") (PBool (is_not_None version)) eq_refl).
    rewrite (F (KStr "build") (PBool (negb (py_eqb version mrv))) eq_refl).
    split; reflexivity.
Qed.

Lemma recorded_version_witness :
  exists resource' record,
    machine_state_with svc_a_reconciled (PStr "default") (printed_version "8")
    = (resource', Ok (PDict resource')) /\
    (forall key, key <> KStr "state" ->
       dget key resource' = dget key svc_a_reconciled) /\
    machine_state resource' (PStr "default") = Ok (PDict record) /\
    (forall field v,
       dget field (version_record (PStr "8") (PStr "7")) = Some v ->
       dget field record = Some v) /\
    machine_exists resource' (PStr "default")
    = Ok (PBool (is_not_None (PStr "8"))) /\
    machine_build resource' (PStr "default")
    = Ok (PBool (negb (py_eqb (PStr "8") (PStr "7")))).
Proof.
  apply (recorded_version_is_read_back svc_a_reconciled (PStr "default")
           (printed_version "8") (KStr "default") (PStr "8") (PStr "7")).
  - reflexivity.
  - reflexivity.
  - reflexivity.
  - reflexivity.
  - reflexivity.
  - right. eexists. split; [reflexivity|]. right. eexists. reflexivity.
Defined.

(** X25.  A skipped task, and a result whose [stdout] is empty or
    missing, record no version: [None], so that [exists] is false. *)
Theorem no_version_from_skipped_or_silent (result : dict) :
  (exists s, dget (KStr "skipped") result = Some s /\ py_truthy s = true) \/
  dget (KStr "stdout") result = None \/
  dget (KStr "stdout") result = Some (PStr EmptyString) ->
  recorded_version (PDict result) = Ok PNone.
Proof.
  unfold recorded_version. cbn [py_contains py_hash bind py_subscript].
  rewrite !dmem_dget.
  intros [(s & G & T) | H].
  - rewrite G. cbn [bind]. now rewrite T.
  - destruct (dget (KStr "skipped") result) as [s|]; cbn [bind].
    + destruct (py_truthy s); [reflexivity|].
      destruct H as [-> | ->]; reflexivity.
    + destruct H as [-> | ->]; reflexivity.
Qed.

Lemma no_version_witness :
  recorded_version (PDict [(KStr "skipped", PBool true)]) = Ok PNone.
Proof.
  apply (no_version_from_skipped_or_silent [(KStr "skipped", PBool true)]).
  left. exists (PBool true). split; reflexivity.
Defined.

Lemma merge_loop_fails values key e :
  dget key values = Some (Raise e) ->
  forall items dicts,
    dmem key items = true ->
    exists e', merge_loop values items dicts = Raise e'.
Proof.
  intros G. induction items as [|[key0 value0] rest IH]; intros dicts M;
    [discriminate M|].
  cbn [merge_loop].
  destruct (pykey_eq_dec key key0) as [<-|N].
  - rewrite G. cbn [bind]. eauto.
  - destruct (match dget key0 values with
              | Some computed => computed
              | None => Ok (merge_single value0)
              end) as [v|e0]; cbn [bind]; [|eauto].
    apply IH. rewrite dmem_dget in M |- *. cbn [dget] in M.
    now destruct (pykey_eq_dec key key0).
Qed.

(** X26.  [merge_dicts] fails when a key that both sides hold has a list
    on the right and no list on the left, or a dictionary on the right
    and no dictionary on the left. *)
Theorem merge_dicts_fails_on_conflicting_shapes
    (left right : dict) (key : pykey) (left_value right_value : pyval) :
  dget key left = Some left_value ->
  dget key right = Some right_value ->
  shapes_conflict left_value right_value = true ->
  exists e, merge_dicts (PDict left) (PDict right) = Raise e.
Proof.
  intros Gl Gr C. rewrite merge_dicts_eq.
  assert (V : exists e,
             merge_value merge_dicts left key right_value = Raise e).
  { unfold merge_value. rewrite Gl.
    destruct right_value as [| | | |items|d]; try discriminate C.
    - destruct left_value; try discriminate C; eauto.
    - destruct left_value; try discriminate C; cbn [merge_dicts]; eauto. }
  destruct V as [e V].
  destruct (merge_loop_fails
              (map (fun kv => (fst kv, merge_value merge_dicts left (fst kv) (snd kv)))
                 right) key e) with (items := dupdate left right)
                                    (dicts := dupdate left right)
    as [e' L].
  - rewrite dget_merge_values, Gr. simpl. now rewrite V.
  - apply dmem_dupdate_right. now rewrite dmem_dget, Gr.
  - rewrite L. cbn [bind]. eauto.
Qed.

Lemma merge_dicts_conflict_witness :
  exists e,
    merge_dicts (PDict [(KStr "mrt", PStr "default")])
      (PDict [(KStr "mrt", PList [PStr "default"])]) = Raise e.
Proof.
  exact (merge_dicts_fails_on_conflicting_shapes
           [(KStr "mrt", PStr "default")]
           [(KStr "mrt", PList [PStr "default"])]
           (KStr "mrt") (PStr "default") (PList [PStr "default"])
           eq_refl eq_refl eq_refl).
Defined.

(* ===================================================================== *)
(** ** Paths, image paths and the initial state *)
(* ===================================================================== *)

(** X27.  The path of an image reference [registry/path:tag], where the
    registry holds no slash and the path no colon, is [path]. *)
Theorem machine_image_path_of_reference (registry path tag : string) :
  mem_char "/" registry = false ->
  mem_char ":" path = false ->
  machine_image_path (registry ++ "/" ++ path ++ ":" ++ tag) = path.
Proof.
  intros R P. unfold machine_image_path.
  change (registry ++ "/" ++ path ++ ":" ++ tag)%string
    with (registry ++ String "/" (path ++ String ":" tag))%string.
  rewrite split_app, (split_absent _ _ R). cbn [app tl].
  rewrite join_split, split_app, (split_absent _ _ P). reflexivity.
Qed.

Lemma machine_image_path_witness :
  machine_image_path ("registry" ++ "/" ++ "platform/api" ++ ":" ++ "7_default")
  = "platform/api".
Proof.
  exact (machine_image_path_of_reference "registry" "platform/api" "7_default"
           eq_refl eq_refl).
Defined.

Module LayoutFacts.
Import Platform.

(** X28.  The kind of a role is read from the directory two levels above
    the last component of its path: for a path
    [base/dir/middle/name] it is [kind_singular] of [dir], and a [dir]
    that is no plural of a kind raises [KeyError]. *)
Theorem kind_is_read_from_the_directory (base dir middle name : string) :
  mem_char "/" dir = false ->
  mem_char "/" middle = false ->
  mem_char "/" name = false ->
  resource_kind_from_role_path (base ++ "/" ++ dir ++ "/" ++ middle ++ "/" ++ name)
  = match kind_singular dir with
    | Some k => Ok k
    | None => Raise (KeyError (KStr dir))
    end.
Proof.
  intros D M N. unfold resource_kind_from_role_path.
  change (base ++ "/" ++ dir ++ "/" ++ middle ++ "/" ++ name)%string
    with (base ++ String "/" (dir ++ String "/" (middle ++ String "/" name)))%string.
  rewrite !split_app, (split_absent _ _ D), (split_absent _ _ M),
    (split_absent _ _ N).
  rewrite rev_app_distr. reflexivity.
Qed.

Lemma kind_is_read_from_the_directory_witness :
  resource_kind_from_role_path
    ("collections/data" ++ "/" ++ "services" ++ "/" ++ "roles" ++ "/" ++ "db")
  = match kind_singular "services" with
    | Some k => Ok k
    | None => Raise (KeyError (KStr "services"))
    end.
Proof.
  exact (kind_is_read_from_the_directory "collections/data" "services" "roles"
           "db" eq_refl eq_refl eq_refl).
Defined.

Lemma init_state_record tags tag :
  In tag tags -> dget (KStr tag) (init_state tags) = Some default_state.
Proof.
  intros I. unfold init_state.
  apply (fold_dset_get (fun _ => default_state)). now left.
Qed.

(** X29.  Before any reconciliation, a component asks for a build on
    every channel it declares: read through the filters, the state
    [init_state] sets says that nothing exists, that a build is needed and
    that nothing is built. *)
Theorem initial_state_asks_for_a_build
    (resource : dict) (tags : list string) (tag : string) :
  dget (KStr "state") resource = Some (PDict (init_state tags)) ->
  In tag tags ->
  machine_exists resource (PStr tag) = Ok (PBool false) /\
  machine_build resource (PStr tag) = Ok (PBool true) /\
  machine_built resource (PStr tag) PNone = Ok (PBool false) /\
  machine_built resource (PStr tag) (PStr "any") = Ok (PBool false) /\
  machine_built resource (PStr tag) (PStr "current") = Ok (PBool false).
Proof.
  intros G I.
  assert (S : state_at (KStr tag) resource = Some default_state).
  { unfold state_at. rewrite G. now apply init_state_record. }
  pose proof (machine_state_reads resource (PStr tag) (KStr tag) _ eq_refl S)
    as M.
  unfold machine_exists, machine_build, machine_built. rewrite M.
  repeat split.
Qed.

Lemma initial_state_witness :
  machine_exists [(KStr "state", PDict (init_state ["default"; "canary"]))]
    (PStr "canary") = Ok (PBool false) /\
  machine_build [(KStr "state", PDict (init_state ["default"; "canary"]))]
    (PStr "canary") = Ok (PBool true) /\
  machine_built [(KStr "state", PDict (init_state ["default"; "canary"]))]
    (PStr "canary") PNone = Ok (PBool false) /\
  machine_built [(KStr "state", PDict (init_state ["default"; "canary"]))]
    (PStr "canary") (PStr "any") = Ok (PBool false) /\
  machine_built [(KStr "state", PDict (init_state ["default"; "canary"]))]
    (PStr "canary") (PStr "current") = Ok (PBool false).
Proof.
  apply (initial_state_asks_for_a_build
           [(KStr "state", PDict (init_state ["default"; "canary"]))]
           ["default"; "canary"] "canary").
  - reflexivity.
  - right. now left.
Defined.

End LayoutFacts.
